(** * Guitar chord transposer: the pure core of [lib/transpose.ts],
      [lib/capo.ts] and [lib/chords.ts], embedded in Rocq.

    The three TypeScript modules are pure functions over strings, numbers
    and small records.  They are translated function by function.  The
    JavaScript built-ins they call (regular expressions, [split],
    [replace], [trim], [includes], [sort], case conversion) are modelled
    once, in module [JS], following ECMA-262.

    After them come the URL-safe token of [lib/share.ts] and the pure
    parts of the components that call the modules: the text of the main
    screen and of the print page, the chords they draw diagrams for and
    the steps through the voicings of a popover. *)

From Stdlib Require Import ZArith List Bool Lia String Ascii QArith.
From Stdlib Require Import DecimalString Permutation Sorted Lqa.
Import ListNotations.

Local Open Scope Z_scope.

(* ================================================================== *)
(** * The JavaScript built-ins the modules use                         *)
(* ================================================================== *)

Module JS.

(** A JavaScript string is a sequence of UTF-16 code units. *)
Abbreviation cu := Z (only parsing).
Abbreviation str := (list Z) (only parsing).

(** The code units of an ASCII literal of the source. *)
Definition lit (s : string) : str :=
  map (fun a => Z.of_N (N_of_ascii a)) (list_ascii_of_string s).
Arguments lit s%_string.

Definition str_eqb (a b : str) : bool :=
  if list_eq_dec Z.eq_dec a b then true else false.

(** ** Case conversion

    [toUpperCase] and [toLowerCase] of one code unit.  The tables cover
    ASCII, Latin-1, Greek and Cyrillic and the few code units of these
    blocks (and U+0130, U+212A, U+212B) whose conversion leaves the
    block or changes length; every other code unit is left unchanged.
    The sets the program cares about are complete: the only code units
    with an upper case in [A-Z] are [a-z] (and U+0131, U+017F, which
    ECMA-262's [Canonicalize] refuses and which are not in [a-g]), and
    the only code unit with upper case U+0394 other than itself is
    U+03B4.  The context rule for a final sigma is not modelled. *)
Definition toUpperCase1 (c : cu) : str :=
  if (97 <=? c) && (c <=? 122) then [c - 32]
  else if c =? 181 then [924]
  else if c =? 223 then [83; 83]
  else if (224 <=? c) && (c <=? 254) && negb (c =? 247) then [c - 32]
  else if c =? 255 then [376]
  else if c =? 305 then [73]
  else if c =? 383 then [83]
  else if c =? 962 then [931]
  else if (945 <=? c) && (c <=? 969) then [c - 32]
  else if (1072 <=? c) && (c <=? 1103) then [c - 32]
  else if (1104 <=? c) && (c <=? 1119) then [c - 80]
  else [c].

Definition toLowerCase1 (c : cu) : str :=
  if (65 <=? c) && (c <=? 90) then [c + 32]
  else if (192 <=? c) && (c <=? 222) && negb (c =? 215) then [c + 32]
  else if c =? 304 then [105; 775]
  else if c =? 376 then [255]
  else if (913 <=? c) && (c <=? 939) && negb (c =? 930) then [c + 32]
  else if (1040 <=? c) && (c <=? 1071) then [c + 32]
  else if (1024 <=? c) && (c <=? 1039) then [c + 80]
  else if c =? 8490 then [107]
  else if c =? 8491 then [229]
  else [c].

Definition toLowerCase (s : str) : str := flat_map toLowerCase1 s.

(** ECMA-262 [Canonicalize] for a pattern without the [u] flag. *)
Definition canonicalize (ignoreCase : bool) (ch : cu) : cu :=
  if ignoreCase then
    match toUpperCase1 ch with
    | [u] => if (128 <=? ch) && (u <? 128) then ch else u
    | _ => ch
    end
  else ch.

(** ** Character classes *)

(** [WhiteSpace] and [LineTerminator]: the set of [\s] and of [trim]. *)
Definition whiteSpace : list (cu * cu) :=
  [ (9, 13); (32, 32); (160, 160); (5760, 5760); (8192, 8202);
    (8232, 8233); (8239, 8239); (8287, 8287); (12288, 12288);
    (65279, 65279) ].

Definition lineTerminator : list (cu * cu) :=
  [ (10, 10); (13, 13); (8232, 8233) ].

Definition in_ranges (rs : list (cu * cu)) (c : cu) : bool :=
  existsb (fun r => (fst r <=? c) && (c <=? snd r)) rs.

Definition isSpace (c : cu) : bool := in_ranges whiteSpace c.

(** [\w], used by [\b]. *)
Definition isWordChar (c : cu) : bool :=
  in_ranges [ (48, 57); (65, 90); (95, 95); (97, 122) ] c.

(** A class is a finite union of ranges, possibly negated. *)
Record cclass := { cranges : list (cu * cu); cinvert : bool }.

Definition elements (r : cu * cu) : list cu :=
  map (fun i => fst r + Z.of_nat i) (seq 0 (Z.to_nat (snd r - fst r + 1))).

(** [CharacterSetMatcher]: some member of the set has the canonical form
    of the input code unit; the result is flipped for a negated class. *)
Definition cmatch (ignoreCase : bool) (c : cclass) (ch : cu) : bool :=
  let found :=
    existsb (fun r =>
       existsb (fun a => canonicalize ignoreCase a =? canonicalize ignoreCase ch)
               (elements r))
      (cranges c) in
  xorb found (cinvert c).

(** ** Patterns *)

Inductive regex :=
| REmpty
| RSet (c : cclass)
| RSeq (a b : regex)
| RAlt (a b : regex)
| RStar (a : regex)
| ROpt (a : regex)
| RGroup (i : nat) (a : regex)
| RBol
| REol
| RWordB
| RNotAhead (a : regex).

Definition rch (c : cu) : regex := RSet {| cranges := [(c, c)]; cinvert := false |}.
Definition rrange (lo hi : cu) : regex :=
  RSet {| cranges := [(lo, hi)]; cinvert := false |}.
Definition rclass (rs : list (cu * cu)) : regex :=
  RSet {| cranges := rs; cinvert := false |}.
Definition rnclass (rs : list (cu * cu)) : regex :=
  RSet {| cranges := rs; cinvert := true |}.
Definition rchar (a : ascii) : regex := rch (Z.of_N (N_of_ascii a)).
Arguments rchar a%_char.
Definition rdigit : regex := rrange 48 57.
Definition rspace : regex := rclass whiteSpace.
Definition rdot : regex := rnclass lineTerminator.
Definition rplus (a : regex) : regex := RSeq a (RStar a).

Fixpoint rseq (l : list regex) : regex :=
  match l with
  | [] => REmpty
  | [a] => a
  | a :: l' => RSeq a (rseq l')
  end.

Fixpoint ralt (l : list regex) : regex :=
  match l with
  | [] => REmpty
  | [a] => a
  | a :: l' => RAlt a (ralt l')
  end.

Definition rword (s : string) : regex := rseq (map rch (lit s)).
Arguments rword s%_string.

(** ** The backtracking matcher

    A state is a position in the input, the input from there on and the
    captures so far; a continuation receives the state after a match.
    The matcher follows the semantics of ECMA-262: alternatives are
    tried left to right, quantifiers are greedy and an iteration that
    consumes nothing is refused.  Captures are not reset between the
    iterations of a quantifier: no pattern of the modules has a group
    under one. *)
Record mstate := { pos : nat; rest : str; caps : list (nat * str) }.

Definition cont := mstate -> option mstate.

Definition advance (st : mstate) (tl : str) : mstate :=
  {| pos := S (pos st); rest := tl; caps := caps st |}.

Definition progressed (st st1 : mstate) : bool :=
  (pos st <? pos st1)%nat.

Definition capture (i : nat) (st st1 : mstate) : mstate :=
  {| pos := pos st1; rest := rest st1;
     caps := (i, firstn (pos st1 - pos st) (rest st)) :: caps st1 |}.

Definition prevChar (inp : str) (st : mstate) : option cu :=
  match pos st with
  | O => None
  | S p => nth_error inp p
  end.

Definition isWordAt (o : option cu) : bool :=
  match o with Some c => isWordChar c | None => false end.

(** The loop of a greedy star over the matcher [m] of its body.  Every
    iteration consumes a code unit, so the length of the input left is
    fuel enough. *)
Fixpoint starLoop (m : mstate -> cont -> option mstate) (k : cont)
  (fuel : nat) (st : mstate) {struct fuel} : option mstate :=
  match fuel with
  | O => k st
  | S fuel' =>
      match m st (fun st1 => if progressed st st1
                             then starLoop m k fuel' st1 else None) with
      | Some r => Some r
      | None => k st
      end
  end.

Fixpoint rmatch (ic : bool) (inp : str) (r : regex) (st : mstate) (k : cont)
  {struct r} : option mstate :=
  match r with
  | REmpty => k st
  | RSet c =>
      match rest st with
      | ch :: tl => if cmatch ic c ch then k (advance st tl) else None
      | [] => None
      end
  | RSeq a b => rmatch ic inp a st (fun st1 => rmatch ic inp b st1 k)
  | RAlt a b =>
      match rmatch ic inp a st k with
      | Some r => Some r
      | None => rmatch ic inp b st k
      end
  | RStar a => starLoop (rmatch ic inp a) k (List.length (rest st)) st
  | ROpt a =>
      match rmatch ic inp a st
              (fun st1 => if progressed st st1 then k st1 else None) with
      | Some r => Some r
      | None => k st
      end
  | RGroup i a => rmatch ic inp a st (fun st1 => k (capture i st st1))
  | RBol => if (pos st =? 0)%nat then k st else None
  | REol => match rest st with [] => k st | _ => None end
  | RWordB =>
      if xorb (isWordAt (prevChar inp st)) (isWordAt (hd_error (rest st)))
      then k st else None
  | RNotAhead a =>
      match rmatch ic inp a st Some with
      | Some _ => None
      | None => k st
      end
  end.

(** A pattern: its text in the source, the parsed body and the [i] flag. *)
Record RegExp := { source : string; body : regex; ignoreCase : bool }.

Definition matchAt (re : RegExp) (inp : str) (p : nat) (rst : str) : option mstate :=
  rmatch (ignoreCase re) inp (body re) {| pos := p; rest := rst; caps := [] |} Some.

(** [RegExp.prototype.exec] without the [g] and [y] flags: the first
    start index, from 0, at which the pattern matches. *)
Fixpoint execFrom (re : RegExp) (inp : str) (p : nat) (rst : str)
  : option (nat * mstate) :=
  match matchAt re inp p rst with
  | Some st => Some (p, st)
  | None =>
      match rst with
      | [] => None
      | _ :: tl => execFrom re inp (S p) tl
      end
  end.

Definition exec (re : RegExp) (inp : str) : option (nat * mstate) :=
  execFrom re inp 0%nat inp.

Definition test (re : RegExp) (inp : str) : bool :=
  match exec re inp with Some _ => true | None => false end.

(** The value of capture [i] of a match: [None] is [undefined]. *)
Fixpoint group (i : nat) (cs : list (nat * str)) : option str :=
  match cs with
  | [] => None
  | (j, s) :: cs' => if (i =? j)%nat then Some s else group i cs'
  end.


(** The number of capturing groups of a pattern. *)
Fixpoint ngroups (r : regex) : nat :=
  match r with
  | RSeq a b | RAlt a b => (ngroups a + ngroups b)%nat
  | RStar a | ROpt a | RNotAhead a => ngroups a
  | RGroup _ a => S (ngroups a)
  | _ => O
  end.

(** The captures 1..n as [split] splices them into its result.  A group
    that took no part in the match is [undefined]; it is shown here as
    the empty string, which is what every consumer in these modules
    makes of it ([!tok], [join]).  No pattern given to [split] in the
    modules has such a group. *)
Definition captures (re : RegExp) (st : mstate) : list str :=
  map (fun i => match group i (caps st) with Some s => s | None => [] end)
      (seq 1 (ngroups (body re))).

(** ** String methods *)

Fixpoint prefixb (p s : str) : bool :=
  match p, s with
  | [], _ => true
  | a :: p', b :: s' => (a =? b) && prefixb p' s'
  | _ :: _, [] => false
  end.

(** [s.includes(needle)]. *)
Fixpoint includes (needle s : str) : bool :=
  prefixb needle s ||
  match s with
  | [] => false
  | _ :: tl => includes needle tl
  end.

(** [s.replace(pat, rep)] for a string pattern: the first occurrence
    only.  The replacements of the source hold no [$]. *)
Fixpoint replace (pat rep s : str) : str :=
  if prefixb pat s then rep ++ skipn (List.length pat) s
  else match s with
       | [] => []
       | c :: tl => c :: replace pat rep tl
       end.

Fixpoint trimStart (s : str) : str :=
  match s with
  | c :: tl => if isSpace c then trimStart tl else s
  | [] => []
  end.

Definition trimEnd (s : str) : str := rev (trimStart (rev s)).

Definition trim (s : str) : str := trimEnd (trimStart s).

(** [s.split(re)].  ECMA-262 keeps [p], the end of the last match, and
    scans [q] from there: a failed match, or one ending at [p], moves
    [q] on by one; any other match at [q] ending at [e] emits
    [s[p..q]], then the captures, and restarts with [p = q = e].  Here
    [cur] is [s[p..q]] and [rst] is the input from [q]; after a match
    of length [e - q] the next [skip] code units are stepped over
    without a match attempt, which reaches [q = e] with [cur] empty.  A
    match that is empty at [q > p] restarts at [p = q], where the same
    empty match now ends at [p], so [q] moves on. *)
Fixpoint splitLoop (re : RegExp) (inp : str) (p q : nat) (cur : str)
  (skip : nat) (rst : str) {struct rst} : list str :=
  match rst with
  | [] => [cur]
  | c :: tl =>
      match skip with
      | S n => splitLoop re inp p (S q) cur n tl
      | O =>
          match matchAt re inp q rst with
          | None => splitLoop re inp p (S q) (cur ++ [c]) O tl
          | Some st =>
              let e := pos st in
              if (e =? p)%nat then splitLoop re inp p (S q) (cur ++ [c]) O tl
              else cur :: captures re st ++
                   (if (e =? q)%nat
                    then splitLoop re inp q (S q) [c] O tl
                    else splitLoop re inp e (S q) [] (e - q - 1) tl)
          end
      end
  end.

Definition split (re : RegExp) (s : str) : list str :=
  match s with
  | [] => match matchAt re s 0 s with Some _ => [] | None => [s] end
  | _ => splitLoop re s 0 0 [] 0 s
  end.

(** [s.split(sep)] for a string separator. *)
Fixpoint splitStrLoop (sep : str) (cur : str) (skip : nat) (rst : str)
  {struct rst} : list str :=
  match rst with
  | [] => [cur]
  | c :: tl =>
      match skip with
      | S n => splitStrLoop sep cur n tl
      | O =>
          if prefixb sep rst
          then cur :: splitStrLoop sep [] (List.length sep - 1) tl
          else splitStrLoop sep (cur ++ [c]) O tl
      end
  end.

Definition splitStr (sep s : str) : list str :=
  match sep, s with
  | [], _ => map (fun c => [c]) s
  | _, [] => [s]
  | _, _ => splitStrLoop sep [] 0 s
  end.

(** [a.join("")]. *)
Definition join (l : list str) : str := List.concat l.

(** ** [Array.prototype.sort]

    The sort is stable (ECMA-262 since 2019).  For a comparator that is
    a consistent ordering, as all comparators of the modules are, the
    result is fixed: the stable insertion below computes it.  [x] stood
    before every element of [l] and stays before the first [y] with
    [cmp x y <= 0]. *)
Fixpoint insertBy {A : Type} (cmp : A -> A -> Q) (x : A) (l : list A) : list A :=
  match l with
  | [] => [x]
  | y :: l' => if Qle_bool (cmp x y) 0 then x :: l else y :: insertBy cmp x l'
  end.

Definition sort {A : Type} (cmp : A -> A -> Q) (l : list A) : list A :=
  fold_right (insertBy cmp) [] l.

(** ** Numbers

    The numbers of the modules are integers, and halves in the capo
    score: they are [Z] and [Q] here.  Among the doubles the integers up
    to 2^53 in size are all there, and a sum, a difference or a
    remainder of that size is exact.  The indices, frets and scores of
    the modules stay far below.  Only the [steps] of a transposition are
    a number the caller chooses: they stand for an integer among the
    doubles, and their sum with an index is rounded as a double is. *)

(** [n % m], the remainder with the sign of the dividend; it is exact. *)
Definition rem (n m : Z) : Z := Z.rem n m.

(** The double nearest to an integer, with the even significand in a
    tie: the integers up to 2^53 in size are doubles, and from [2^k] to
    [2^(k+1)], for [k] from 53 on, the doubles are the multiples of
    [2^(k-52)]. *)
Definition roundDouble (z : Z) : Z :=
  let a := Z.abs z in
  if a <=? 2 ^ 53 then z
  else
    let ulp := 2 ^ (Z.log2 a - 52) in
    let q := a / ulp in
    let r := a mod ulp in
    let q' := if 2 * r <? ulp then q
              else if ulp <? 2 * r then q + 1
              else if Z.even q then q else q + 1 in
    Z.sgn z * (q' * ulp).

(** [a + b] on integers; the sum of a double and an index is finite. *)
Definition add (a b : Z) : Z := roundDouble (a + b).

(** An integer in a template literal. *)
Definition numToStr (n : Z) : str := lit (NilZero.string_of_int (Z.to_int n)).

(** The printed form of [undefined]. *)
Definition undefinedStr : str := lit "undefined".

End JS.

(* ================================================================== *)
(** * lib/transpose.ts                                                 *)
(* ================================================================== *)

Module Transpose.
Import JS.

Definition SHARPS : list str :=
  map lit ["C";"C#";"D";"D#";"E";"F";"F#";"G";"G#";"A";"A#";"B"]%string.
Definition FLATS : list str :=
  map lit ["C";"Db";"D";"Eb";"E";"F";"Gb";"G";"Ab";"A";"Bb";"B"]%string.

Abbreviation NoteName := (list Z) (only parsing).

(** An object literal used as a map: its own keys, in source order. *)
Fixpoint lookup {V : Type} (k : str) (m : list (str * V)) : option V :=
  match m with
  | [] => None
  | (k', v) :: m' => if str_eqb k k' then Some v else lookup k m'
  end.

Definition ENHARMONIC_MAP : list (str * Z) :=
  [ (lit "C", 0); (lit "B#", 0);
    (lit "C#", 1); (lit "Db", 1);
    (lit "D", 2);
    (lit "D#", 3); (lit "Eb", 3);
    (lit "E", 4); (lit "Fb", 4);
    (lit "F", 5); (lit "E#", 5);
    (lit "F#", 6); (lit "Gb", 6);
    (lit "G", 7);
    (lit "G#", 8); (lit "Ab", 8);
    (lit "A", 9);
    (lit "A#", 10); (lit "Bb", 10);
    (lit "B", 11); (lit "Cb", 11) ].

(** [Set.prototype.has] on a set of strings. *)
Definition has (s : list str) (k : str) : bool := existsb (str_eqb k) s.

Definition SHARP_KEYS : list str := map lit ["G";"D";"A";"E";"B";"F#";"C#"]%string.
Definition FLAT_KEYS : list str := map lit ["F";"Bb";"Eb";"Ab";"Db";"Gb";"Cb"]%string.

Definition ALL_KEYS : list str :=
  map lit ["C";"G";"D";"A";"E";"B";"F#";"C#";
           "F";"Bb";"Eb";"Ab";"Db";"Gb";"Cb"]%string.

Definition preferSharpsForKey (key : str) : bool :=
  if has SHARP_KEYS key then true
  else if has FLAT_KEYS key then false
  else true.

(** [t[0]?.toUpperCase()] is [undefined] on the empty string, and
    [head + acc] then prints it.  No key of [ENHARMONIC_MAP], and no
    property an object literal inherits, is spelled that way or starts
    with an upper-case result, so the lookup sees own keys only. *)
Definition normNote (raw : str) : option NoteName :=
  match raw with
  | [] => None
  | _ =>
      let t := trim (replace [9837] (lit "b") (replace [9839] (lit "#") raw)) in
      let head := match nth_error t 0 with
                  | Some c => toUpperCase1 c
                  | None => undefinedStr
                  end in
      let acc := match nth_error t 1 with
                 | Some c => if (c =? 35) || (c =? 98) then [c] else []
                 | None => []
                 end in
      let note := head ++ acc in
      match lookup note ENHARMONIC_MAP with
      | Some _ => Some note
      | None => None
      end
  end.

(** [ENHARMONIC_MAP[note]]; [None] is [undefined]. *)
Definition indexOf (note : NoteName) : option Z := lookup note ENHARMONIC_MAP.

Definition chooseSpelling (semitone : Z) (preferSharps : bool) : str :=
  let semitone := rem (rem semitone 12 + 12) 12 in
  nth (Z.to_nat semitone) (if preferSharps then SHARPS else FLATS) undefinedStr.

(** [indexOf] is only reached with a key of the map; the other branch
    stands for the [undefined] that [SHARPS[NaN]] would be. *)
Definition transposeNote (noteRaw : str) (steps : Z) (preferSharps : bool) : str :=
  match normNote noteRaw with
  | None => noteRaw
  | Some note =>
      match indexOf note with
      | Some idx =>
          let outIdx := rem (rem (add idx steps) 12 + 12) 12 in
          chooseSpelling outIdx preferSharps
      | None => undefinedStr
      end
  end.

Definition CHORD_RE : RegExp :=
  {| source := "/^([A-G](?:#|b)?)([^/\s]*)$/i";
     body := rseq [ RBol;
                    RGroup 1 (RSeq (rrange 65 71) (ROpt (RAlt (rchar "#") (rchar "b"))));
                    RGroup 2 (RStar (rnclass ((47, 47) :: whiteSpace)));
                    REol ];
     ignoreCase := true |}.

(** The recursion of the source descends into the two parts of a split
    at "/", which hold no "/": two levels are all it ever uses. *)
Fixpoint transposeChordSymbolF (fuel : nat) (symbol : str) (steps : Z)
  (preferSharps : bool) : str :=
  match fuel with
  | O => symbol
  | S fuel' =>
      if includes (lit "/") symbol then
        let parts := splitStr (lit "/") symbol in
        let top := nth 0 parts undefinedStr in
        let bass := nth 1 parts undefinedStr in
        transposeChordSymbolF fuel' top steps preferSharps
          ++ lit "/" ++ transposeChordSymbolF fuel' bass steps preferSharps
      else
        match exec CHORD_RE symbol with
        | None => symbol
        | Some (_, m) =>
            let root := match group 1 (caps m) with Some r => r | None => undefinedStr end in
            let tail := group 2 (caps m) in
            let newRoot := transposeNote root steps preferSharps in
            newRoot ++ match tail with Some t => t | None => [] end
        end
  end.

Definition transposeChordSymbol (symbol : str) (steps : Z) (preferSharps : bool) : str :=
  transposeChordSymbolF 2 symbol steps preferSharps.

(** The pattern of [isChordLike]; the last two alternatives are the
    degree sign U+00B0 and the capital delta U+0394. *)
Definition CHORD_LIKE_RE : RegExp :=
  {| source := "/^[A-G](?:#|b)?(?:m|maj|min|dim|aug|sus|add|\d|\/|[A-G]|#|b|\+|\-|°|Δ)*$/i";
     body := rseq [ RBol;
                    rrange 65 71;
                    ROpt (RAlt (rchar "#") (rchar "b"));
                    RStar (ralt [ rword "m"; rword "maj"; rword "min"; rword "dim";
                                  rword "aug"; rword "sus"; rword "add"; rdigit;
                                  rchar "/"; rrange 65 71; rchar "#"; rchar "b";
                                  rchar "+"; rchar "-"; rch 176; rch 916 ]);
                    REol ];
     ignoreCase := true |}.

Definition isChordLike (s : str) : bool := test CHORD_LIKE_RE s.

Definition WS_SPLIT_RE : RegExp :=
  {| source := "/(\s+)/";
     body := RGroup 1 (rplus rspace); ignoreCase := false |}.

Definition WS_ONLY_RE : RegExp :=
  {| source := "/^\s+$/";
     body := rseq [RBol; rplus rspace; REol]; ignoreCase := false |}.

(** The class of comma, pipe, parentheses and square brackets. *)
Definition punct : list (cu * cu) :=
  [ (44, 44); (124, 124); (40, 40); (41, 41); (91, 91); (93, 93) ].

Definition PUNCT_RE : RegExp :=
  {| source := "/[,\|\(\)\[\]]/";
     body := rclass punct; ignoreCase := false |}.

Definition PUNCT_SPLIT_RE : RegExp :=
  {| source := "/([,\|\(\)\[\]])/";
     body := RGroup 1 (rclass punct); ignoreCase := false |}.

Definition maybeTransposeToken (tok : str) (steps : Z) (preferSharps : bool) : str :=
  if match tok with [] => true | _ => false end || test WS_ONLY_RE tok then tok
  else if test PUNCT_RE tok && negb (includes (lit "/") tok) then
    join (map (fun piece =>
                 if isChordLike piece
                 then transposeChordSymbol piece steps preferSharps
                 else piece)
              (split PUNCT_SPLIT_RE tok))
  else if isChordLike tok then transposeChordSymbol tok steps preferSharps
  else tok.

Definition transposeChordText (input : str) (steps : Z) (preferSharps : bool) : str :=
  let tokens := split WS_SPLIT_RE input in
  join (map (fun tok => maybeTransposeToken tok steps preferSharps) tokens).

(** The property names an object literal inherits from
    [Object.prototype]: a lookup of one of them finds a function, and
    for "__proto__" the prototype itself, where the object has no key
    of its own by that name. *)
Definition inheritedNames : list str :=
  map lit ["constructor"; "hasOwnProperty"; "isPrototypeOf";
           "propertyIsEnumerable"; "toLocaleString"; "toString"; "valueOf";
           "__proto__"; "__defineGetter__"; "__defineSetter__";
           "__lookupGetter__"; "__lookupSetter__"]%string.

(** What [ENHARMONIC_MAP[key]] is for any string: the number of an own
    key, something inherited that is no number, or [undefined]. *)
Inductive Looked : Type :=
| Num (n : Z)
| Inherited
| Undefined.

Definition get (key : str) : Looked :=
  match lookup key ENHARMONIC_MAP with
  | Some n => Num n
  | None => if has inheritedNames key then Inherited else Undefined
  end.

(** [a ?? b]: [b] for [undefined] only. *)
Definition orElse (a b : Looked) : Looked :=
  match a with Undefined => b | _ => a end.

(** The difference is [NaN], here [None], when one of the two is no
    number, as a function or an object is [NaN] for a subtraction.
    The fallback key "C" is in the map, so neither is [undefined]. *)
Definition stepsFromKeys (fromKey toKey : str) : option Z :=
  let key k := match normNote k with Some n => n | None => lit "C" end in
  match orElse (get fromKey) (get (key fromKey)),
        orElse (get toKey) (get (key toKey)) with
  | Num from, Num to => Some (to - from)
  | _, _ => None
  end.

End Transpose.

(* ================================================================== *)
(** * lib/capo.ts                                                      *)
(* ================================================================== *)

Module Capo.
Import JS Transpose.

Local Open Scope Q_scope.

Definition OPEN_SHAPE_KEYS : list str := map lit ["C";"G";"D";"A";"E"]%string.

Definition shapesKeyFor (targetKey : str) (capoFret : Z) : str :=
  let preferSharps := preferSharpsForKey targetKey in
  transposeNote targetKey (- capoFret) preferSharps.

Record CapoSuggestion := {
  capoFret : Z;
  shapesKey : str;
  reason : str;
  score : Q
}.

(** [Array.prototype.indexOf]: -1 when the element is absent. *)
Fixpoint arrayIndexFrom (i : Z) (a : list str) (x : str) : Z :=
  match a with
  | [] => (-1)%Z
  | y :: a' => if str_eqb y x then i else arrayIndexFrom (i + 1)%Z a' x
  end.

Definition arrayIndexOf (a : list str) (x : str) : Z := arrayIndexFrom 0%Z a x.

Definition biasOrder : list str := map lit ["G";"C";"D";"A";"E"]%string.

Definition scoreCapo (shapesKey : str) (capoFret : Z) : Q :=
  let score := 0 in
  let score := if has OPEN_SHAPE_KEYS shapesKey then score + 100 else score in
  let score :=
    if (capoFret <=? 5)%Z then score + inject_Z (20 - capoFret * 2)
    else score + inject_Z (Z.max 0 (10 - (capoFret - 5) * 3)) in
  let bias :=
    inject_Z (Z.max 0 (5 - Z.max 0 (arrayIndexOf biasOrder shapesKey))) * (1 # 2) in
  score + bias.

(** The first reason holds an em dash, U+2014. *)
Definition reasonFor (shapesKey : str) (capoFret : Z) : str :=
  if (capoFret =? 0)%Z && has OPEN_SHAPE_KEYS shapesKey then
    lit "No capo needed " ++ [8212%Z] ++ lit " classic open " ++ shapesKey ++ lit " shapes"
  else if has OPEN_SHAPE_KEYS shapesKey then
    lit "Open " ++ shapesKey ++ lit " shapes (easy chord grips)"
  else if (capoFret <=? 2)%Z then lit "Low capo, comfortable reach"
  else lit "Usable option".

(** The frets the loop visits, in order. *)
Definition frets : list Z := map Z.of_nat (seq 0 12).

Definition suggestionAt (targetKey : str) (fret : Z) : CapoSuggestion :=
  let shapesKey := shapesKeyFor targetKey fret in
  let score := scoreCapo shapesKey fret in
  {| capoFret := fret; shapesKey := shapesKey; score := score;
     reason := reasonFor shapesKey fret |}.

Definition suggestCaposForTargetKey (targetKey : str) : list CapoSuggestion :=
  let suggestions := map (suggestionAt targetKey) frets in
  let suggestions := sort (fun a b => score b - score a) suggestions in
  firstn 5 suggestions.

End Capo.

(* ================================================================== *)
(** * lib/chords.ts                                                    *)
(* ================================================================== *)

Module Chords.
Import JS.

(** What a call returns: a value, or the [Error] it throws. *)
Inductive result (A : Type) :=
| Ok (a : A)
| Throw (message : str).
Arguments Ok {A} a.
Arguments Throw {A} message.

Definition bind {A B : Type} (r : result A) (f : A -> result B) : result B :=
  match r with
  | Ok a => f a
  | Throw m => Throw m
  end.

Record Barre := { fromString : Z; toString : Z; fret : Z }.

(** The quality names of [Shape] and, with [majLike], of [coarseQuality]. *)
Inductive Quality := maj | min | dom7 | maj7 | m7 | sus4 | add9 | majLike.

Inductive Family := open | barre_e | barre_a | alt.

Record Shape := {
  name : str;
  shortName : option str;
  positions : list Z;
  baseFret : Z;
  barres : option (list Barre);
  quality : option Quality;
  family : option Family
}.

Definition openShape (n short : string) (ps : list Z) (q : Quality) : Shape :=
  {| name := lit n; shortName := Some (lit short); positions := ps; baseFret := 1;
     barres := None; quality := Some q; family := Some open |}.

Definition OPEN_SHAPES : list (str * Shape) :=
  [ (lit "C", openShape "C" "C" [-1; 3; 2; 0; 1; 0] maj);
    (lit "D", openShape "D" "D" [-1; -1; 0; 2; 3; 2] maj);
    (lit "E", openShape "E" "E" [0; 2; 2; 1; 0; 0] maj);
    (lit "G", openShape "G" "G" [3; 2; 0; 0; 0; 3] maj);
    (lit "A", openShape "A" "A" [-1; 0; 2; 2; 2; 0] maj);
    (lit "F", openShape "F (lite)" "F" [-1; -1; 3; 2; 1; 1] maj);
    (lit "Cmaj7", openShape "Cmaj7" "Cmaj7" [-1; 3; 2; 0; 0; 0] maj7);
    (lit "Amaj7", openShape "Amaj7" "Amaj7" [-1; 0; 2; 1; 2; 0] maj7);
    (lit "Dmaj7", openShape "Dmaj7" "Dmaj7" [-1; -1; 0; 2; 2; 2] maj7);
    (lit "Fmaj7", openShape "Fmaj7" "Fmaj7" [-1; -1; 3; 2; 1; 0] maj7);
    (lit "Am", openShape "Am" "Am" [-1; 0; 2; 2; 1; 0] min);
    (lit "Dm", openShape "Dm" "Dm" [-1; -1; 0; 2; 3; 1] min);
    (lit "Em", openShape "Em" "Em" [0; 2; 2; 0; 0; 0] min);
    (lit "Am7", openShape "Am7" "Am7" [-1; 0; 2; 0; 1; 0] m7);
    (lit "Em7", openShape "Em7" "Em7" [0; 2; 2; 0; 3; 0] m7);
    (lit "C7", openShape "C7" "C7" [-1; 3; 2; 3; 1; 0] dom7);
    (lit "D7", openShape "D7" "D7" [-1; -1; 0; 2; 1; 2] dom7);
    (lit "E7", openShape "E7" "E7" [0; 2; 0; 1; 0; 0] dom7);
    (lit "G7", openShape "G7" "G7" [3; 2; 0; 0; 0; 1] dom7);
    (lit "A7", openShape "A7" "A7" [-1; 0; 2; 0; 2; 0] dom7);
    (lit "Asus4", openShape "Asus4" "Asus4" [-1; 0; 2; 2; 3; 0] sus4);
    (lit "Dsus4", openShape "Dsus4" "Dsus4" [-1; -1; 0; 2; 3; 3] sus4);
    (lit "Cadd9", openShape "Cadd9" "Cadd9" [-1; 3; 2; 0; 3; 3] add9);
    (lit "Gadd9", openShape "Gadd9" "Gadd9" [3; 2; 0; 0; 3; 0] add9) ].

Definition NOTE_ORDER_SHARPS : list str :=
  map lit ["C";"C#";"D";"D#";"E";"F";"F#";"G";"G#";"A";"A#";"B"]%string.

Abbreviation NoteName := (list Z) (only parsing).

Definition enh : list (str * NoteName) :=
  [ (lit "B#", lit "C"); (lit "Cb", lit "B");
    (lit "E#", lit "F"); (lit "Fb", lit "E");
    (lit "Db", lit "C#"); (lit "Eb", lit "D#"); (lit "Gb", lit "F#");
    (lit "Ab", lit "G#"); (lit "Bb", lit "A#") ].

Definition toSharp (note : str) : result NoteName :=
  let n := replace [9837] (lit "b") (replace [9839] (lit "#") note) in
  let sharped := match Transpose.lookup n enh with Some v => v | None => n end in
  if negb (Transpose.has NOTE_ORDER_SHARPS sharped)
  then Throw (lit "Bad note: " ++ note)
  else Ok sharped.

Definition semitoneDistance (openNote target : NoteName) : Z :=
  let a := Capo.arrayIndexOf NOTE_ORDER_SHARPS openNote in
  let b := Capo.arrayIndexOf NOTE_ORDER_SHARPS target in
  rem (b - a + 12) 12.

Definition chooseComfortableBaseFret (f : Z) : Z :=
  if f =? 0 then 12
  else if (1 <=? f) && (f <=? 5) then f
  else if (6 <=? f) && (f <=? 9) then f
  else Z.max 1 (Z.min 12 f).

Definition baseFretFor_Eshape (root : NoteName) : Z :=
  let f := semitoneDistance (lit "E") root in
  chooseComfortableBaseFret f.

Definition baseFretFor_Ashape (root : NoteName) : Z :=
  let f := semitoneDistance (lit "A") root in
  chooseComfortableBaseFret f.

Record Template := { tpositions : list Z; tbarre : Barre; tfamily : Family }.

Definition tplE_major : Template :=
  {| tpositions := [1; 3; 3; 2; 1; 1];
     tbarre := {| fromString := 0; toString := 5; fret := 1 |}; tfamily := barre_e |}.
Definition tplE_minor : Template :=
  {| tpositions := [1; 3; 3; 1; 1; 1];
     tbarre := {| fromString := 0; toString := 5; fret := 1 |}; tfamily := barre_e |}.
Definition tplE_7 : Template :=
  {| tpositions := [1; 3; 1; 2; 1; 1];
     tbarre := {| fromString := 0; toString := 5; fret := 1 |}; tfamily := barre_e |}.
Definition tplA_major : Template :=
  {| tpositions := [-1; 1; 3; 3; 3; 1];
     tbarre := {| fromString := 1; toString := 5; fret := 1 |}; tfamily := barre_a |}.
Definition tplA_minor : Template :=
  {| tpositions := [-1; 1; 3; 3; 2; 1];
     tbarre := {| fromString := 1; toString := 5; fret := 1 |}; tfamily := barre_a |}.
Definition tplA_7 : Template :=
  {| tpositions := [-1; 1; 3; 1; 3; 1];
     tbarre := {| fromString := 1; toString := 5; fret := 1 |}; tfamily := barre_a |}.

Inductive System := sysE | sysA.

Definition systemStr (s : System) : str :=
  match s with sysE => lit "E" | sysA => lit "A" end.

(** The suffix both names of a barre voicing print after the root. *)
Definition qualitySuffix (q : Quality) : str :=
  match q with
  | min => lit "m"
  | dom7 => lit "7"
  | _ => []
  end.

(** [quality] is one of [maj], [min] and [dom7]. *)
Definition makeBarre (root : NoteName) (q : Quality) (system : System) (baseFret : Z)
  : Shape :=
  let tpl :=
    match system with
    | sysE => match q with maj => tplE_major | min => tplE_minor | _ => tplE_7 end
    | sysA => match q with maj => tplA_major | min => tplA_minor | _ => tplA_7 end
    end in
  let family := tfamily tpl in
  let barres := [ tbarre tpl ] in
  let positions := tpositions tpl in
  let name := root ++ qualitySuffix q ++ lit " (" ++ systemStr system
              ++ lit "-shape barre @" ++ numToStr baseFret ++ lit ")" in
  {| name := name;
     shortName := Some (root ++ qualitySuffix q);
     positions := positions;
     baseFret := baseFret;
     barres := Some barres;
     quality := Some q;
     family := Some family |}.

Definition pushIf (c : bool) (x : Shape) (l : list Shape) : list Shape :=
  if c then l ++ [x] else l.

Definition generateBarresFor (root : NoteName) (q : Quality) : list Shape :=
  let list := [] in
  let eBase := baseFretFor_Eshape root in
  let list := pushIf ((1 <=? eBase) && (eBase <=? 12)) (makeBarre root q sysE eBase) list in
  let eAlt := eBase + 12 in
  let list := pushIf ((13 <=? eAlt) && (eAlt <=? 17)) (makeBarre root q sysE eAlt) list in
  let aBase := baseFretFor_Ashape root in
  let list := pushIf ((1 <=? aBase) && (aBase <=? 12)) (makeBarre root q sysA aBase) list in
  let aAlt := aBase + 12 in
  let list := pushIf ((13 <=? aAlt) && (aAlt <=? 17)) (makeBarre root q sysA aAlt) list in
  sort (fun x y => inject_Z (baseFret x - baseFret y)) list.

Definition normalizeEnharmonic (root : str) : result NoteName := toSharp root.

Definition PARSE_RE : RegExp :=
  {| source := "/^([A-G](?:#|b)?)(.*)$/i";
     body := rseq [ RBol;
                    RGroup 1 (RSeq (rrange 65 71) (ROpt (RAlt (rchar "#") (rchar "b"))));
                    RGroup 2 (RStar rdot);
                    REol ];
     ignoreCase := true |}.

Record Parsed := { root : NoteName; tail : str }.

Definition parseChordSymbol (symbol : str) : result (option Parsed) :=
  match exec PARSE_RE symbol with
  | None => Ok None
  | Some (_, m) =>
      let m1 := match group 1 (caps m) with Some r => r | None => undefinedStr end in
      let m2 := match group 2 (caps m) with Some t => t | None => [] end in
      bind (normalizeEnharmonic m1) (fun root =>
      let tail := toLowerCase m2 in
      Ok (Some {| root := root; tail := tail |}))
  end.

Definition MINOR_RE : RegExp :=
  {| source := "/\bm(?!aj)/";
     body := rseq [ RWordB; rchar "m"; RNotAhead (rword "aj") ];
     ignoreCase := false |}.

Definition coarseQuality (tail : str) : Quality :=
  if includes (lit "maj7") tail then maj7
  else if test MINOR_RE tail && includes (lit "7") tail then m7
  else if test MINOR_RE tail then min
  else if includes (lit "7") tail then dom7
  else if includes (lit "sus4") tail then sus4
  else if includes (lit "add9") tail then add9
  else majLike.

(** The key under which a quality is looked up in [OPEN_SHAPES]. *)
Definition openKeyFor (root : NoteName) (q : Quality) : str :=
  match q with
  | min => root ++ lit "m"
  | dom7 => root ++ lit "7"
  | maj7 => root ++ lit "maj7"
  | m7 => root ++ lit "m7"
  | sus4 => root ++ lit "sus4"
  | add9 => root ++ lit "add9"
  | _ => root
  end.

(** A family in a template literal. *)
Definition familyStr (f : option Family) : str :=
  match f with
  | Some open => lit "open"
  | Some barre_e => lit "barre-e"
  | Some barre_a => lit "barre-a"
  | Some alt => lit "alt"
  | None => undefinedStr
  end.

Definition isOpen (f : option Family) : bool :=
  match f with Some open => true | _ => false end.

Definition dedupeKey (v : Shape) : str :=
  familyStr (family v) ++ lit "|" ++ numToStr (baseFret v) ++ lit "|" ++ name v.

(** [voicings.filter] with the [seen] set it fills. *)
Fixpoint dedupe (seen : list str) (l : list Shape) : list Shape :=
  match l with
  | [] => []
  | v :: l' =>
      let key := dedupeKey v in
      if Transpose.has seen key then dedupe seen l'
      else v :: dedupe (key :: seen) l'
  end.

Definition voicingOrder (a b : Shape) : Q :=
  if isOpen (family a) && negb (isOpen (family b)) then inject_Z (-1)
  else if isOpen (family b) && negb (isOpen (family a)) then inject_Z 1
  else inject_Z (baseFret a - baseFret b).

Definition findVoicingsFor (symbol : str) : result (list Shape) :=
  bind (parseChordSymbol symbol) (fun parsed =>
  match parsed with
  | None => Ok []
  | Some p =>
      let root := root p in
      let tail := tail p in
      let quality := coarseQuality tail in
      let openKey := openKeyFor root quality in
      let voicings :=
        match Transpose.lookup openKey OPEN_SHAPES with
        | Some s => [s]
        | None =>
            match Transpose.lookup root OPEN_SHAPES with
            | Some s => [s]
            | None => []
            end
        end in
      let voicings :=
        match quality with
        | min | dom7 | majLike =>
            voicings ++ generateBarresFor root
              (match quality with min => min | dom7 => dom7 | _ => maj end)
        | _ =>
            let fallback := match quality with m7 => min | _ => maj end in
            voicings ++ generateBarresFor root fallback
        end in
      let unique := dedupe [] voicings in
      Ok (sort voicingOrder unique)
  end).

Definition mapSymbolToOpenKey (symbol : str) : result (option str) :=
  bind (parseChordSymbol symbol) (fun parsed =>
  match parsed with
  | None => Ok None
  | Some p =>
      let qual := coarseQuality (tail p) in
      let key := openKeyFor (root p) qual in
      match Transpose.lookup key OPEN_SHAPES with
      | Some _ => Ok (Some key)
      | None => Ok None
      end
  end).

End Chords.

(* ================================================================== *)
(** * Notions the statements use                                       *)
(* ================================================================== *)

Module Spec.
Import JS Transpose.

(** [st1] is [st] after [n] more code units of the input. *)
Definition extends (st st1 : mstate) : Prop :=
  exists n, (n <= List.length (rest st))%nat /\
            pos st1 = (pos st + n)%nat /\
            rest st1 = skipn n (rest st).

(** [st] after the word [w], with [tl] left to read. *)
Definition moved (st : mstate) (w tl : str) : mstate :=
  {| pos := (pos st + List.length w)%nat; rest := tl; caps := caps st |}.

(** Patterns without groups, anchors and look-ahead: those whose
    matches are given by a language alone. *)
Fixpoint pure (r : regex) : bool :=
  match r with
  | REmpty | RSet _ => true
  | RSeq a b | RAlt a b => pure a && pure b
  | RStar a | ROpt a => pure a
  | _ => false
  end.

Inductive StarOf (P : str -> Prop) : str -> Prop :=
| star_nil : StarOf P []
| star_cons u v : P u -> u <> [] -> StarOf P v -> StarOf P (u ++ v).

(** The language of a pure pattern. *)
Fixpoint Lang (ic : bool) (r : regex) (w : str) : Prop :=
  match r with
  | REmpty => w = []
  | RSet c => exists ch, w = [ch] /\ cmatch ic c ch = true
  | RSeq a b => exists u v, w = u ++ v /\ Lang ic a u /\ Lang ic b v
  | RAlt a b => Lang ic a w \/ Lang ic b w
  | RStar a => StarOf (Lang ic a) w
  | ROpt a => w = [] \/ Lang ic a w
  | _ => False
  end.

(** A pattern whose single group spans its whole match: [split] then
    splices the matched text itself between the parts. *)
Definition whole_capture (re : RegExp) : Prop :=
  forall inp q rst st, matchAt re inp q rst = Some st ->
    exists n, (n <= List.length rst)%nat /\
              pos st = (q + n)%nat /\
              captures re st = [firstn n rst].

(** What [maybeTransposeToken] makes of a span it has isolated. *)
Definition image (steps : Z) (preferSharps : bool) (span : str) : str :=
  if isChordLike span then transposeChordSymbol span steps preferSharps else span.

(** The spans [maybeTransposeToken] isolates in a token. *)
Definition pieces (tok : str) : list str :=
  if test PUNCT_RE tok && negb (includes (lit "/") tok)
  then split PUNCT_SPLIT_RE tok
  else [tok].

(** The spans [transposeChordText] works on, in order. *)
Definition spans (t : str) : list str := flat_map pieces (split WS_SPLIT_RE t).

Definition isPunct (c : cu) : bool := in_ranges punct c.

(** The members of a class, up to the canonical form. *)
Definition found (ic : bool) (rs : list (cu * cu)) (ch : cu) : Prop :=
  exists a, in_ranges rs a = true /\ canonicalize ic a = canonicalize ic ch.

(** ** What [isChordLike] accepts, in elementary terms

    A letter of the pattern stands for itself and, as the pattern is
    case-insensitive, for its other case; the capital delta stands for
    the small delta as well. *)
Definition rootLetter (c : cu) : Prop := 65 <= c <= 71 \/ 97 <= c <= 103.

Definition accidental (c : cu) : Prop := c = 35 \/ c = 98 \/ c = 66.

Definition eqCI (a b : cu) : Prop :=
  b = a \/ (97 <= a <= 122 /\ b = a - 32) \/ (a = 916 /\ b = 948).

(** The code units a literal of the pattern may hold. *)
Definition literalChar (x : Z) : Prop :=
  x < 65 \/ 97 <= x <= 122 \/ x = 176 \/ x = 916.

(** The alternatives of the pattern that are literal text. *)
Definition chordWords : list str :=
  map lit ["m"; "maj"; "min"; "dim"; "aug"; "sus"; "add";
           "/"; "#"; "b"; "+"; "-"]%string ++ [[176]; [916]].

(** One item of the permitted set: a literal, a digit or a root letter. *)
Definition Item (u : str) : Prop :=
  (exists w, In w chordWords /\ Forall2 eqCI w u)
  \/ (exists d, u = [d] /\ 48 <= d <= 57)
  \/ (exists c, u = [c] /\ rootLetter c).

(** A root letter, an optional accidental, then items. *)
Definition looksLikeChordSpec (s : str) : Prop :=
  exists L acc items,
    s = L :: acc ++ items /\ rootLetter L /\
    (acc = [] \/ exists a, acc = [a] /\ accidental a) /\
    StarOf Item items.

(** The reading of the root letter that an upper-case check would give. *)
Definition startsWithUpperRoot (s : str) : Prop :=
  exists L tl, s = L :: tl /\ 65 <= L <= 71.

(** The body of [CHORD_LIKE_RE] between its anchors. *)
Definition chordLikeItems : regex :=
  ralt [ rword "m"; rword "maj"; rword "min"; rword "dim";
         rword "aug"; rword "sus"; rword "add"; rdigit;
         rchar "/"; rrange 65 71; rchar "#"; rchar "b";
         rchar "+"; rchar "-"; rch 176; rch 916 ].

Definition chordLikeBody : regex :=
  RSeq (rrange 65 71)
       (RSeq (ROpt (RAlt (rchar "#") (rchar "b"))) (RStar chordLikeItems)).

(** A pattern of the form [^X$]. *)
Definition anchored (re : RegExp) (X : regex) : Prop :=
  forall inp st k,
    rmatch (ignoreCase re) inp (body re) st k
    = rmatch (ignoreCase re) inp (RSeq RBol (RSeq X REol)) st k.

(** ** Roots and pitch classes *)
Definition isRootLetterb (c : Z) : bool :=
  ((65 <=? c) && (c <=? 71)) || ((97 <=? c) && (c <=? 103)).

Definition isAccidentalb (c : Z) : bool := (c =? 35) || (c =? 98) || (c =? 66).

Definition tailChar (c : Z) : bool := negb ((c =? 47) || isSpace c).

(** The root and the tail of a symbol: a root letter, one accidental if it
    is there, and a tail of code units that [tc] admits. *)
Definition parseWith (tc : Z -> bool) (s : list Z) : option (list Z * list Z) :=
  match s with
  | [] => None
  | L :: s' =>
      if isRootLetterb L then
        match s' with
        | a :: tl =>
            if isAccidentalb a
            then if forallb tc tl then Some ([L; a], tl) else None
            else if forallb tc s' then Some ([L], s') else None
        | [] => Some ([L], [])
        end
      else None
  end.

(** The root and the tail [CHORD_RE] finds in a symbol. *)
Definition parseRoot (s : list Z) : option (list Z * list Z) := parseWith tailChar s.

(** The root and the tail the pattern of [parseChordSymbol] finds: its
    tail stops at no code unit but a line terminator. *)
Definition notLineTerminator (c : Z) : bool := negb (in_ranges lineTerminator c).

Definition parseHead (s : list Z) : option (list Z * list Z) :=
  parseWith notLineTerminator s.

(** The roots [toSharp] knows: an upper-case letter, alone or with "#"
    or "b". *)
Definition rootIsCanonical (r : list Z) : bool :=
  match r with
  | [L] => (65 <=? L) && (L <=? 71)
  | [L; a] => (65 <=? L) && (L <=? 71) && ((a =? 35) || (a =? 98))
  | _ => false
  end.

(** The pattern [^(root)(tail star)$], case-insensitive, for a tail that
    is the complement of a class. *)
Definition rootTailBody (rs : list (Z * Z)) : regex :=
  RSeq (RGroup 1 (RSeq (rrange 65 71) (ROpt (RAlt (rchar "#") (rchar "b")))))
       (RGroup 2 (RStar (rnclass rs))).

(** The match [exec] reports for a root and a tail. *)
Definition rootMatch (s : list Z) (rt : list Z * list Z) : nat * mstate :=
  (0%nat, {| pos := List.length s; rest := []; caps := [(2%nat, snd rt); (1%nat, fst rt)] |}).

(** The pitch class of a raw note: [indexOf] after [normNote]. *)
Definition pitchClassOf (raw : list Z) : option Z :=
  match normNote raw with
  | Some note => indexOf note
  | None => None
  end.

(** The spelling of a pitch class under a preference. *)
Definition spell (pc : Z) (preferSharps : bool) : list Z :=
  nth (Z.to_nat pc) (if preferSharps then SHARPS else FLATS) undefinedStr.

(** The index [transposeNote] moves an index to. *)
Definition movedIndex (idx steps : Z) : Z := add idx steps mod 12.

(** The steps whose sum with an index from 0 to 11 is exact, on the way
    there and, as [- steps], on the way back. *)
Definition exactSteps (steps : Z) : Prop := Z.abs steps <= 2 ^ 53 - 11.

(** The pitch class of the root [CHORD_RE] finds in a symbol. *)
Definition rootPitchClass (symbol : list Z) : option Z :=
  match exec CHORD_RE symbol with
  | Some (_, m) =>
      match group 1 (caps m) with
      | Some r => pitchClassOf r
      | None => None
      end
  | None => None
  end.

(** The tail [CHORD_RE] finds begins with "#", "b" or "B". *)
Definition tailStartsWithAccidental (symbol : list Z) : bool :=
  match exec CHORD_RE symbol with
  | Some (_, m) =>
      match group 2 (caps m) with
      | Some (a :: _) => isAccidentalb a
      | _ => false
      end
  | None => false
  end.

(** Splitting at one code unit, with the part read so far. *)
Fixpoint splitOn (c : Z) (cur : list Z) (s : list Z) : list (list Z) :=
  match s with
  | [] => [cur]
  | a :: tl => if c =? a then cur :: splitOn c [] tl else splitOn c (cur ++ [a]) tl
  end.

(** The roots a chord symbol can have: a letter in either case, alone
    or with one of "#", "b", "B". *)
Definition allRoots : list (list Z) :=
  flat_map (fun L => [L] :: map (fun a => [L; a]) [35; 98; 66])
           (map Z.of_nat (seq 65 7) ++ map Z.of_nat (seq 97 7)).

(** Splitting at every punctuation mark, each mark a part of its own. *)
Fixpoint splitAtPunct (cur : list Z) (s : list Z) : list (list Z) :=
  match s with
  | [] => [cur]
  | c :: tl =>
      if isPunct c then cur :: [c] :: splitAtPunct [] tl
      else splitAtPunct (cur ++ [c]) tl
  end.

(** The parts of [splitAtPunct]: every mark is a part of its own, and the
    other parts hold no mark. *)
Inductive Parts : list (list Z) -> Prop :=
| parts_last run : existsb isPunct run = false -> Parts [run]
| parts_mark run c more :
    existsb isPunct run = false -> isPunct c = true -> Parts more ->
    Parts (run :: [c] :: more).

(** ** Tokens, parts and the roots of a text *)

(** An item is made of code units that are neither whitespace, nor
    punctuation. *)
Definition itemChar (c : Z) : Prop :=
  c = 35 \/ c = 43 \/ c = 45 \/ c = 47 \/ 48 <= c <= 57 \/ 65 <= c <= 90
  \/ 97 <= c <= 122 \/ c = 176 \/ c = 916 \/ c = 948.

Definition wsFree (s : list Z) : Prop := Forall (fun c => isSpace c = false) s.
Definition allWs (s : list Z) : Prop := Forall (fun c => isSpace c = true) s.

(** The shape of a whitespace-preserving split: parts without
    whitespace alternate with runs of whitespace; a part between two
    runs is not empty.  The flag says whether the list starts the text. *)
Inductive Tokens : bool -> list (list Z) -> Prop :=
| tokens_last first n : wsFree n -> Tokens first [n]
| tokens_more first n w l :
    wsFree n -> (first = true \/ n <> []) -> w <> [] -> allWs w ->
    Tokens false l -> Tokens first (n :: w :: l).

(** The whitespace-preserving split, written out: [cur] is the part or
    the run being read. *)
Fixpoint wsTokens (inWs : bool) (cur : list Z) (s : list Z) : list (list Z) :=
  match s with
  | [] => if inWs then [cur; []] else [cur]
  | c :: tl =>
      if isSpace c then
        if inWs then wsTokens true (cur ++ [c]) tl
        else cur :: wsTokens true [c] tl
      else
        if inWs then cur :: wsTokens false [c] tl
        else wsTokens false (cur ++ [c]) tl
  end.

(** A chord-like symbol whose tail does not begin with an accidental. *)
Definition plainSafe (symbol : list Z) : bool :=
  isChordLike symbol && negb (tailStartsWithAccidental symbol).

(** The chord symbols that a second transposition reads as the first
    one wrote them: without "/", a tail that begins with none of "#",
    "b" and "B"; with "/", two chord-like parts with such tails. *)
Definition safeSymbol (symbol : list Z) : bool :=
  if includes (lit "/") symbol then
    match splitStr (lit "/") symbol with
    | top :: bass :: _ => plainSafe top && plainSafe bass
    | _ => false
    end
  else negb (tailStartsWithAccidental symbol).

Definition safeSpan (span : list Z) : bool :=
  if isChordLike span then safeSymbol span else true.

Definition safeText (t : list Z) : bool := forallb safeSpan (spans t).

(** The pitch classes of the roots [transposeChordSymbol] transposes in
    a symbol: of the symbol, or of its two parts around "/". *)
Definition rootsOfSymbol (symbol : list Z) : list (option Z) :=
  if includes (lit "/") symbol then
    match splitStr (lit "/") symbol with
    | top :: bass :: _ => [rootPitchClass top; rootPitchClass bass]
    | _ => []
    end
  else [rootPitchClass symbol].

(** What a span is to a reader of chords: no chord token, or a chord
    token with the pitch classes of its roots. *)
Definition classOf (span : list Z) : option (list (option Z)) :=
  if isChordLike span then Some (rootsOfSymbol span) else None.

(** The roots of a text, place by place. *)
Definition rootsAt (t : list Z) : list (option (list (option Z))) :=
  map classOf (spans t).

(** "#" and "b", which move the pitch class of the letter before them. *)
Definition isSharpOrFlat (c : Z) : bool := (c =? 35) || (c =? 98).

(** The pitch classes that are spelled with a letter alone. *)
Definition isNatural (j : Z) : bool := existsb (Z.eqb j) [0; 2; 4; 5; 7; 9; 11].

Definition startsWith (f : Z -> bool) (t : list Z) : bool :=
  match t with a :: _ => f a | [] => false end.

(** The tails that a root of pitch class [idx] keeps apart from on a
    round trip.  A root that is spelled with a letter alone takes a
    "#", "b" or "B" behind it for its accidental.  So a tail that begins
    with "B" is steady unless the pitch class is a natural one and "#"
    or "b" follows the "B"; a tail that begins with "#" or "b" is steady
    only when the pitch class is not a natural one and the other of the
    two follows; every other tail is steady. *)
Definition steadyTail (idx : Z) (t : list Z) : bool :=
  match t with
  | [] => true
  | c :: t' =>
      if c =? 66 then negb (isNatural idx && startsWith isSharpOrFlat t')
      else if c =? 35 then negb (isNatural idx) && startsWith (Z.eqb 98) t'
      else if c =? 98 then negb (isNatural idx) && startsWith (Z.eqb 35) t'
      else true
  end.

(** A symbol without "/" in which [CHORD_RE] finds no root, or a root
    with a steady tail. *)
Definition steadyPart (part : list Z) : bool :=
  match exec CHORD_RE part with
  | Some (_, m) =>
      match group 1 (caps m), group 2 (caps m) with
      | Some r, Some t =>
          match pitchClassOf r with
          | Some idx => steadyTail idx t
          | None => true
          end
      | _, _ => true
      end
  | None => true
  end.

(** The chord symbols that a round trip reads as it read them before:
    without "/", a steady tail; with "/", a steady tail in the part
    before the first "/", and a second part that has no root or is
    chord-like with a steady tail. *)
Definition steadySymbol (symbol : list Z) : bool :=
  if includes (lit "/") symbol then
    match splitStr (lit "/") symbol with
    | top :: bass :: _ =>
        steadyPart top
        && match exec CHORD_RE bass with
           | Some _ => isChordLike bass && steadyPart bass
           | None => true
           end
    | _ => false
    end
  else steadyPart symbol.

Definition steadySpan (span : list Z) : bool :=
  if isChordLike span then steadySymbol span else true.

Definition steadyText (t : list Z) : bool := forallb steadySpan (spans t).

(** What a spelling of the pitch class [j] in front of the tail [t] is
    read as: the pitch class of the root and the tail.  "#" raises the
    natural before it, "b" lowers it, and "B" goes into the root without
    a change, as [normNote] knows "#" and "b" only. *)
Definition shift (c : Z) : Z := if c =? 35 then 1 else if c =? 98 then -1 else 0.

Definition readBack (j : Z) (t : list Z) : Z * list Z :=
  match t with
  | a :: t' =>
      if isNatural j && isAccidentalb a then ((j + shift a) mod 12, t') else (j, t)
  | [] => (j, [])
  end.

(** The pitch class a round trip finds for a root of pitch class [idx]
    before the tail [t]. *)
Definition tripRoot (idx s : Z) (t : list Z) : Z :=
  let back := readBack (movedIndex idx s) t in
  fst (readBack (movedIndex (fst back) (- s)) (snd back)).

(** Two numbers of steps that move every index alike. *)
Definition sameMoves (s s' : Z) : Prop :=
  forall idx, 0 <= idx <= 11 -> movedIndex idx s = movedIndex idx s'.

(** ** The capo score *)

(** The three terms of the capo score. *)
Definition easyBonus (k : list Z) : Q :=
  if has Capo.OPEN_SHAPE_KEYS k then 100%Q else 0%Q.

Definition comfort (fret : Z) : Q :=
  if fret <=? 5 then inject_Z (20 - 2 * fret)
  else inject_Z (Z.max 0 (10 - 3 * (fret - 5))).

Definition bias (k : list Z) : Q :=
  (inject_Z (Z.max 0 (5 - Z.max 0 (Capo.arrayIndexOf Capo.biasOrder k))) * (1 # 2))%Q.


End Spec.

(* ================================================================== *)
(** * More built-ins: global [replace], [repeat], [btoa], [Set]        *)
(* ================================================================== *)

Module JSMore.
Import JS.

(** [s.replace(re, rep)] for a pattern with the [g] flag and a
    replacement without [$].  ECMA-262 collects the matches from
    [lastIndex = 0] on: [exec] scans forward from [lastIndex] for the
    first index with a match; a match from [q] to [e] leaves
    [lastIndex = e], or [q + 1] when it is empty.  The result is the
    input with every match replaced.  Here [rst] is the input from [q];
    after a match of length [e - q] the next [skip] code units are
    dropped, which reaches [q = e].  At the end of the input an empty
    match is still tried. *)
Fixpoint replaceLoop (re : RegExp) (rep inp : str) (q skip : nat) (rst : str)
  {struct rst} : str :=
  match rst with
  | [] =>
      match skip with
      | O => match matchAt re inp q [] with Some _ => rep | None => [] end
      | S _ => []
      end
  | c :: tl =>
      match skip with
      | S n => replaceLoop re rep inp (S q) n tl
      | O =>
          match matchAt re inp q rst with
          | None => c :: replaceLoop re rep inp (S q) O tl
          | Some st =>
              let e := pos st in
              if (e =? q)%nat then rep ++ c :: replaceLoop re rep inp (S q) O tl
              else rep ++ replaceLoop re rep inp (S q) (e - q - 1) tl
          end
      end
  end.

Definition replaceAll (re : RegExp) (rep s : str) : str :=
  replaceLoop re rep s 0 0 s.

(** [s.repeat(n)], for a count that is not negative. *)
Definition repeatStr (s : str) (n : Z) : str :=
  List.concat (List.repeat s (Z.to_nat n)).

(** [new TextEncoder().encode(s)]: the UTF-8 bytes of a string.  Two code
    units that form a surrogate pair are one code point; a surrogate
    without its partner is encoded as U+FFFD. *)
Fixpoint utf8Encode (s : str) : list Z :=
  match s with
  | [] => []
  | c :: tl =>
      if c <? 128 then c :: utf8Encode tl
      else if c <? 2048 then 192 + c / 64 :: 128 + c mod 64 :: utf8Encode tl
      else if (55296 <=? c) && (c <=? 56319) then
        match tl with
        | d :: tl' =>
            if (56320 <=? d) && (d <=? 57343) then
              let cp := 65536 + (c - 55296) * 1024 + (d - 56320) in
              240 + cp / 262144 :: 128 + (cp / 4096) mod 64
                :: 128 + (cp / 64) mod 64 :: 128 + cp mod 64 :: utf8Encode tl'
            else 239 :: 191 :: 189 :: utf8Encode tl
        | [] => [239; 191; 189]
        end
      else if (56320 <=? c) && (c <=? 57343) then 239 :: 191 :: 189 :: utf8Encode tl
      else 224 + c / 4096 :: 128 + (c / 64) mod 64 :: 128 + c mod 64 :: utf8Encode tl
  end.

(** [btoa(bin)]: Base64 with the alphabet of RFC 4648 and "=" padding.
    It throws ([None]) when a code unit of its argument is above 255. *)
Definition base64Alphabet : str :=
  lit "ABCDEFGHIJKLMNOPQRSTUVWXYZabcdefghijklmnopqrstuvwxyz0123456789+/".

Definition base64Char (i : Z) : cu := nth (Z.to_nat i) base64Alphabet 0.

Fixpoint base64 (bin : list Z) : str :=
  match bin with
  | [] => []
  | [a] => [base64Char (a / 4); base64Char (a mod 4 * 16); 61; 61]
  | [a; b] =>
      [base64Char (a / 4); base64Char (a mod 4 * 16 + b / 16);
       base64Char (b mod 16 * 4); 61]
  | a :: b :: c :: tl =>
      base64Char (a / 4) :: base64Char (a mod 4 * 16 + b / 16)
        :: base64Char (b mod 16 * 4 + c / 64) :: base64Char (c mod 64)
        :: base64 tl
  end.

Definition btoa (bin : str) : option str :=
  if forallb (fun c => c <=? 255) bin then Some (base64 bin) else None.

(** [Set.prototype.add] on a set of strings: a set keeps the order of
    insertion, which [Array.from] reads back. *)
Definition setAdd (s : list str) (x : str) : list str :=
  if Transpose.has s x then s else s ++ [x].

(** The strings [filter(Boolean)] keeps: all but the empty one. *)
Definition truthy (s : str) : bool :=
  match s with [] => false | _ => true end.

End JSMore.

(* ================================================================== *)
(** * lib/share.ts: the URL-safe form of a Base64 token                *)
(* ================================================================== *)

Module Share.
Import JS JSMore.

Definition PLUS_RE : RegExp :=
  {| source := "/\+/g"; body := rchar "+"; ignoreCase := false |}.
Definition SLASH_RE : RegExp :=
  {| source := "/\//g"; body := rchar "/"; ignoreCase := false |}.
Definition PADDING_RE : RegExp :=
  {| source := "/=+$/g"; body := RSeq (rplus (rchar "=")) REol; ignoreCase := false |}.
Definition DASH_RE : RegExp :=
  {| source := "/-/g"; body := rchar "-"; ignoreCase := false |}.
Definition UNDERSCORE_RE : RegExp :=
  {| source := "/_/g"; body := rchar "_"; ignoreCase := false |}.

(** The path of a browser, where [TextEncoder] and [btoa] exist; the
    binary string holds one code unit per byte. *)
Definition toBase64Utf8 (s : str) : option str :=
  let bytes := utf8Encode s in
  let bin := bytes in
  btoa bin.

Definition toUrlSafe (b64 : str) : str :=
  replaceAll PADDING_RE []
    (replaceAll SLASH_RE (lit "_") (replaceAll PLUS_RE (lit "-") b64)).

Definition fromUrlSafe (s : str) : str :=
  let b64 := replaceAll UNDERSCORE_RE (lit "/") (replaceAll DASH_RE (lit "+") s) in
  let pad := rem (Z.of_nat (List.length b64)) 4 in
  if negb (pad =? 0) then b64 ++ repeatStr (lit "=") (4 - pad) else b64.

End Share.

(* ================================================================== *)
(** * components/Transposer.tsx: the text the main screen shows        *)
(* ================================================================== *)

Module Transposer.
Import JS JSMore Transpose.

(** The token-level chord matcher of the component: it has no [i] flag,
    and a "/" must be followed by a root. *)
Definition CHORD_REGEX : RegExp :=
  {| source := "/^[A-G](?:#|b)?(?:m|maj|min|dim|aug|sus|add|\d|\/[A-G](?:#|b)?|[A-G]|#|b|\+|-|°|Δ)*$/";
     body := rseq [ RBol;
                    rrange 65 71;
                    ROpt (RAlt (rchar "#") (rchar "b"));
                    RStar (ralt [ rword "m"; rword "maj"; rword "min"; rword "dim";
                                  rword "aug"; rword "sus"; rword "add"; rdigit;
                                  rseq [ rchar "/"; rrange 65 71;
                                         ROpt (RAlt (rchar "#") (rchar "b")) ];
                                  rrange 65 71; rchar "#"; rchar "b";
                                  rchar "+"; rchar "-"; rch 176; rch 916 ]);
                    REol ];
     ignoreCase := false |}.

Inductive Kind := chord | text.

Record Token := { t : Kind; v : str }.

Definition tokenize (txt : str) : list Token :=
  map (fun part => {| t := if test CHORD_REGEX part then chord else text;
                      v := part |})
      (filter truthy (split WS_SPLIT_RE txt)).

(** [preferSharps] is the value the component holds when the callback
    is made. *)
Definition safeTranspose (preferSharps : bool) (txt : str) (semitones : Z) : str :=
  let parts := split WS_SPLIT_RE txt in
  join (map (fun part =>
               if test CHORD_REGEX part
               then transposeChordText part semitones preferSharps
               else part)
            parts).

End Transposer.

(* ================================================================== *)
(** * app/print/page.tsx: the text and the chords of the print page    *)
(* ================================================================== *)

Module PrintPage.
Import JS JSMore Transpose.

Definition CHORD_REGEX : RegExp :=
  {| source := "/^[A-G](?:#|b)?(?:m|maj|min|dim|aug|sus|add|\d|\/|[A-G]|#|b|\+|\-|°|Δ)*$/i";
     body := rseq [ RBol;
                    rrange 65 71;
                    ROpt (RAlt (rchar "#") (rchar "b"));
                    RStar (ralt [ rword "m"; rword "maj"; rword "min"; rword "dim";
                                  rword "aug"; rword "sus"; rword "add"; rdigit;
                                  rchar "/"; rrange 65 71; rchar "#"; rchar "b";
                                  rchar "+"; rchar "-"; rch 176; rch 916 ]);
                    REol ];
     ignoreCase := true |}.

Definition extractUniqueChords (txt : str) : list str :=
  let tokens := filter truthy (split WS_SPLIT_RE txt) in
  fold_left (fun set t =>
               if test WS_ONLY_RE t then set
               else if test CHORD_REGEX t then setAdd set t
               else set)
            tokens [].

Definition transposeBlock (txt : str) (semitones : Z) (preferSharps : bool) : str :=
  join (map (fun part =>
               if test CHORD_REGEX part
               then transposeChordText part semitones preferSharps
               else part)
            (split WS_SPLIT_RE txt)).

End PrintPage.

(* ================================================================== *)
(** * components/ClickableChordText.tsx and components/ChordDiagram.tsx *)
(* ================================================================== *)

Module ClickableChordText.
Import JS.

(** The index of the voicing shown after a step forwards or backwards;
    [n] is [pop.voicings.length]. *)
Definition nextVoicing (index n : Z) : Z :=
  let len := Z.max 1 n in
  rem (index + 1) len.

Definition prevVoicing (index n : Z) : Z :=
  let len := Z.max 1 n in
  rem (index - 1 + len) len.

End ClickableChordText.

Module ChordDiagram.

(** The grid the component draws: [cx] has an entry per string, and
    [cy] places a dot in one of the frets. *)
Definition strings : Z := 6.
Definition frets : Z := 5.

End ChordDiagram.

(* ================================================================== *)
(** * Notions the further statements use                               *)
(* ================================================================== *)

Module Props.
Import JS.

(** The note a string sounds when it is stopped at a fret, counted in
    the note order of [lib/chords.ts] from the note of the open string. *)
Definition noteAtFret (openNote : list Z) (fret : Z) : option (list Z) :=
  nth_error Chords.NOTE_ORDER_SHARPS
    (Z.to_nat ((Capo.arrayIndexOf Chords.NOTE_ORDER_SHARPS openNote + fret) mod 12)).

(** Lowest position first. *)
Definition byBaseFret (a b : Chords.Shape) : Prop :=
  Chords.baseFret a <= Chords.baseFret b.

(** Patterns built from classes that are not negated: what they match,
    they match with the [i] flag as well. *)
Fixpoint positive (r : regex) : bool :=
  match r with
  | REmpty => true
  | RSet c => negb (cinvert c)
  | RSeq a b | RAlt a b => positive a && positive b
  | RStar a | ROpt a => positive a
  | _ => false
  end.

(** The body of [Transposer.CHORD_REGEX] between its anchors. *)
Definition chordRegexItems : regex :=
  ralt [ rword "m"; rword "maj"; rword "min"; rword "dim";
         rword "aug"; rword "sus"; rword "add"; rdigit;
         rseq [ rchar "/"; rrange 65 71; ROpt (RAlt (rchar "#") (rchar "b")) ];
         rrange 65 71; rchar "#"; rchar "b";
         rchar "+"; rchar "-"; rch 176; rch 916 ].

Definition chordRegexBody : regex :=
  RSeq (rrange 65 71)
       (RSeq (ROpt (RAlt (rchar "#") (rchar "b"))) (RStar chordRegexItems)).

(** The symbols whose root [parseChordSymbol] reads but [toSharp] does
    not know: a lower-case first letter, or an upper-case "B" in second
    place, which the pattern takes for a flat. *)
Definition rootIsMisread (symbol : list Z) : bool :=
  match symbol with
  | L :: rest =>
      (97 <=? L) || match rest with a :: _ => a =? 66 | [] => false end
  | [] => false
  end.

(** What [coarseQuality] takes for the mark of a minor chord: an "m"
    that starts a word, that is one at the start of the tail or after a
    code unit that is no letter, digit or "_", and that "aj" does not
    follow. *)
Definition minorMark (tail : list Z) : Prop :=
  exists u v, tail = u ++ 109 :: v
              /\ (u = [] \/ isWordChar (last u 0) = false)
              /\ prefixb (lit "aj") v = false.

(** A byte, and a character of the Base64 alphabet. *)
Definition isByte (b : Z) : Prop := 0 <= b <= 255.

Definition isBase64Char (c : Z) : Prop :=
  65 <= c <= 90 \/ 97 <= c <= 122 \/ 48 <= c <= 57 \/ c = 43 \/ c = 47.

(** The code units a query string takes as they are: letters, digits,
    "-" and "_". *)
Definition urlChar (c : Z) : bool :=
  ((65 <=? c) && (c <=? 90)) || ((97 <=? c) && (c <=? 122))
  || ((48 <=? c) && (c <=? 57)) || (c =? 45) || (c =? 95).

(** The voicing the diagram grids show for a symbol:
    [findVoicingsFor(sym)[0]], [None] for [undefined]. *)
Definition firstVoicing (symbol : list Z) : Chords.result (option Chords.Shape) :=
  Chords.bind (Chords.findVoicingsFor symbol) (fun v => Chords.Ok (hd_error v)).

(** A voicing [ChordDiagram] draws in full: a position for each string
    of the grid, each one muted (-1), open (0) or in one of the frets
    drawn; no open string away from the nut, where the component draws
    nothing for it; the barres between strings of the grid, in a fret
    drawn. *)
Definition fitsDiagram (v : Chords.Shape) : Prop :=
  Z.of_nat (List.length (Chords.positions v)) = ChordDiagram.strings
  /\ Forall (fun p => -1 <= p <= ChordDiagram.frets
                      /\ (p = 0 -> Chords.baseFret v = 1))
            (Chords.positions v)
  /\ 1 <= Chords.baseFret v
  /\ Forall (fun b => 0 <= Chords.fromString b <= Chords.toString b
                      /\ Chords.toString b < ChordDiagram.strings
                      /\ 1 <= Chords.fret b <= ChordDiagram.frets)
            (match Chords.barres v with Some bs => bs | None => [] end).

(** The quality of the barres [findVoicingsFor] adds for a coarse
    quality. *)
Definition barreQuality (q : Chords.Quality) : Chords.Quality :=
  match q with
  | Chords.min | Chords.m7 => Chords.min
  | Chords.dom7 => Chords.dom7
  | _ => Chords.maj
  end.

Definition isOpenShape (v : Chords.Shape) : bool := Chords.isOpen (Chords.family v).

Definition isBarre (v : Chords.Shape) : Prop :=
  Chords.family v = Some Chords.barre_e \/ Chords.family v = Some Chords.barre_a.

End Props.

(* ================================================================== *)
(** * Facts about the matcher                                          *)
(* ================================================================== *)

Section Matcher.
Import JS Spec.

Lemma extends_refl st : extends st st.
Proof. exists 0%nat. repeat split; simpl; auto with arith. Qed.

Lemma extends_trans a b c : extends a b -> extends b c -> extends a c.
Proof.
  intros (n & Hn & Hp & Hr) (m & Hm & Hp' & Hr').
  exists (n + m)%nat. rewrite Hr in Hm, Hr'. rewrite length_skipn in Hm.
  repeat split; try lia.
  rewrite Hr', skipn_skipn. f_equal. lia.
Qed.

Lemma extends_capture i st st1 : extends st st1 -> extends st (capture i st st1).
Proof. intros (n & H). exists n. exact H. Qed.

Lemma extends_advance st ch tl : rest st = ch :: tl -> extends st (advance st tl).
Proof.
  intros H. exists 1%nat. rewrite H. simpl. repeat split; lia.
Qed.

Lemma extends_length st st1 :
  extends st st1 ->
  (List.length (rest st1) + (pos st1 - pos st) = List.length (rest st))%nat.
Proof.
  intros (n & Hn & Hp & Hr). rewrite Hr, Hp, length_skipn. lia.
Qed.

(** Whatever the matcher answers, a continuation answered it, at a
    state further on in the input. *)
Lemma starLoop_cont (m : mstate -> cont -> option mstate) :
  (forall st k res, m st k = Some res ->
     exists st1, extends st st1 /\ k st1 = Some res) ->
  forall fuel st k res, starLoop m k fuel st = Some res ->
     exists st1, extends st st1 /\ k st1 = Some res.
Proof.
  intros Hm fuel. induction fuel as [|fuel IH]; intros st k res H; simpl in H.
  - exists st. split; [apply extends_refl | exact H].
  - destruct (m st _) as [r|] eqn:E.
    + inversion H; subst r. apply Hm in E. destruct E as (st1 & Hext & Hk).
      destruct (progressed st st1); [|discriminate].
      apply IH in Hk. destruct Hk as (st2 & Hext2 & Hk2).
      exists st2. split; [eapply extends_trans; eauto | exact Hk2].
    + exists st. split; [apply extends_refl | exact H].
Qed.

Lemma rmatch_cont ic inp r :
  forall st k res, rmatch ic inp r st k = Some res ->
    exists st1, extends st st1 /\ k st1 = Some res.
Proof.
  induction r; intros st k res H; simpl in H.
  - exists st. split; [apply extends_refl | exact H].
  - destruct (rest st) as [|ch tl] eqn:E; [discriminate|].
    destruct (cmatch ic c ch); [|discriminate].
    exists (advance st tl). split; [apply extends_advance with ch; exact E | exact H].
  - apply IHr1 in H. destruct H as (st1 & H1 & H).
    apply IHr2 in H. destruct H as (st2 & H2 & H).
    exists st2. split; [eapply extends_trans; eauto | exact H].
  - destruct (rmatch ic inp r1 st k) eqn:E.
    + inversion H; subst. apply IHr1 in E. exact E.
    + apply IHr2 in H. exact H.
  - eapply starLoop_cont; [|exact H]. intros; apply IHr; assumption.
  - destruct (rmatch ic inp r st _) eqn:E.
    + inversion H; subst. apply IHr in E. destruct E as (st1 & H1 & Hk).
      destruct (progressed st st1); [|discriminate].
      exists st1. split; assumption.
    + exists st. split; [apply extends_refl | exact H].
  - apply IHr in H. destruct H as (st1 & H1 & H).
    exists (capture i st st1). split; [apply extends_capture; exact H1 | exact H].
  - destruct (pos st =? 0)%nat; [|discriminate].
    exists st. split; [apply extends_refl | exact H].
  - destruct (rest st); [|discriminate].
    exists st. split; [apply extends_refl | exact H].
  - destruct (xorb _ _); [|discriminate].
    exists st. split; [apply extends_refl | exact H].
  - destruct (rmatch ic inp r st Some); [discriminate|].
    exists st. split; [apply extends_refl | exact H].
Qed.

End Matcher.

(* ================================================================== *)
(** * Pure patterns match their language                               *)
(* ================================================================== *)

Section Languages.
Import JS Spec.

Variable ic : bool.
Variable inp : str.

Lemma moved_nil st : moved st [] (rest st) = st.
Proof. destruct st; unfold moved; simpl. f_equal. lia. Qed.

Lemma advance_moved st ch tl : advance st tl = moved st [ch] tl.
Proof. unfold advance, moved; simpl. f_equal. lia. Qed.

Lemma moved_moved st u v tl tl' :
  moved (moved st u tl') v tl = moved st (u ++ v) tl.
Proof. unfold moved; simpl. f_equal. rewrite length_app. lia. Qed.

Lemma progressed_moved st w tl :
  progressed st (moved st w tl) = true <-> w <> [].
Proof.
  unfold progressed, moved; simpl. rewrite Nat.ltb_lt. destruct w; simpl.
  - split; [lia | congruence].
  - split; [discriminate | lia].
Qed.

Lemma starLoop_sound (m : mstate -> cont -> option mstate) (P : str -> Prop) :
  (forall st k res, m st k = Some res ->
     exists w tl, rest st = w ++ tl /\ P w /\ k (moved st w tl) = Some res) ->
  forall fuel st k res, starLoop m k fuel st = Some res ->
     exists w tl, rest st = w ++ tl /\ StarOf P w /\ k (moved st w tl) = Some res.
Proof.
  intros Hm fuel. induction fuel as [|fuel IH]; intros st k res H; simpl in H.
  - exists [], (rest st). rewrite moved_nil. repeat split; [constructor | exact H].
  - destruct (m st _) as [r|] eqn:E.
    + inversion H; subst r. apply Hm in E. destruct E as (u & tl1 & Hr & Hu & Hk).
      destruct (progressed st (moved st u tl1)) eqn:Hp; [|discriminate].
      apply progressed_moved in Hp.
      apply IH in Hk. destruct Hk as (v & tl & Hr' & Hv & Hk).
      simpl in Hr'. rewrite moved_moved in Hk.
      exists (u ++ v), tl. rewrite Hr, Hr', app_assoc.
      repeat split; [constructor; assumption | exact Hk].
    + exists [], (rest st). rewrite moved_nil. repeat split; [constructor | exact H].
Qed.

Lemma rmatch_sound r : pure r = true ->
  forall st k res, rmatch ic inp r st k = Some res ->
    exists w tl, rest st = w ++ tl /\ Lang ic r w /\ k (moved st w tl) = Some res.
Proof.
  induction r; simpl; intros Hp st k res H; try discriminate.
  - exists [], (rest st). rewrite moved_nil. auto.
  - destruct (rest st) as [|ch tl] eqn:E; [discriminate|].
    destruct (cmatch ic c ch) eqn:Ec; [|discriminate].
    exists [ch], tl. rewrite <- (advance_moved st ch tl). repeat split; [eauto | exact H].
  - apply andb_prop in Hp. destruct Hp as [Hp1 Hp2].
    apply (IHr1 Hp1) in H. destruct H as (u & tl1 & Hr & Hu & H).
    apply (IHr2 Hp2) in H. destruct H as (v & tl & Hr' & Hv & H).
    simpl in Hr'. rewrite moved_moved in H.
    exists (u ++ v), tl. rewrite Hr, Hr', app_assoc. repeat split; eauto.
  - apply andb_prop in Hp. destruct Hp as [Hp1 Hp2].
    destruct (rmatch ic inp r1 st k) eqn:E.
    + inversion H; subst. apply (IHr1 Hp1) in E.
      destruct E as (w & tl & ? & ? & ?). exists w, tl. auto.
    + apply (IHr2 Hp2) in H.
      destruct H as (w & tl & ? & ? & ?). exists w, tl. auto.
  - eapply starLoop_sound; [|exact H]. intros. apply IHr; assumption.
  - destruct (rmatch ic inp r st _) eqn:E.
    + inversion H; subst. apply (IHr Hp) in E.
      destruct E as (w & tl & Hr & Hw & Hk).
      destruct (progressed st (moved st w tl)); [|discriminate].
      exists w, tl. auto.
    + exists [], (rest st). rewrite moved_nil. auto.
Qed.

Lemma starLoop_complete (m : mstate -> cont -> option mstate) (P : str -> Prop) :
  (forall w st tl k, P w -> rest st = w ++ tl ->
     k (moved st w tl) <> None -> m st k <> None) ->
  forall w, StarOf P w ->
  forall fuel st tl k, (List.length (rest st) <= fuel)%nat ->
    rest st = w ++ tl -> k (moved st w tl) <> None ->
    starLoop m k fuel st <> None.
Proof.
  intros Hm w Hw. induction Hw as [|u v Hu Hne Hv IH]; intros fuel st tl k Hf Hr Hk.
  - simpl in Hr. rewrite <- Hr, moved_nil in Hk.
    destruct fuel; simpl; [exact Hk|].
    destruct (m st _); [discriminate | exact Hk].
  - destruct fuel as [|fuel].
    + rewrite Hr in Hf. destruct u; [congruence | simpl in Hf; lia].
    + simpl.
      assert (H : m st (fun st1 => if progressed st st1
                                   then starLoop m k fuel st1 else None) <> None).
      { apply (Hm u st (v ++ tl)); [exact Hu | rewrite Hr, app_assoc; reflexivity |].
        destruct (progressed st (moved st u (v ++ tl))) eqn:Hp.
        - apply (IH fuel _ tl); simpl.
          + rewrite Hr, !length_app in Hf. rewrite length_app.
            destruct u; [congruence | simpl in Hf; lia].
          + reflexivity.
          + rewrite moved_moved. exact Hk.
        - exfalso. apply (progressed_moved st u (v ++ tl)) in Hne. congruence. }
      destruct (m st _); [discriminate | congruence].
Qed.

Lemma rmatch_complete r : pure r = true ->
  forall w st tl k, Lang ic r w -> rest st = w ++ tl ->
    k (moved st w tl) <> None -> rmatch ic inp r st k <> None.
Proof.
  induction r; simpl; intros Hp w st tl k Hw Hr Hk; try discriminate.
  - subst w. simpl in Hr. rewrite <- Hr, moved_nil in Hk. exact Hk.
  - destruct Hw as (ch & -> & Hc). simpl in Hr. rewrite Hr, Hc.
    rewrite (advance_moved st ch tl). exact Hk.
  - apply andb_prop in Hp. destruct Hp as [Hp1 Hp2].
    destruct Hw as (u & v & -> & Hu & Hv).
    apply (IHr1 Hp1 u st (v ++ tl)); [exact Hu | rewrite Hr, app_assoc; reflexivity |].
    apply (IHr2 Hp2 v _ tl); [exact Hv | reflexivity |].
    rewrite moved_moved. exact Hk.
  - apply andb_prop in Hp. destruct Hp as [Hp1 Hp2].
    destruct (rmatch ic inp r1 st k) eqn:E; [discriminate|].
    destruct Hw as [Hw|Hw].
    + exfalso. apply (IHr1 Hp1 w st tl k); assumption.
    + apply (IHr2 Hp2 w st tl k); assumption.
  - eapply starLoop_complete with (P := Lang ic r) (w := w) (tl := tl); eauto.
  - destruct (rmatch ic inp r st _) eqn:E; [discriminate|].
    destruct Hw as [->|Hw].
    + simpl in Hr. rewrite <- Hr, moved_nil in Hk. exact Hk.
    + destruct w as [|c w'].
      * simpl in Hr. rewrite <- Hr, moved_nil in Hk. exact Hk.
      * exfalso. revert E. apply (IHr Hp (c :: w') st tl); [exact Hw | exact Hr |].
        destruct (progressed st (moved st (c :: w') tl)) eqn:Hpr; [exact Hk|].
        assert (Hn : c :: w' <> []) by discriminate.
        apply (progressed_moved st (c :: w') tl) in Hn. congruence.
Qed.

End Languages.

(* ================================================================== *)
(** * Character classes                                                *)
(* ================================================================== *)

Section Classes.
Import JS Spec.

Lemma elements_in r a : In a (elements r) <-> fst r <= a <= snd r.
Proof.
  unfold elements. rewrite in_map_iff. split.
  - intros (i & <- & Hi). apply in_seq in Hi. lia.
  - intros H. exists (Z.to_nat (a - fst r)). split; [lia|]. apply in_seq. lia.
Qed.

Lemma in_ranges_iff rs a :
  in_ranges rs a = true <-> exists r, In r rs /\ fst r <= a <= snd r.
Proof.
  unfold in_ranges. rewrite existsb_exists. split; intros (r & Hr & H); exists r;
    (split; [exact Hr|]).
  - apply andb_prop in H. lia.
  - apply andb_true_intro. lia.
Qed.

Lemma found_existsb ic rs ch :
  existsb (fun r => existsb (fun a => canonicalize ic a =? canonicalize ic ch)
                            (elements r)) rs = true <-> found ic rs ch.
Proof.
  rewrite existsb_exists. unfold found. split.
  - intros (r & Hr & H). apply existsb_exists in H. destruct H as (a & Ha & H).
    exists a. split; [|lia]. apply in_ranges_iff. exists r.
    split; [exact Hr | apply elements_in; exact Ha].
  - intros (a & Ha & H). apply in_ranges_iff in Ha. destruct Ha as (r & Hr & Ha).
    exists r. split; [exact Hr|]. apply existsb_exists. exists a.
    split; [apply elements_in; exact Ha | lia].
Qed.

Lemma cmatch_pos ic rs ch :
  cmatch ic {| cranges := rs; cinvert := false |} ch = true <-> found ic rs ch.
Proof.
  unfold cmatch; simpl. rewrite xorb_false_r. apply found_existsb.
Qed.

Lemma cmatch_neg ic rs ch :
  cmatch ic {| cranges := rs; cinvert := true |} ch = true <-> ~ found ic rs ch.
Proof.
  unfold cmatch; simpl. rewrite xorb_true_r, negb_true_iff, <- not_true_iff_false.
  rewrite found_existsb. reflexivity.
Qed.

Lemma found_exact rs ch : found false rs ch <-> in_ranges rs ch = true.
Proof.
  unfold found; simpl. split.
  - intros (a & Ha & ->). exact Ha.
  - intros H. exists ch. auto.
Qed.

Lemma cmatch_exact c ch :
  cmatch false c ch = xorb (in_ranges (cranges c) ch) (cinvert c).
Proof.
  destruct c as [rs inv]. simpl.
  destruct (in_ranges rs ch) eqn:E.
  - destruct inv.
    + apply not_true_is_false. rewrite cmatch_neg, found_exact. tauto.
    + apply cmatch_pos, found_exact. exact E.
  - destruct inv.
    + apply cmatch_neg. rewrite found_exact. congruence.
    + apply not_true_is_false. rewrite cmatch_pos, found_exact. congruence.
Qed.

(** The canonical form is the code unit itself or its upper case. *)
Lemma canonicalize_cases ch u :
  canonicalize true ch = u ->
  u = ch \/ (97 <= ch <= 122 /\ u = ch - 32) \/ (ch = 181 /\ u = 924)
  \/ (224 <= ch <= 254 /\ u = ch - 32) \/ (ch = 255 /\ u = 376)
  \/ (ch = 962 /\ u = 931) \/ (945 <= ch <= 969 /\ u = ch - 32)
  \/ (1072 <= ch <= 1103 /\ u = ch - 32) \/ (1104 <= ch <= 1119 /\ u = ch - 80).
Proof.
  intros <-. unfold canonicalize, toUpperCase1.
  repeat match goal with
         | |- context [if ?b then _ else _] => destruct b eqn:?
         end; simpl; lia.
Qed.

Lemma canonicalize_small ch : ch < 97 -> canonicalize true ch = ch.
Proof.
  intros H. unfold canonicalize, toUpperCase1.
  repeat match goal with
         | |- context [if ?b then _ else _] => destruct b eqn:?
         end; simpl; lia.
Qed.

Lemma canonicalize_lower ch : 97 <= ch <= 122 -> canonicalize true ch = ch - 32.
Proof.
  intros H. unfold canonicalize, toUpperCase1.
  repeat match goal with
         | |- context [if ?b then _ else _] => destruct b eqn:?
         end; simpl; lia.
Qed.

End Classes.

(* ================================================================== *)
(** * [test] on anchored patterns, [split] on one-group patterns       *)
(* ================================================================== *)

Section TestAndSplit.
Import JS Spec.

Lemma matchAt_anchored_later re X inp p rst :
  anchored re X -> matchAt re inp (S p) rst = None.
Proof. intros H. unfold matchAt. rewrite H. reflexivity. Qed.

Lemma execFrom_anchored_later re X inp :
  anchored re X -> forall rst p, execFrom re inp (S p) rst = None.
Proof.
  intros H rst. induction rst as [|c tl IH]; intros p; simpl;
    rewrite (matchAt_anchored_later re X) by exact H; auto.
Qed.

Lemma test_anchored re X s :
  anchored re X -> pure X = true ->
  (test re s = true <-> Lang (ignoreCase re) X s).
Proof.
  intros Ha Hp. unfold test, exec.
  assert (E : execFrom re s 0 s =
              match matchAt re s 0 s with Some st => Some (0%nat, st) | None => None end).
  { destruct s; simpl; destruct (matchAt re _ 0 _); auto.
    apply (execFrom_anchored_later re X); exact Ha. }
  rewrite E. unfold matchAt. rewrite Ha. cbn [rmatch pos Nat.eqb].
  set (st0 := {| pos := 0; rest := s; caps := [] |}).
  set (k := fun st2 : mstate => match rest st2 with [] => Some st2 | _ :: _ => None end).
  destruct (rmatch (ignoreCase re) s X st0 k) eqn:Em.
  - split; [intros _ | reflexivity].
    apply rmatch_sound in Em; [|exact Hp].
    destruct Em as (w & tl & Hr & Hw & Hk). unfold k in Hk; simpl in Hk.
    destruct tl; [|discriminate]. simpl in Hr. rewrite app_nil_r in Hr.
    rewrite Hr. exact Hw.
  - split; [discriminate|]. intros Hw. exfalso. revert Em.
    apply (rmatch_complete (ignoreCase re) s X Hp s st0 []);
      [exact Hw | simpl; rewrite app_nil_r; reflexivity | discriminate].
Qed.

(** An unanchored class: [test] looks for a member anywhere. *)
Lemma test_class re rs s :
  body re = rclass rs -> ignoreCase re = false ->
  test re s = existsb (in_ranges rs) s.
Proof.
  intros Hb Hi. unfold test, exec. generalize 0%nat. generalize s at 1.
  induction s as [|c tl IH]; intros inp p; simpl.
  - unfold matchAt. rewrite Hb. reflexivity.
  - unfold matchAt at 1. rewrite Hb, Hi. cbn [rmatch rclass rest].
    rewrite cmatch_exact. cbn [cranges cinvert]. rewrite xorb_false_r.
    destruct (in_ranges rs c); simpl; [reflexivity | apply IH].
Qed.

Lemma whole_capture_group re r :
  body re = RGroup 1 r -> ngroups r = 0%nat -> whole_capture re.
Proof.
  intros Hb Hg inp q rst st H. unfold matchAt in H. rewrite Hb in H. simpl in H.
  apply rmatch_cont in H. destruct H as (st1 & (n & Hn & Hpos & Hrest) & H).
  inversion H; subst st; clear H. simpl in *.
  exists n. repeat split; [exact Hn | exact Hpos |].
  unfold captures. rewrite Hb. simpl. rewrite Hg. simpl.
  do 2 f_equal. lia.
Qed.

Lemma splitLoop_join re : whole_capture re ->
  forall rst inp p q cur skip, (skip <= List.length rst)%nat ->
    join (splitLoop re inp p q cur skip rst) = cur ++ skipn skip rst.
Proof.
  intros Hw rst. unfold join.
  induction rst as [|c tl IH]; intros inp p q cur skip Hs; simpl.
  - destruct skip; simpl; [reflexivity | simpl in Hs; lia].
  - destruct skip as [|n].
    + destruct (matchAt re inp q (c :: tl)) as [st|] eqn:E.
      * destruct (Hw _ _ _ _ E) as (n & Hn & Hpos & Hc).
        destruct (pos st =? p)%nat.
        -- rewrite IH by lia. simpl. rewrite <- app_assoc. reflexivity.
        -- simpl. rewrite Hc. simpl. f_equal. destruct (pos st =? q)%nat eqn:Eq.
           ++ apply Nat.eqb_eq in Eq. assert (n = 0%nat) by lia. subst n.
              rewrite IH by lia. reflexivity.
           ++ apply Nat.eqb_neq in Eq. destruct n as [|n]; [lia|].
              simpl in Hn. rewrite IH by lia. simpl. f_equal.
              replace (pos st - q - 1)%nat with n by lia.
              apply firstn_skipn.
      * rewrite IH by lia. simpl. rewrite <- app_assoc. reflexivity.
    + simpl in Hs. rewrite IH by lia. reflexivity.
Qed.

Lemma split_join re s : whole_capture re -> join (split re s) = s.
Proof.
  intros Hw. destruct s as [|c tl].
  - simpl. destruct (matchAt re [] 0 []); reflexivity.
  - unfold split. rewrite (splitLoop_join re Hw); [reflexivity | simpl; lia].
Qed.

End TestAndSplit.

(* ================================================================== *)
(** * The patterns of lib/transpose.ts                                 *)
(* ================================================================== *)

Section TransposePatterns.
Import JS Spec Transpose.

Lemma canonicalize_upper_iff u ch :
  65 <= u <= 90 -> (canonicalize true ch = u <-> ch = u \/ ch = u + 32).
Proof.
  intros Hu. split.
  - intros H. apply canonicalize_cases in H. lia.
  - intros [->| ->]; [apply canonicalize_small | rewrite canonicalize_lower]; lia.
Qed.

Lemma canonicalize_plain_iff u ch :
  u < 65 \/ u = 176 -> (canonicalize true ch = u <-> ch = u).
Proof.
  intros Hu. split.
  - intros H. apply canonicalize_cases in H. lia.
  - intros ->. destruct Hu as [Hu| ->]; [apply canonicalize_small; lia | reflexivity].
Qed.

Lemma canonicalize_delta_iff ch :
  canonicalize true ch = 916 <-> ch = 916 \/ ch = 948.
Proof.
  split.
  - intros H. apply canonicalize_cases in H. lia.
  - intros [->| ->]; reflexivity.
Qed.

Lemma found_single ic x ch :
  found ic [(x, x)] ch <-> canonicalize ic ch = canonicalize ic x.
Proof.
  unfold found. split.
  - intros (a & Ha & H). apply in_ranges_iff in Ha.
    destruct Ha as (r & [<-|[]] & Ha). simpl in Ha.
    assert (a = x) by lia. subst a. auto.
  - intros H. exists x. split; [|auto]. apply in_ranges_iff.
    exists (x, x). simpl. split; [auto | lia].
Qed.

(** A literal code unit of a case-insensitive pattern. *)
Lemma cmatch_literal x ch :
  x < 65 \/ 97 <= x <= 122 \/ x = 176 \/ x = 916 ->
  (cmatch true {| cranges := [(x, x)]; cinvert := false |} ch = true <-> eqCI x ch).
Proof.
  intros Hx. rewrite cmatch_pos, found_single. unfold eqCI.
  destruct Hx as [Hx|[Hx|[Hx|Hx]]].
  - rewrite (canonicalize_small x) by lia. rewrite canonicalize_plain_iff by lia. lia.
  - rewrite (canonicalize_lower x) by lia. rewrite canonicalize_upper_iff by lia. lia.
  - subst x. change (canonicalize true 176) with 176.
    rewrite canonicalize_plain_iff by lia. lia.
  - subst x. change (canonicalize true 916) with 916.
    rewrite canonicalize_delta_iff. lia.
Qed.

Lemma cmatch_rootLetter ch :
  cmatch true {| cranges := [(65, 71)]; cinvert := false |} ch = true <-> rootLetter ch.
Proof.
  rewrite cmatch_pos. unfold found, rootLetter. split.
  - intros (a & Ha & H). apply in_ranges_iff in Ha.
    destruct Ha as (r & [<-|[]] & Ha). simpl in Ha.
    rewrite (canonicalize_small a) in H by lia. symmetry in H.
    rewrite canonicalize_upper_iff in H by lia. lia.
  - intros H.
    assert (Hc : exists a, 65 <= a <= 71 /\ (ch = a \/ ch = a + 32)).
    { destruct H; [exists ch | exists (ch - 32)]; lia. }
    destruct Hc as (a & Ha & Hc). exists a. split.
    + apply in_ranges_iff. exists (65, 71). simpl. auto.
    + rewrite (canonicalize_small a) by lia. symmetry.
      apply canonicalize_upper_iff; lia.
Qed.

Lemma cmatch_digit ch :
  cmatch true {| cranges := [(48, 57)]; cinvert := false |} ch = true <-> 48 <= ch <= 57.
Proof.
  rewrite cmatch_pos. unfold found. split.
  - intros (a & Ha & H). apply in_ranges_iff in Ha.
    destruct Ha as (r & [<-|[]] & Ha). simpl in Ha.
    rewrite (canonicalize_small a) in H by lia. symmetry in H.
    rewrite canonicalize_plain_iff in H by lia. lia.
  - intros H. exists ch. split; [|reflexivity].
    apply in_ranges_iff. exists (48, 57). simpl. auto.
Qed.

(** The accidental of the root: "#", "b" and, by the [i] flag, "B". *)
Lemma lang_accidental u :
  Lang true (RAlt (rchar "#") (rchar "b")) u <-> exists a, u = [a] /\ accidental a.
Proof.
  unfold accidental. simpl. unfold rchar, rch. simpl.
  split.
  - intros [(ch & -> & H)|(ch & -> & H)]; apply cmatch_literal in H;
      try lia; exists ch; unfold eqCI in H; split; auto; lia.
  - intros (a & -> & [->|[->| ->]]);
      [left | right | right]; eexists; (split; [reflexivity|]);
      apply cmatch_literal; unfold eqCI; lia.
Qed.

Lemma lang_chars w : w <> [] -> Forall literalChar w ->
  forall u, Lang true (rseq (map rch w)) u <-> Forall2 eqCI w u.
Proof.
  induction w as [|a w IH]; [congruence|]. intros _ Hw u.
  inversion Hw as [|? ? Ha Hw']; subst.
  destruct w as [|b w].
  - simpl. split.
    + intros (ch & -> & H). apply cmatch_literal in H; [|exact Ha].
      constructor; [exact H | constructor].
    + intros H. inversion H as [|? ch ? ? Hc Hn]; subst. inversion Hn; subst.
      exists ch. split; [reflexivity|]. apply cmatch_literal; assumption.
  - change (rseq (map rch (a :: b :: w)))
      with (RSeq (rch a) (rseq (map rch (b :: w)))).
    cbn [Lang]. split.
    + intros (u1 & v & -> & H1 & H2). simpl in H1. destruct H1 as (ch & -> & H1).
      apply cmatch_literal in H1; [|exact Ha].
      apply IH in H2; [|discriminate | exact Hw'].
      simpl. constructor; assumption.
    + intros H. inversion H as [|? ch ? v Hc Hn]; subst.
      exists [ch], v. split; [reflexivity|]. split.
      * simpl. exists ch. split; [reflexivity|]. apply cmatch_literal; assumption.
      * apply IH; [discriminate | exact Hw' | exact Hn].
Qed.

Lemma lang_word (s : string) u : lit s <> [] -> Forall literalChar (lit s) ->
  (Lang true (rword s) u <-> Forall2 eqCI (lit s) u).
Proof. intros. unfold rword. apply lang_chars; assumption. Qed.

Ltac literal_word :=
  try unfold lit; simpl;
  first [ discriminate
        | repeat (apply Forall_cons; [unfold literalChar; lia|]);
          apply Forall_nil ].

Lemma lang_digit u : Lang true rdigit u <-> exists d, u = [d] /\ 48 <= d <= 57.
Proof.
  unfold rdigit, rrange. cbn [Lang]. split; intros (d & -> & H); exists d;
    (split; [reflexivity|]); apply cmatch_digit; exact H.
Qed.

Lemma lang_root u : Lang true (rrange 65 71) u <-> exists c, u = [c] /\ rootLetter c.
Proof.
  unfold rrange. cbn [Lang]. split; intros (d & -> & H); exists d;
    (split; [reflexivity|]); apply cmatch_rootLetter; exact H.
Qed.

Lemma lang_items u : Lang true chordLikeItems u <-> Item u.
Proof.
  unfold chordLikeItems, Item. cbn [ralt Lang].
  change (rchar "/") with (rword "/"). change (rchar "#") with (rword "#").
  change (rchar "b") with (rword "b"). change (rchar "+") with (rword "+").
  change (rchar "-") with (rword "-").
  change (rch 176) with (rseq (map rch [176])).
  change (rch 916) with (rseq (map rch [916])).
  rewrite !lang_word by literal_word.
  rewrite !lang_chars by literal_word.
  rewrite lang_digit, lang_root.
  split.
  - intros H.
    repeat match type of H with
           | _ \/ _ => destruct H as [H|H]
           end;
    match type of H with
    | Forall2 eqCI ?w u => left; exists w; split; [vm_compute; tauto | exact H]
    | _ => tauto
    end.
  - intros [(w & Hin & H)|H]; [|tauto].
    unfold chordWords in Hin. cbn [map app In] in Hin.
    repeat match type of Hin with
           | _ \/ _ => destruct Hin as [Hin|Hin]
           end; try (subst w; tauto). contradiction.
Qed.

Lemma starOf_iff (P Q : list Z -> Prop) :
  (forall u, P u <-> Q u) -> forall w, StarOf P w <-> StarOf Q w.
Proof.
  intros H w. split; induction 1; constructor; auto; apply H; assumption.
Qed.

Lemma anchored_chordLike : anchored CHORD_LIKE_RE chordLikeBody.
Proof. intros inp st k. reflexivity. Qed.

Lemma lang_chordLike s : Lang true chordLikeBody s <-> looksLikeChordSpec s.
Proof.
  unfold chordLikeBody, looksLikeChordSpec. cbn [Lang]. split.
  - intros (u & v & -> & HL & (acc & items & -> & Hacc & Hitems)).
    apply lang_root in HL. destruct HL as (L & -> & HL).
    exists L, acc, items. split; [reflexivity|]. split; [exact HL|]. split.
    + destruct Hacc as [->|Hacc]; [left; reflexivity | right].
      apply lang_accidental. exact Hacc.
    + apply (starOf_iff _ _ lang_items). exact Hitems.
  - intros (L & acc & items & -> & HL & Hacc & Hitems).
    exists [L], (acc ++ items). split; [reflexivity|]. split.
    + apply lang_root. exists L. auto.
    + exists acc, items. split; [reflexivity|]. split.
      * destruct Hacc as [->|Hacc]; [left; reflexivity | right].
        apply lang_accidental. exact Hacc.
      * apply (starOf_iff _ _ lang_items). exact Hitems.
Qed.

Lemma isChordLike_spec s : isChordLike s = true <-> looksLikeChordSpec s.
Proof.
  unfold isChordLike.
  rewrite (test_anchored CHORD_LIKE_RE chordLikeBody s anchored_chordLike eq_refl).
  apply lang_chordLike.
Qed.

End TransposePatterns.

(* ================================================================== *)
(** * Tokens and spans of [transposeChordText]                         *)
(* ================================================================== *)

Section Spans.
Import JS Spec Transpose.

Lemma whole_capture_ws : whole_capture WS_SPLIT_RE.
Proof. apply (whole_capture_group WS_SPLIT_RE (rplus rspace)); reflexivity. Qed.

Lemma whole_capture_punct : whole_capture PUNCT_SPLIT_RE.
Proof. apply (whole_capture_group PUNCT_SPLIT_RE (rclass punct)); reflexivity. Qed.

Lemma lang_class_star ic c w :
  StarOf (Lang ic (RSet c)) w <-> Forall (fun ch => cmatch ic c ch = true) w.
Proof.
  split.
  - induction 1 as [|u v (ch & -> & Hc) _ _ IH]; simpl; constructor; assumption.
  - induction 1 as [|ch w Hc _ IH]; [constructor|].
    change (ch :: w) with ([ch] ++ w). constructor; [|discriminate | exact IH].
    exists ch. auto.
Qed.

Lemma isSpace_class ch : cmatch false {| cranges := whiteSpace; cinvert := false |} ch = isSpace ch.
Proof. rewrite cmatch_exact. simpl. apply xorb_false_r. Qed.

Lemma test_ws_only tok :
  test WS_ONLY_RE tok = true <->
  tok <> [] /\ Forall (fun c => isSpace c = true) tok.
Proof.
  rewrite (test_anchored WS_ONLY_RE (rplus rspace) tok);
    [| intros inp st k; reflexivity | reflexivity].
  unfold rplus, rspace, rclass. cbn [Lang ignoreCase WS_ONLY_RE]. split.
  - intros (u & v & -> & (ch & -> & Hc) & Hv). split; [discriminate|].
    apply lang_class_star in Hv. rewrite isSpace_class in Hc.
    constructor; [exact Hc|].
    eapply Forall_impl; [|exact Hv]. intros a Ha. cbv beta in Ha.
    rewrite isSpace_class in Ha. exact Ha.
  - intros [Hne H]. destruct tok as [|c tl]; [congruence|].
    inversion H as [|? ? Hc Htl]; subst.
    exists [c], tl. split; [reflexivity|]. split.
    + exists c. split; [reflexivity|]. rewrite isSpace_class. exact Hc.
    + apply lang_class_star. eapply Forall_impl; [|exact Htl].
      intros a Ha. cbv beta. rewrite isSpace_class. exact Ha.
Qed.

Lemma test_punct tok : test PUNCT_RE tok = existsb isPunct tok.
Proof. apply test_class; reflexivity. Qed.

Lemma isChordLike_head c tl : isChordLike (c :: tl) = true -> rootLetter c.
Proof.
  intros H. apply isChordLike_spec in H.
  destruct H as (L & acc & items & E & HL & _). inversion E; subst. exact HL.
Qed.

Lemma isChordLike_nil : isChordLike [] = false.
Proof. reflexivity. Qed.

Ltac range_cases H :=
  apply in_ranges_iff in H; destruct H as (?r & H & ?);
  cbn [In whiteSpace punct] in H;
  repeat match type of H with
         | _ \/ _ => destruct H as [H|H]
         | False => contradiction
         | (_, _) = _ => subst; cbn [fst snd] in *
         end.

Lemma space_not_root c : isSpace c = true -> ~ rootLetter c.
Proof. unfold isSpace, rootLetter. intros H. range_cases H; lia. Qed.

Lemma space_not_punct c : isSpace c = true -> isPunct c = false.
Proof.
  unfold isSpace. intros H. apply not_true_is_false. intros H'.
  unfold isPunct in H'. range_cases H; range_cases H'; lia.
Qed.

Lemma punct_not_root c : isPunct c = true -> ~ rootLetter c.
Proof. unfold isPunct, rootLetter. intros H. range_cases H; lia. Qed.

(** Whitespace is never taken for a chord. *)
Lemma isChordLike_space span :
  Forall (fun c => isSpace c = true) span -> isChordLike span = false.
Proof.
  intros H. destruct span as [|c tl]; [reflexivity|].
  inversion H; subst. apply not_true_is_false. intros Hc.
  apply isChordLike_head in Hc. eapply space_not_root; eauto.
Qed.

Lemma image_not_chord steps p span :
  isChordLike span = false -> image steps p span = span.
Proof. unfold image. intros ->. reflexivity. Qed.

Lemma image_space steps p span :
  Forall (fun c => isSpace c = true) span -> image steps p span = span.
Proof. intros H. apply image_not_chord, isChordLike_space, H. Qed.

Lemma pieces_space tok :
  Forall (fun c => isSpace c = true) tok -> pieces tok = [tok].
Proof.
  intros H. unfold pieces. rewrite test_punct.
  replace (existsb isPunct tok) with false; [reflexivity|].
  symmetry. apply not_true_is_false. intros He.
  apply existsb_exists in He. destruct He as (c & Hin & Hp).
  rewrite Forall_forall in H. apply H in Hin. apply space_not_punct in Hin. congruence.
Qed.

Lemma pieces_join tok : join (pieces tok) = tok.
Proof.
  unfold pieces. destruct (_ && _).
  - apply split_join, whole_capture_punct.
  - unfold join. cbn [concat]. apply app_nil_r.
Qed.

Lemma maybeTransposeToken_image tok steps p :
  maybeTransposeToken tok steps p = join (map (image steps p) (pieces tok)).
Proof.
  unfold maybeTransposeToken.
  destruct tok as [|c tl]; [reflexivity|]. cbn [orb].
  destruct (test WS_ONLY_RE (c :: tl)) eqn:Ews.
  - apply test_ws_only in Ews. destruct Ews as [_ Hs].
    rewrite pieces_space by exact Hs. simpl.
    rewrite image_space by exact Hs. unfold join. cbn [concat].
    symmetry. apply app_nil_r.
  - unfold pieces. destruct (_ && _).
    + reflexivity.
    + unfold join, image. cbn [map concat]. symmetry. apply app_nil_r.
Qed.

Lemma join_flat_map {A : Type} (f : A -> list (list Z)) l :
  join (flat_map f l) = join (map (fun x => join (f x)) l).
Proof.
  unfold join. induction l as [|x l IH]; simpl; [reflexivity|].
  rewrite concat_app, IH. reflexivity.
Qed.

Lemma spans_join t : join (spans t) = t.
Proof.
  unfold spans. rewrite join_flat_map.
  rewrite (map_ext _ (fun x => x)) by apply pieces_join.
  rewrite map_id. apply split_join, whole_capture_ws.
Qed.

Lemma transposeChordText_spans t steps p :
  transposeChordText t steps p = join (map (image steps p) (spans t)).
Proof.
  unfold transposeChordText, spans.
  rewrite (map_ext _ (fun tok => join (map (image steps p) (pieces tok))))
    by (intros; apply maybeTransposeToken_image).
  generalize (split WS_SPLIT_RE t). intros l. unfold join.
  induction l as [|x l IH]; simpl; [reflexivity|].
  rewrite map_app, concat_app, IH. reflexivity.
Qed.

End Spans.

Section ChordRe.
Import JS Spec Transpose.

Lemma exec_anchored re X s : anchored re X ->
  exec re s = match matchAt re s 0 s with
              | Some st => Some (0%nat, st)
              | None => None
              end.
Proof.
  intros Ha. unfold exec.
  destruct s; simpl; destruct (matchAt re _ 0 _); auto.
  apply (execFrom_anchored_later re X); exact Ha.
Qed.

Lemma bool_eq_iff (a b : bool) : (a = true <-> b = true) -> a = b.
Proof. destruct a, b; intuition congruence. Qed.

Lemma cmatch_rootLetterb ch :
  cmatch true {| cranges := [(65, 71)]; cinvert := false |} ch = isRootLetterb ch.
Proof.
  apply bool_eq_iff. rewrite cmatch_rootLetter. unfold rootLetter, isRootLetterb.
  rewrite orb_true_iff, !andb_true_iff, !Z.leb_le. tauto.
Qed.

Lemma cmatch_sharp ch :
  cmatch true {| cranges := [(35, 35)]; cinvert := false |} ch = (ch =? 35).
Proof.
  apply bool_eq_iff. rewrite cmatch_literal by lia. unfold eqCI. lia.
Qed.

Lemma cmatch_flat ch :
  cmatch true {| cranges := [(98, 98)]; cinvert := false |} ch = (ch =? 98) || (ch =? 66).
Proof.
  apply bool_eq_iff. rewrite cmatch_literal by lia. unfold eqCI. lia.
Qed.

Lemma canonicalize_fixed a :
  a < 97 \/ 123 <= a < 181 \/ 1120 <= a -> canonicalize true a = a.
Proof.
  intros H. unfold canonicalize, toUpperCase1.
  repeat match goal with
         | |- context [if ?b then _ else _] => destruct b eqn:?
         end; simpl; lia.
Qed.

Lemma found_tail ch :
  found true ((47, 47) :: whiteSpace) ch <-> ch = 47 \/ isSpace ch = true.
Proof.
  unfold found. split.
  - intros (a & Ha & H).
    assert (Hfix : canonicalize true a = a).
    { apply canonicalize_fixed. apply in_ranges_iff in Ha.
      destruct Ha as (r & Hr & Ha). cbn [In whiteSpace] in Hr.
      repeat match type of Hr with
             | _ \/ _ => destruct Hr as [Hr|Hr]
             | False => contradiction
             | (_, _) = _ => subst; cbn [fst snd] in *
             end; lia. }
    rewrite Hfix in H. symmetry in H. apply canonicalize_cases in H.
    assert (ch = a \/ ch <> a) as [->|Hne] by lia.
    + apply in_ranges_iff in Ha. destruct Ha as (r & [<-|Hr] & Ha).
      * simpl in Ha. left. lia.
      * right. apply in_ranges_iff. exists r. auto.
    + exfalso. apply in_ranges_iff in Ha.
      destruct Ha as (r & Hr & Ha). cbn [In whiteSpace] in Hr.
      repeat match type of Hr with
             | _ \/ _ => destruct Hr as [Hr|Hr]
             | False => contradiction
             | (_, _) = _ => subst; cbn [fst snd] in *
             end; lia.
  - intros H. exists ch. split; [|reflexivity].
    apply in_ranges_iff. destruct H as [->|H].
    + exists (47, 47). simpl. split; [auto | lia].
    + apply in_ranges_iff in H. destruct H as (r & Hr & H).
      exists r. split; [right; exact Hr | exact H].
Qed.

Lemma cmatch_tailChar ch :
  cmatch true {| cranges := (47, 47) :: whiteSpace; cinvert := true |} ch = tailChar ch.
Proof.
  apply bool_eq_iff. rewrite cmatch_neg, found_tail. unfold tailChar.
  rewrite negb_true_iff, orb_false_iff, Z.eqb_neq.
  destruct (isSpace ch); intuition congruence.
Qed.


(** A greedy star over a class, followed by the end of the input,
    succeeds exactly when all that is left is in the class. *)
Lemma starLoop_class_eol ic c (m : mstate -> cont -> option mstate)
  (f : mstate -> option mstate) :
  (forall st k, m st k = match rest st with
                         | [] => None
                         | ch :: tl => if cmatch ic c ch then k (advance st tl) else None
                         end) ->
  forall rst fuel p cs, (List.length rst <= fuel)%nat ->
    starLoop m
      (fun st3 => match rest st3 with [] => f st3 | _ :: _ => None end)
      fuel {| pos := p; rest := rst; caps := cs |}
    = if forallb (cmatch ic c) rst
      then f {| pos := (p + List.length rst)%nat; rest := []; caps := cs |}
      else None.
Proof.
  intros Hm.
  induction rst as [|ch tl IH]; intros fuel p cs Hf.
  - simpl. replace (p + 0)%nat with p by lia.
    destruct fuel; [reflexivity|]. simpl. rewrite Hm. reflexivity.
  - destruct fuel as [|fuel]; [simpl in Hf; lia|].
    cbn [starLoop forallb]. rewrite Hm. cbn [rest].
    destruct (cmatch ic c ch); cbn [andb]; [|reflexivity].
    unfold progressed, advance. cbn [pos rest caps].
    replace (p <? S p)%nat with true by (symmetry; apply Nat.ltb_lt; lia).
    rewrite IH by (simpl in Hf; lia).
    replace (S p + List.length tl)%nat with (p + List.length (ch :: tl))%nat
      by (simpl; lia).
    destruct (forallb (cmatch ic c) tl); [|reflexivity].
    destruct (f _); reflexivity.
Qed.

Lemma forallb_class rs (tc : Z -> bool) l :
  (forall ch, cmatch true {| cranges := rs; cinvert := true |} ch = tc ch) ->
  forallb (cmatch true {| cranges := rs; cinvert := true |}) l = forallb tc l.
Proof.
  intros H. induction l as [|a l IH]; simpl; [reflexivity|].
  rewrite IH, H. reflexivity.
Qed.

Lemma exec_root_tail re rs (tc : Z -> bool) s :
  (forall ch, cmatch true {| cranges := rs; cinvert := true |} ch = tc ch) ->
  ignoreCase re = true -> anchored re (rootTailBody rs) ->
  exec re s = option_map (rootMatch s) (parseWith tc s).
Proof.
  intros Htc Hic Ha.
  rewrite (exec_anchored _ _ s Ha).
  unfold matchAt. rewrite Ha, Hic.
  destruct s as [|L s']; [reflexivity|].
  cbn [rmatch pos rest Nat.eqb rrange rnclass rchar rch rootTailBody parseWith].
  rewrite cmatch_rootLetterb.
  destruct (isRootLetterb L); [|reflexivity].
  unfold progressed, advance, capture. cbn [pos rest caps].
  destruct s' as [|a tl].
  - reflexivity.
  - change (Z.of_N (N_of_ascii "#")) with 35. change (Z.of_N (N_of_ascii "b")) with 98.
    rewrite cmatch_sharp, cmatch_flat.
    cbn [Nat.ltb Nat.leb].
    rewrite !(starLoop_class_eol true {| cranges := rs; cinvert := true |})
      by first [ intros; reflexivity | simpl; lia ].
    rewrite !(forallb_class rs tc) by exact Htc.
    unfold isAccidentalb, rootMatch. cbn [pos rest caps].
    replace (2 + List.length tl - 2)%nat with (List.length tl) by lia.
    replace (1 + List.length (a :: tl) - 1)%nat with (List.length (a :: tl)) by lia.
    rewrite !firstn_all. cbn [forallb firstn Nat.sub fst snd option_map].
    destruct (a =? 35), (a =? 98), (a =? 66), (forallb tc tl), (tc a);
      reflexivity.
Qed.

Lemma exec_CHORD_RE s :
  exec CHORD_RE s = option_map (rootMatch s) (parseRoot s).
Proof.
  apply (exec_root_tail CHORD_RE ((47, 47) :: whiteSpace) tailChar).
  - apply cmatch_tailChar.
  - reflexivity.
  - intros inp st k. reflexivity.
Qed.

End ChordRe.

(** Case analysis on a pitch class. *)
Ltac enum12 j :=
  let H := fresh in
  assert (H : j = 0 \/ j = 1 \/ j = 2 \/ j = 3 \/ j = 4 \/ j = 5 \/ j = 6
              \/ j = 7 \/ j = 8 \/ j = 9 \/ j = 10 \/ j = 11) by lia;
  repeat (destruct H as [H|H]; [subst j|]); [..|subst j].

Section Notes.
Import JS Spec Transpose.

Lemma rem12 x : rem (rem x 12 + 12) 12 = x mod 12.
Proof. unfold rem. Z.to_euclidean_division_equations. lia. Qed.

Lemma indexOf_range note idx : indexOf note = Some idx -> 0 <= idx <= 11.
Proof.
  unfold indexOf, ENHARMONIC_MAP. cbn [lookup]. intros H.
  repeat match type of H with
         | (if ?b then _ else _) = _ => destruct b; [inversion H; lia|]
         end.
  discriminate.
Qed.

Lemma pitchClassOf_range n idx : pitchClassOf n = Some idx -> 0 <= idx <= 11.
Proof.
  unfold pitchClassOf. destruct (normNote n); [apply indexOf_range | discriminate].
Qed.

Lemma spell_pitchClass j p : 0 <= j <= 11 -> pitchClassOf (spell j p) = Some j.
Proof. intros Hj. enum12 j; destruct p; reflexivity. Qed.

Lemma chooseSpelling_spell j p : chooseSpelling j p = spell (j mod 12) p.
Proof. unfold chooseSpelling, spell. rewrite rem12. reflexivity. Qed.

Lemma roundDouble_exact z : Z.abs z <= 2 ^ 53 -> roundDouble z = z.
Proof.
  intros H. unfold roundDouble. cbv zeta.
  destruct (Z.abs z <=? 2 ^ 53) eqn:E; [reflexivity|].
  apply Z.leb_gt in E. lia.
Qed.

Lemma add_exact a b : Z.abs (a + b) <= 2 ^ 53 -> add a b = a + b.
Proof. apply roundDouble_exact. Qed.

Lemma movedIndex_range idx steps : 0 <= movedIndex idx steps <= 11.
Proof. unfold movedIndex. pose proof (Z.mod_pos_bound (add idx steps) 12). lia. Qed.

Lemma movedIndex_exact idx steps :
  0 <= idx <= 11 -> exactSteps steps -> movedIndex idx steps = (idx + steps) mod 12.
Proof.
  unfold movedIndex, exactSteps. intros Hi Hs. rewrite add_exact; [reflexivity|].
  change (2 ^ 53) with 9007199254740992 in *. lia.
Qed.

Lemma exactSteps_opp steps : exactSteps steps -> exactSteps (- steps).
Proof. unfold exactSteps. rewrite Z.abs_opp. exact (fun H => H). Qed.

Lemma exactSteps_small steps : -11 <= steps <= 11 -> exactSteps steps.
Proof. unfold exactSteps. change (2 ^ 53) with 9007199254740992. lia. Qed.

Lemma movedIndex_small idx steps :
  0 <= idx <= 11 -> -11 <= steps <= 11 -> movedIndex idx steps = (idx + steps) mod 12.
Proof. intros Hi Hs. apply movedIndex_exact; [exact Hi | apply exactSteps_small, Hs]. Qed.

Lemma transposeNote_spell n steps p idx :
  pitchClassOf n = Some idx -> transposeNote n steps p = spell (movedIndex idx steps) p.
Proof.
  unfold pitchClassOf, transposeNote. destruct (normNote n); [|discriminate].
  intros ->. rewrite chooseSpelling_spell, rem12, Z.mod_mod by lia. reflexivity.
Qed.

Lemma transposeNote_unrecognized n steps p :
  normNote n = None -> transposeNote n steps p = n.
Proof. unfold transposeNote. intros ->. reflexivity. Qed.

Lemma transposeNote_pitchClass n steps p idx :
  pitchClassOf n = Some idx ->
  pitchClassOf (transposeNote n steps p) = Some (movedIndex idx steps).
Proof.
  intros H. rewrite (transposeNote_spell n steps p idx H).
  apply spell_pitchClass, movedIndex_range.
Qed.

Lemma movedIndex_back idx steps :
  0 <= idx <= 11 -> exactSteps steps -> movedIndex (movedIndex idx steps) (- steps) = idx.
Proof.
  intros Hi Hs.
  rewrite (movedIndex_exact _ (- steps) (movedIndex_range idx steps) (exactSteps_opp _ Hs)).
  rewrite (movedIndex_exact idx steps Hi Hs), Zplus_mod_idemp_l.
  replace (idx + steps + - steps) with idx by lia. apply Z.mod_small. lia.
Qed.

Lemma transposeNote_round_trip n steps p idx :
  exactSteps steps ->
  pitchClassOf n = Some idx ->
  pitchClassOf (transposeNote (transposeNote n steps p) (- steps) p) = Some idx.
Proof.
  intros Hs H. pose proof (pitchClassOf_range n idx H) as Hr.
  rewrite (transposeNote_pitchClass _ (- steps) p _
             (transposeNote_pitchClass n steps p idx H)).
  f_equal. apply movedIndex_back; assumption.
Qed.

End Notes.

Section Symbols.
Import JS Spec Transpose.

Lemma includes_char c s : includes [c] s = existsb (Z.eqb c) s.
Proof.
  induction s as [|a tl IH]; [reflexivity|].
  cbn [includes prefixb existsb]. rewrite IH, andb_true_r. reflexivity.
Qed.

Lemma rootPitchClass_parse symbol :
  rootPitchClass symbol
  = match parseRoot symbol with Some (r, _) => pitchClassOf r | None => None end.
Proof.
  unfold rootPitchClass. rewrite exec_CHORD_RE.
  destruct (parseRoot symbol) as [[r t]|]; reflexivity.
Qed.

Lemma tailStartsWithAccidental_parse symbol :
  tailStartsWithAccidental symbol
  = match parseRoot symbol with
    | Some (_, a :: _) => isAccidentalb a
    | _ => false
    end.
Proof.
  unfold tailStartsWithAccidental. rewrite exec_CHORD_RE.
  destruct (parseRoot symbol) as [[r t]|]; reflexivity.
Qed.

(** A symbol without "/": the root is transposed, the tail is kept. *)
Lemma transposeChordSymbolF_plain fuel symbol steps p :
  includes (lit "/") symbol = false ->
  transposeChordSymbolF (S fuel) symbol steps p
  = match parseRoot symbol with
    | Some (r, t) => transposeNote r steps p ++ t
    | None => symbol
    end.
Proof.
  intros H. cbn [transposeChordSymbolF]. rewrite H, exec_CHORD_RE.
  destruct (parseRoot symbol) as [[r t]|]; reflexivity.
Qed.

Lemma rootLetter_enum L :
  isRootLetterb L = true -> In L (map Z.of_nat (seq 65 7) ++ map Z.of_nat (seq 97 7)).
Proof.
  unfold isRootLetterb. rewrite orb_true_iff, !andb_true_iff, !Z.leb_le. intros H.
  assert (E : L = 65 \/ L = 66 \/ L = 67 \/ L = 68 \/ L = 69 \/ L = 70 \/ L = 71
              \/ L = 97 \/ L = 98 \/ L = 99 \/ L = 100 \/ L = 101 \/ L = 102
              \/ L = 103) by lia.
  simpl. intuition.
Qed.

Lemma parseRoot_inv s r t :
  parseRoot s = Some (r, t) ->
  s = r ++ t /\ In r allRoots /\ forallb tailChar t = true.
Proof.
  unfold parseRoot, parseWith. destruct s as [|L s']; [discriminate|].
  destruct (isRootLetterb L) eqn:EL; [|discriminate].
  apply rootLetter_enum in EL.
  assert (Hone : In [L] allRoots).
  { apply in_flat_map. exists L. split; [exact EL | left; reflexivity]. }
  destruct s' as [|a tl].
  - intros H. inversion H; subst. auto.
  - destruct (isAccidentalb a) eqn:Ea.
    + destruct (forallb tailChar tl) eqn:Et; [|discriminate].
      intros H. inversion H; subst. repeat split; [|exact Et].
      apply in_flat_map. exists L. split; [exact EL|]. right.
      apply in_map_iff. exists a. split; [reflexivity|].
      unfold isAccidentalb in Ea. simpl. lia.
    + destruct (forallb tailChar (a :: tl)) eqn:Et; [|discriminate].
      intros H. inversion H; subst. auto.
Qed.

Lemma allRoots_recognized r : In r allRoots -> exists idx, pitchClassOf r = Some idx.
Proof.
  intros H.
  assert (E : forallb (fun r => match pitchClassOf r with Some _ => true | None => false end)
                allRoots = true) by (vm_compute; reflexivity).
  rewrite forallb_forall in E. apply E in H.
  destruct (pitchClassOf r) as [idx|]; [exists idx; reflexivity | discriminate].
Qed.

Lemma tailChar_no_slash t : forallb tailChar t = true -> includes (lit "/") t = false.
Proof.
  intros H. change (lit "/") with [47]. rewrite includes_char.
  apply not_true_is_false. intros He. apply existsb_exists in He.
  destruct He as (a & Hin & Ha). rewrite forallb_forall in H. apply H in Hin.
  unfold tailChar in Hin. apply Z.eqb_eq in Ha. subst a. discriminate.
Qed.

(** A canonical spelling in front of a tail that does not begin with an
    accidental is found again as the root. *)
Lemma parseRoot_spell j p t :
  0 <= j <= 11 -> forallb tailChar t = true ->
  match t with a :: _ => isAccidentalb a = false | [] => True end ->
  parseRoot (spell j p ++ t) = Some (spell j p, t)
  /\ includes (lit "/") (spell j p ++ t) = false.
Proof.
  intros Hj Ht Ha.
  assert (Hs : includes (lit "/") t = false) by (apply tailChar_no_slash; exact Ht).
  change (lit "/") with [47] in *. rewrite includes_char in *.
  enum12 j; destruct p;
    cbv [spell SHARPS FLATS nth Z.to_nat Pos.to_nat Pos.iter_op Nat.add map lit
         list_ascii_of_string N_of_ascii N_of_digits Z.of_N N.add N.mul app];
    cbn [existsb Z.eqb Pos.eqb orb]; (split; [|exact Hs]);
    unfold parseRoot; cbn [parseWith];
    repeat match goal with
           | |- context [isRootLetterb ?c] =>
               change (isRootLetterb c) with true; cbv iota
           | |- context [isAccidentalb 35] =>
               change (isAccidentalb 35) with true; cbv iota
           | |- context [isAccidentalb 98] =>
               change (isAccidentalb 98) with true; cbv iota
           end;
    try (rewrite Ht; reflexivity);
    (destruct t as [|a tl]; [reflexivity | rewrite Ha, Ht; reflexivity]).
Qed.

End Symbols.

Section SlashChords.
Import JS Spec Transpose.

Lemma splitStrLoop_char c : forall rst cur,
  splitStrLoop [c] cur 0 rst = splitOn c cur rst.
Proof.
  induction rst as [|a tl IH]; intros cur; [reflexivity|].
  cbn [splitStrLoop splitOn prefixb List.length Nat.sub]. rewrite andb_true_r.
  destruct (c =? a); rewrite IH; reflexivity.
Qed.

Lemma splitStr_char c s : splitStr [c] s = splitOn c [] s.
Proof. destruct s; [reflexivity|]. apply splitStrLoop_char. Qed.

Lemma splitOn_free c : forall s cur,
  existsb (Z.eqb c) s = false -> splitOn c cur s = [cur ++ s].
Proof.
  induction s as [|a tl IH]; intros cur H; simpl.
  - rewrite app_nil_r. reflexivity.
  - simpl in H. apply orb_false_iff in H. destruct H as [Ha Htl].
    rewrite Ha, IH by exact Htl. rewrite <- app_assoc. reflexivity.
Qed.

Lemma splitOn_app c : forall top cur rst,
  existsb (Z.eqb c) top = false ->
  splitOn c cur (top ++ c :: rst) = (cur ++ top) :: splitOn c [] rst.
Proof.
  induction top as [|a tl IH]; intros cur rst H; simpl.
  - rewrite Z.eqb_refl, app_nil_r. reflexivity.
  - simpl in H. apply orb_false_iff in H. destruct H as [Ha Htl].
    rewrite Ha, IH by exact Htl. rewrite <- app_assoc. reflexivity.
Qed.

(** The parts of a split hold no separator. *)
Lemma splitOn_parts c : forall s cur,
  existsb (Z.eqb c) cur = false ->
  Forall (fun part => existsb (Z.eqb c) part = false) (splitOn c cur s).
Proof.
  induction s as [|a tl IH]; intros cur H; simpl.
  - constructor; [exact H | constructor].
  - destruct (c =? a) eqn:E.
    + constructor; [exact H | apply IH; reflexivity].
    + apply IH. rewrite existsb_app, H. simpl. rewrite E. reflexivity.
Qed.

Lemma splitOn_cons c : forall s cur, exists part more, splitOn c cur s = part :: more.
Proof.
  induction s as [|a tl IH]; intros cur; simpl; [eauto|].
  destruct (c =? a); eauto.
Qed.

(** A string that holds the separator splits into two parts at least. *)
Lemma splitOn_two c : forall s cur,
  existsb (Z.eqb c) s = true ->
  exists top bass more, splitOn c cur s = top :: bass :: more.
Proof.
  induction s as [|a tl IH]; intros cur H; simpl in *; [discriminate|].
  destruct (c =? a).
  - destruct (splitOn_cons c tl []) as (bass & more & E). rewrite E. eauto.
  - apply IH. exact H.
Qed.

Lemma transposeChordSymbolF_slash fuel symbol steps p :
  includes (lit "/") symbol = true ->
  transposeChordSymbolF (S fuel) symbol steps p
  = transposeChordSymbolF fuel (nth 0 (splitStr (lit "/") symbol) undefinedStr) steps p
    ++ lit "/"
    ++ transposeChordSymbolF fuel (nth 1 (splitStr (lit "/") symbol) undefinedStr) steps p.
Proof. intros H. simpl. rewrite H. reflexivity. Qed.

Lemma transposeChordSymbol_plain symbol steps p :
  includes (lit "/") symbol = false ->
  transposeChordSymbol symbol steps p
  = match parseRoot symbol with
    | Some (r, t) => transposeNote r steps p ++ t
    | None => symbol
    end.
Proof. apply transposeChordSymbolF_plain. Qed.

Lemma transposeChordSymbolF_one symbol steps p :
  includes (lit "/") symbol = false ->
  transposeChordSymbolF 1 symbol steps p = transposeChordSymbol symbol steps p.
Proof.
  intros H. unfold transposeChordSymbol.
  rewrite !transposeChordSymbolF_plain by exact H. reflexivity.
Qed.

(** A symbol with "/": the first two parts of the split are transposed
    on their own and joined by "/". *)
Lemma transposeChordSymbol_slash symbol steps p :
  includes (lit "/") symbol = true ->
  exists top bass more,
    splitStr (lit "/") symbol = top :: bass :: more /\
    includes (lit "/") top = false /\ includes (lit "/") bass = false /\
    transposeChordSymbol symbol steps p
    = transposeChordSymbol top steps p ++ lit "/"
      ++ transposeChordSymbol bass steps p.
Proof.
  intros H. change (lit "/") with [47] in *.
  pose proof H as H'. rewrite includes_char in H'.
  destruct (splitOn_two 47 symbol [] H') as (top & bass & more & E).
  pose proof (splitOn_parts 47 symbol [] eq_refl) as Hp. rewrite E in Hp.
  inversion Hp as [|? ? Htop Hp']; subst. inversion Hp' as [|? ? Hbass _]; subst.
  exists top, bass, more. rewrite !includes_char, splitStr_char.
  repeat split; try assumption.
  unfold transposeChordSymbol at 1.
  rewrite transposeChordSymbolF_slash by exact H.
  change (lit "/") with [47]. rewrite splitStr_char, E. cbn [nth].
  rewrite !transposeChordSymbolF_one by (change (lit "/") with [47];
                                          rewrite includes_char; assumption).
  reflexivity.
Qed.

(** Two levels of the recursion are all a call ever uses. *)
Lemma transposeChordSymbolF_fuel n symbol steps p :
  transposeChordSymbolF (S (S n)) symbol steps p = transposeChordSymbol symbol steps p.
Proof.
  destruct (includes (lit "/") symbol) eqn:H.
  - unfold transposeChordSymbol.
    rewrite (transposeChordSymbolF_slash (S n)), (transposeChordSymbolF_slash 1)
      by exact H.
    change (lit "/") with [47] in *. rewrite includes_char in H.
    destruct (splitOn_two 47 symbol [] H) as (top & bass & more & E).
    pose proof (splitOn_parts 47 symbol [] eq_refl) as Hp.
    rewrite splitStr_char, E in *. cbn [nth].
    inversion Hp as [|? ? Htop Hp']; subst. inversion Hp' as [|? ? Hbass _]; subst.
    rewrite <- (includes_char 47) in Htop, Hbass.
    rewrite !(transposeChordSymbolF_plain n), !(transposeChordSymbolF_plain 0)
      by assumption.
    reflexivity.
  - unfold transposeChordSymbol. rewrite !transposeChordSymbolF_plain by exact H.
    reflexivity.
Qed.

Lemma transposeChordSymbol_halves top bass steps p :
  includes (lit "/") top = false -> includes (lit "/") bass = false ->
  transposeChordSymbol (top ++ lit "/" ++ bass) steps p
  = transposeChordSymbol top steps p ++ lit "/" ++ transposeChordSymbol bass steps p.
Proof.
  intros Ht Hb. change (lit "/") with [47] in *. rewrite includes_char in Ht, Hb.
  assert (E : splitStr [47] (top ++ [47] ++ bass) = [top; bass]).
  { rewrite splitStr_char. simpl. rewrite splitOn_app by exact Ht.
    rewrite splitOn_free by exact Hb. reflexivity. }
  assert (H : includes [47] (top ++ [47] ++ bass) = true).
  { rewrite includes_char, existsb_app. simpl. apply orb_true_r. }
  destruct (transposeChordSymbol_slash _ steps p H)
    as (top' & bass' & more & E' & _ & _ & Ht').
  change (lit "/") with [47] in *. rewrite E in E'. inversion E'; subst. exact Ht'.
Qed.

End SlashChords.

Section Punctuation.
Import JS Spec Transpose.

Lemma matchAt_punct inp q c tl :
  matchAt PUNCT_SPLIT_RE inp q (c :: tl)
  = if isPunct c
    then Some {| pos := S q; rest := tl; caps := [(1%nat, [c])] |}
    else None.
Proof.
  unfold matchAt. cbn [rmatch body PUNCT_SPLIT_RE rclass ignoreCase rest].
  rewrite cmatch_exact. cbn [cranges cinvert]. rewrite xorb_false_r.
  unfold isPunct. destruct (in_ranges punct c); [|reflexivity].
  unfold capture, advance. cbn [pos rest caps].
  replace (S q - q)%nat with 1%nat by lia. reflexivity.
Qed.

Lemma splitLoop_punct inp : forall rst p q cur, (p <= q)%nat ->
  splitLoop PUNCT_SPLIT_RE inp p q cur 0 rst = splitAtPunct cur rst.
Proof.
  induction rst as [|c tl IH]; intros p q cur Hpq; [reflexivity|].
  cbn [splitLoop splitAtPunct]. rewrite matchAt_punct.
  destruct (isPunct c).
  - cbn [pos]. replace (S q =? p)%nat with false by (symmetry; apply Nat.eqb_neq; lia).
    replace (S q =? q)%nat with false by (symmetry; apply Nat.eqb_neq; lia).
    replace (S q - q - 1)%nat with 0%nat by lia.
    rewrite IH by lia. reflexivity.
  - apply IH. lia.
Qed.

Lemma split_punct tok : split PUNCT_SPLIT_RE tok = splitAtPunct [] tok.
Proof.
  destruct tok as [|c tl]; [reflexivity|].
  unfold split. apply splitLoop_punct. lia.
Qed.

Lemma matchAt_ws_none inp q c tl :
  isSpace c = false -> matchAt WS_SPLIT_RE inp q (c :: tl) = None.
Proof.
  intros H. unfold matchAt.
  cbn [rmatch body WS_SPLIT_RE rplus rspace rclass ignoreCase rest].
  rewrite isSpace_class, H. reflexivity.
Qed.

Lemma splitLoop_ws_free inp : forall rst p q cur,
  Forall (fun c => isSpace c = false) rst ->
  splitLoop WS_SPLIT_RE inp p q cur 0 rst = [cur ++ rst].
Proof.
  induction rst as [|c tl IH]; intros p q cur H; cbn [splitLoop].
  - rewrite app_nil_r. reflexivity.
  - inversion H; subst. rewrite matchAt_ws_none by assumption.
    rewrite IH by assumption. rewrite <- app_assoc. reflexivity.
Qed.

(** A token without whitespace is the only part of its split. *)
Lemma split_ws_free tok :
  tok <> [] -> Forall (fun c => isSpace c = false) tok ->
  split WS_SPLIT_RE tok = [tok].
Proof.
  intros Hne H. destruct tok as [|c tl]; [congruence|].
  unfold split. apply (splitLoop_ws_free _ (c :: tl) 0%nat 0%nat [] H).
Qed.

Lemma transposeChordText_token tok steps p :
  tok <> [] -> Forall (fun c => isSpace c = false) tok ->
  transposeChordText tok steps p = maybeTransposeToken tok steps p.
Proof.
  intros Hne H. unfold transposeChordText. rewrite split_ws_free by assumption.
  unfold join. cbn [map concat]. apply app_nil_r.
Qed.


Lemma isChordLike_punct c : isPunct c = true -> isChordLike [c] = false.
Proof.
  intros H. apply not_true_is_false. intros Hc.
  apply isChordLike_head in Hc. eapply punct_not_root; eauto.
Qed.

Lemma splitAtPunct_parts : forall s cur,
  existsb isPunct cur = false -> Parts (splitAtPunct cur s).
Proof.
  induction s as [|c tl IH]; intros cur H; simpl.
  - constructor. exact H.
  - destruct (isPunct c) eqn:E.
    + constructor; [exact H | exact E | apply IH; reflexivity].
    + apply IH. rewrite existsb_app, H. simpl. rewrite E. reflexivity.
Qed.

End Punctuation.

Section Sorting.
Import JS.
Local Open Scope Q_scope.

Variable A : Type.
Variable f : A -> Q.

Let cmp (a b : A) : Q := f b - f a.






End Sorting.

Section CapoScores.
Import JS Transpose Capo Spec.
Local Open Scope Q_scope.

Lemma scoreCapo_terms k fret :
  scoreCapo k fret == easyBonus k + comfort fret + bias k.
Proof.
  unfold scoreCapo, easyBonus, comfort, bias. cbv zeta.
  replace (20 - fret * 2)%Z with (20 - 2 * fret)%Z by lia.
  replace (10 - (fret - 5) * 3)%Z with (10 - 3 * (fret - 5))%Z by lia.
  destruct (has OPEN_SHAPE_KEYS k); destruct (fret <=? 5)%Z; ring.
Qed.

Lemma frets_all : frets = [0; 1; 2; 3; 4; 5; 6; 7; 8; 9; 10; 11]%Z.
Proof. reflexivity. Qed.

End CapoScores.

Section Lowercase.
Import JS Spec Transpose.

Lemma letters_items w :
  Forall (fun c => 97 <= c <= 103) w -> StarOf Item w.
Proof.
  induction 1 as [|c w Hc _ IH]; [constructor|].
  change (c :: w) with ([c] ++ w). constructor; [|discriminate | exact IH].
  right. right. exists c. split; [reflexivity|]. right. exact Hc.
Qed.

Lemma isChordLike_lowercase_word w :
  w <> [] -> Forall (fun c => 97 <= c <= 103) w -> isChordLike w = true.
Proof.
  intros Hne H. destruct w as [|L w]; [congruence|].
  inversion H; subst. apply isChordLike_spec.
  exists L, [], w. split; [reflexivity|]. split; [right; assumption|].
  split; [left; reflexivity | apply letters_items; assumption].
Qed.

End Lowercase.

Section ChordLikeImages.
Import JS Spec Transpose.

Lemma starOf_app (P : list Z -> Prop) u v : StarOf P u -> StarOf P v -> StarOf P (u ++ v).
Proof.
  induction 1 as [|a b Ha Hne _ IH]; intros Hv; [exact Hv|].
  rewrite <- app_assoc. constructor; auto.
Qed.

Lemma starOf_one (P : list Z -> Prop) u : P u -> u <> [] -> StarOf P u.
Proof.
  intros H Hne. rewrite <- (app_nil_r u). constructor; [exact H | exact Hne | constructor].
Qed.

Lemma item_rootLetter c : rootLetter c -> Item [c].
Proof. intros H. right. right. exists c. auto. Qed.

Lemma item_accidental a : accidental a -> Item [a].
Proof.
  intros [->|[->| ->]].
  - left. exists [35]. split; [vm_compute; tauto|].
    constructor; [left; reflexivity | constructor].
  - left. exists [98]. split; [vm_compute; tauto|].
    constructor; [left; reflexivity | constructor].
  - apply item_rootLetter. left. lia.
Qed.

Lemma item_slash : Item [47].
Proof.
  left. exists [47]. split; [vm_compute; tauto|].
  constructor; [left; reflexivity | constructor].
Qed.

Lemma eqCI_itemChar w u :
  Forall literalChar w -> Forall itemChar w -> Forall2 eqCI w u -> Forall itemChar u.
Proof.
  intros Hl Hi H. induction H as [|a b w u Hab _ IH]; [constructor|].
  inversion Hl; subst. inversion Hi; subst.
  constructor; [|apply IH; assumption].
  unfold eqCI, itemChar, literalChar in *. lia.
Qed.

Lemma chordWords_chars w :
  In w chordWords -> Forall literalChar w /\ Forall itemChar w /\ w <> [].
Proof.
  unfold chordWords. cbn [map app In]. unfold lit. simpl.
  intros H.
  repeat match type of H with
         | _ \/ _ => destruct H as [H|H]
         | False => contradiction
         end; subst w;
    (split; [|split; [|discriminate]]);
    repeat (apply Forall_cons; [unfold literalChar, itemChar; lia|]);
    apply Forall_nil.
Qed.

Lemma item_chars u : Item u -> Forall itemChar u /\ u <> [].
Proof.
  intros [(w & Hin & H)|[(d & -> & Hd)|(c & -> & Hc)]].
  - destruct (chordWords_chars w Hin) as (Hl & Hi & Hne). split.
    + eapply eqCI_itemChar; eauto.
    + destruct H; [congruence | discriminate].
  - split; [|discriminate].
    apply Forall_cons; [unfold itemChar; lia | apply Forall_nil].
  - split; [|discriminate].
    apply Forall_cons; [unfold itemChar, rootLetter in *; lia | apply Forall_nil].
Qed.

Lemma items_chars w : StarOf Item w -> Forall itemChar w.
Proof.
  induction 1 as [|u v Hu _ _ IH]; [constructor|].
  apply Forall_app. split; [apply item_chars; exact Hu | exact IH].
Qed.

(** An item that begins with an accidental is that code unit alone. *)
Lemma item_accidental_single a u : Item (a :: u) -> accidental a -> u = [].
Proof.
  intros [(w & Hin & H)|[(d & E & _)|(c & E & _)]] Ha;
    [|inversion E; reflexivity | inversion E; reflexivity].
  unfold chordWords in Hin. cbn [map app In] in Hin. unfold lit in Hin. simpl in Hin.
  unfold accidental in Ha.
  repeat match type of Hin with
         | _ \/ _ => destruct Hin as [Hin|Hin]
         | False => contradiction
         end; subst w;
    repeat match goal with
           | H : Forall2 eqCI (_ :: _) _ |- _ => inversion H; clear H; subst
           | H : Forall2 eqCI [] _ |- _ => inversion H; clear H; subst
           end; try reflexivity; unfold eqCI in *; lia.
Qed.


Lemma itemChar_not_space c : itemChar c -> isSpace c = false.
Proof.
  intros H. apply not_true_is_false. intros Hs. unfold isSpace in Hs.
  apply in_ranges_iff in Hs. destruct Hs as (r & Hr & Hs).
  cbn [In whiteSpace] in Hr.
  repeat match type of Hr with
         | _ \/ _ => destruct Hr as [Hr|Hr]
         | False => contradiction
         | (_, _) = _ => subst; cbn [fst snd] in *
         end; unfold itemChar in H; lia.
Qed.

Lemma itemChar_not_punct c : itemChar c -> isPunct c = false.
Proof.
  intros H. apply not_true_is_false. intros Hs. unfold isPunct in Hs.
  apply in_ranges_iff in Hs. destruct Hs as (r & Hr & Hs).
  cbn [In punct] in Hr.
  repeat match type of Hr with
         | _ \/ _ => destruct Hr as [Hr|Hr]
         | False => contradiction
         | (_, _) = _ => subst; cbn [fst snd] in *
         end; unfold itemChar in H; lia.
Qed.

Lemma tailChars_of_items t :
  Forall itemChar t -> existsb (Z.eqb 47) t = false -> forallb tailChar t = true.
Proof.
  induction 1 as [|c t Hc _ IH]; cbn [existsb forallb]; [reflexivity|].
  intros H. apply orb_false_iff in H. destruct H as [H47 Ht].
  rewrite IH by exact Ht. unfold tailChar.
  rewrite (itemChar_not_space c Hc). rewrite Z.eqb_sym in H47. rewrite H47.
  reflexivity.
Qed.

Lemma isRootLetterb_iff c : isRootLetterb c = true <-> rootLetter c.
Proof.
  unfold isRootLetterb, rootLetter.
  rewrite orb_true_iff, !andb_true_iff, !Z.leb_le. tauto.
Qed.

Lemma isAccidentalb_iff c : isAccidentalb c = true <-> accidental c.
Proof. unfold isAccidentalb, accidental. lia. Qed.

(** A chord-like symbol without "/" has a root, and its tail is made of
    items. *)
Lemma chordLike_parse sp :
  isChordLike sp = true -> includes (lit "/") sp = false ->
  exists r t, parseRoot sp = Some (r, t) /\ StarOf Item t.
Proof.
  intros Hc Hs. apply isChordLike_spec in Hc.
  destruct Hc as (L & acc & items & -> & HL & Hacc & Hitems).
  change (lit "/") with [47] in Hs. rewrite includes_char in Hs.
  cbn [existsb] in Hs. apply orb_false_iff in Hs. destruct Hs as [_ Hs].
  assert (Hall : Forall itemChar (acc ++ items)).
  { apply Forall_app. split; [|apply items_chars; exact Hitems].
    destruct Hacc as [->|(a & -> & Ha)]; [constructor|].
    apply item_chars, item_accidental, Ha. }
  pose proof (tailChars_of_items _ Hall Hs) as Htail.
  unfold parseRoot, parseWith. rewrite (proj2 (isRootLetterb_iff L) HL).
  destruct (acc ++ items) as [|a tl] eqn:E.
  - exists [L], []. split; [reflexivity | constructor].
  - destruct (isAccidentalb a) eqn:Ea.
    + cbn [forallb] in Htail. apply andb_prop in Htail. destruct Htail as [_ Htl].
      rewrite Htl. exists [L; a], tl. split; [reflexivity|].
      apply isAccidentalb_iff in Ea.
      destruct Hacc as [->|(a' & -> & _)].
      * simpl in E. subst items. inversion Hitems as [|u v Hu Hne Hv Huv].
        destruct u as [|b u']; [congruence|]. simpl in Huv. inversion Huv; subst.
        rewrite (item_accidental_single a u' Hu Ea). exact Hv.
      * simpl in E. inversion E; subst. exact Hitems.
    + rewrite Htail. exists [L], (a :: tl). split; [reflexivity|].
      destruct Hacc as [->|(a' & -> & Ha')].
      * simpl in E. subst items. exact Hitems.
      * simpl in E. inversion E; subst. apply isAccidentalb_iff in Ha'. congruence.
Qed.

Lemma spell_shape j p : 0 <= j <= 11 ->
  exists L, 65 <= L <= 71 /\
    (spell j p = [L] \/ exists a, (a = 35 \/ a = 98) /\ spell j p = [L; a]).
Proof.
  intros Hj. enum12 j; destruct p;
    match goal with
    | |- exists L, _ /\ (spell ?j ?p = _ \/ _) =>
        let v := eval vm_compute in (spell j p) in
        change (spell j p) with v;
        match v with
        | [?L] => exists L; split; [lia | left; reflexivity]
        | [?L; ?a] => exists L; split; [lia |
                        right; exists a; split; [lia | reflexivity]]
        end
    end.
Qed.

Lemma chordLike_spell_tail j p t :
  0 <= j <= 11 -> StarOf Item t -> isChordLike (spell j p ++ t) = true.
Proof.
  intros Hj Ht. apply isChordLike_spec.
  destruct (spell_shape j p Hj) as (L & HL & [->|(a & Ha & ->)]).
  - exists L, [], t. repeat split; auto. left. exact HL.
  - exists L, [a], t. repeat split; auto; [left; exact HL|].
    right. exists a. split; [reflexivity|]. unfold accidental. lia.
Qed.

(** Transposing a chord-like symbol without "/" gives a chord-like
    symbol without "/". *)
Lemma transposeChordSymbol_chordLike sp steps p :
  isChordLike sp = true -> includes (lit "/") sp = false ->
  isChordLike (transposeChordSymbol sp steps p) = true.
Proof.
  intros Hc Hs. destruct (chordLike_parse sp Hc Hs) as (r & t & E & Ht).
  rewrite (transposeChordSymbol_plain sp steps p Hs), E.
  destruct (parseRoot_inv _ _ _ E) as (_ & Hr & _).
  destruct (allRoots_recognized r Hr) as (idx & Hidx).
  rewrite (transposeNote_spell r steps p idx Hidx).
  apply chordLike_spell_tail; [|exact Ht].
  apply movedIndex_range.
Qed.

Lemma chordLike_slash_free_tail sp :
  isChordLike sp = true -> includes (lit "/") sp = false ->
  rootPitchClass sp <> None.
Proof.
  intros Hc Hs. destruct (chordLike_parse sp Hc Hs) as (r & t & E & _).
  rewrite rootPitchClass_parse, E.
  destruct (parseRoot_inv _ _ _ E) as (_ & Hr & _).
  destruct (allRoots_recognized r Hr) as (idx & ->). discriminate.
Qed.

End ChordLikeImages.

Section Preserved.
Import JS Spec Transpose.

(** A property of code units that the spellings and "/" have. *)
Variable P : Z -> Prop.
Hypothesis P_spelling : forall c, 65 <= c <= 71 \/ c = 35 \/ c = 98 -> P c.
Hypothesis P_slash : P 47.

Lemma spell_forall j p : 0 <= j <= 11 -> Forall P (spell j p).
Proof.
  intros Hj. destruct (spell_shape j p Hj) as (L & HL & [->|(a & Ha & ->)]);
    repeat (apply Forall_cons; [apply P_spelling; lia|]); apply Forall_nil.
Qed.

Lemma transposeChordSymbol_plain_forall sym steps p :
  includes (lit "/") sym = false -> Forall P sym ->
  Forall P (transposeChordSymbol sym steps p).
Proof.
  intros Hs H. rewrite (transposeChordSymbol_plain sym steps p Hs).
  destruct (parseRoot sym) as [[r t]|] eqn:E; [|exact H].
  destruct (parseRoot_inv _ _ _ E) as (-> & Hr & _).
  apply Forall_app in H. destruct H as [_ Ht].
  destruct (allRoots_recognized r Hr) as (idx & Hidx).
  rewrite (transposeNote_spell r steps p idx Hidx).
  apply Forall_app. split; [|exact Ht].
  apply spell_forall, movedIndex_range.
Qed.

Lemma splitOn_forall c : forall s cur,
  Forall P cur -> Forall P s -> Forall (Forall P) (splitOn c cur s).
Proof.
  induction s as [|a tl IH]; intros cur Hc Hs; simpl.
  - constructor; [exact Hc | constructor].
  - inversion Hs; subst. destruct (c =? a).
    + constructor; [exact Hc | apply IH; [constructor | assumption]].
    + apply IH; [|assumption]. apply Forall_app. split; [exact Hc|].
      constructor; [assumption | constructor].
Qed.

Lemma transposeChordSymbol_forall sym steps p :
  Forall P sym -> Forall P (transposeChordSymbol sym steps p).
Proof.
  intros H. destruct (includes (lit "/") sym) eqn:Hs.
  - destruct (transposeChordSymbol_slash sym steps p Hs)
      as (top & bass & more & E & Ht & Hb & ->).
    change (lit "/") with [47] in E. rewrite splitStr_char in E.
    pose proof (splitOn_forall 47 sym [] (Forall_nil _) H) as Hp. rewrite E in Hp.
    inversion Hp as [|? ? Htop Hp']; subst. inversion Hp' as [|? ? Hbass _]; subst.
    apply Forall_app. split; [apply transposeChordSymbol_plain_forall; assumption|].
    change (lit "/") with [47]. constructor; [exact P_slash|].
    apply transposeChordSymbol_plain_forall; assumption.
  - apply transposeChordSymbol_plain_forall; assumption.
Qed.

Lemma image_forall steps p span : Forall P span -> Forall P (image steps p span).
Proof.
  intros H. unfold image. destruct (isChordLike span); [|exact H].
  apply transposeChordSymbol_forall. exact H.
Qed.

End Preserved.

Section ImageFacts.
Import JS Spec Transpose.

Lemma image_wsFree steps p span :
  Forall (fun c => isSpace c = false) span ->
  Forall (fun c => isSpace c = false) (image steps p span).
Proof.
  apply image_forall; [|reflexivity].
  intros c Hc. apply itemChar_not_space. unfold itemChar. lia.
Qed.

Lemma image_punctFree steps p span :
  Forall (fun c => isPunct c = false) span ->
  Forall (fun c => isPunct c = false) (image steps p span).
Proof.
  apply image_forall; [|reflexivity].
  intros c Hc. apply itemChar_not_punct. unfold itemChar. lia.
Qed.

Lemma forall_existsb_false (f : Z -> bool) l :
  Forall (fun c => f c = false) l <-> existsb f l = false.
Proof.
  induction l as [|a l IH]; simpl.
  - split; [reflexivity | constructor].
  - rewrite orb_false_iff, <- IH. split.
    + intros H. inversion H; auto.
    + intros [Ha Hl]. constructor; assumption.
Qed.

Lemma transposeChordSymbol_slashFree sym steps p :
  includes (lit "/") sym = false ->
  includes (lit "/") (transposeChordSymbol sym steps p) = false.
Proof.
  intros Hs. change (lit "/") with [47] in *. rewrite includes_char in *.
  apply forall_existsb_false. apply forall_existsb_false in Hs.
  apply (transposeChordSymbol_plain_forall (fun c => (47 =? c) = false)).
  - intros c Hc. lia.
  - change (lit "/") with [47]. rewrite includes_char.
    apply forall_existsb_false. exact Hs.
  - exact Hs.
Qed.

Lemma transposeChordSymbol_nonempty sym steps p :
  sym <> [] -> transposeChordSymbol sym steps p <> [].
Proof.
  intros Hne. destruct (includes (lit "/") sym) eqn:Hs.
  - destruct (transposeChordSymbol_slash sym steps p Hs)
      as (top & bass & more & _ & _ & _ & ->).
    destruct (transposeChordSymbol top steps p); discriminate.
  - rewrite (transposeChordSymbol_plain sym steps p Hs).
    destruct (parseRoot sym) as [[r t]|] eqn:E; [|exact Hne].
    destruct (parseRoot_inv _ _ _ E) as (_ & Hr & _).
    destruct (allRoots_recognized r Hr) as (idx & Hidx).
    rewrite (transposeNote_spell r steps p idx Hidx).
    destruct (spell_shape _ p (movedIndex_range idx steps)) as (L & _ & [->|(a & _ & ->)]); discriminate.
Qed.

Lemma image_nonempty steps p span : span <> [] -> image steps p span <> [].
Proof.
  intros H. unfold image. destruct (isChordLike span); [|exact H].
  apply transposeChordSymbol_nonempty. exact H.
Qed.

End ImageFacts.



Section WhitespaceTokens.
Import JS Spec Transpose.

(** A greedy star over a class, with a continuation that always
    answers, takes the whole run. *)
Lemma starLoop_class_run ic c (m : mstate -> cont -> option mstate)
  (g : mstate -> mstate) :
  (forall st k, m st k = match rest st with
                         | [] => None
                         | ch :: tl => if cmatch ic c ch then k (advance st tl) else None
                         end) ->
  forall run rst fuel p cs,
    Forall (fun ch => cmatch ic c ch = true) run ->
    match rst with [] => True | ch :: _ => cmatch ic c ch = false end ->
    (List.length (run ++ rst) <= fuel)%nat ->
    starLoop m (fun st => Some (g st)) fuel {| pos := p; rest := run ++ rst; caps := cs |}
    = Some (g {| pos := (p + List.length run)%nat; rest := rst; caps := cs |}).
Proof.
  intros Hm. induction run as [|ch run IH]; intros rst fuel p cs Hrun Hrst Hf.
  - simpl. replace (p + 0)%nat with p by lia.
    destruct fuel; [reflexivity|]. simpl. rewrite Hm. cbn [rest].
    destruct rst as [|ch tl]; [reflexivity|]. rewrite Hrst. reflexivity.
  - inversion Hrun; subst.
    destruct fuel as [|fuel]; [simpl in Hf; lia|].
    cbn [starLoop]. rewrite Hm. cbn [rest app].
    replace (cmatch ic c ch) with true by (symmetry; assumption).
    unfold progressed, advance. cbn [pos rest caps].
    replace (p <? S p)%nat with true by (symmetry; apply Nat.ltb_lt; lia).
    rewrite IH by (try assumption; simpl in Hf; lia).
    do 3 f_equal. simpl. lia.
Qed.

Lemma matchAt_ws_run inp q w rst :
  w <> [] -> allWs w ->
  match rst with [] => True | ch :: _ => isSpace ch = false end ->
  matchAt WS_SPLIT_RE inp q (w ++ rst)
  = Some {| pos := (q + List.length w)%nat; rest := rst; caps := [(1%nat, w)] |}.
Proof.
  intros Hne Hw Hrst. destruct w as [|c w]; [congruence|]. inversion Hw; subst.
  unfold matchAt.
  cbn [rmatch body WS_SPLIT_RE rplus rspace rclass ignoreCase rest app].
  rewrite isSpace_class. replace (isSpace c) with true by (symmetry; assumption).
  unfold advance. cbn [pos rest caps].
  rewrite (starLoop_class_run false {| cranges := whiteSpace; cinvert := false |}
             _ _ (fun st k => eq_refl) w rst).
  - unfold capture. cbn [pos rest caps].
    replace (S q + List.length w - q)%nat with (List.length (c :: w)) by (cbn [List.length]; lia).
    change (c :: w ++ rst) with ((c :: w) ++ rst).
    rewrite firstn_app, Nat.sub_diag, firstn_all. cbn [firstn]. rewrite app_nil_r.
    do 2 f_equal. cbn [List.length]. lia.
  - eapply Forall_impl; [|eassumption]. intros a Ha. cbv beta.
    rewrite isSpace_class. exact Ha.
  - destruct rst; [exact I|]. rewrite isSpace_class. exact Hrst.
  - lia.
Qed.

(** Stepping over the rest of a match. *)
Lemma splitLoop_skip re inp : forall rst p q cur skip,
  (skip <= List.length rst)%nat ->
  splitLoop re inp p q cur skip rst
  = splitLoop re inp p (q + skip) cur 0 (skipn skip rst).
Proof.
  induction rst as [|c tl IH]; intros p q cur skip Hs.
  - simpl in Hs. assert (skip = 0%nat) by lia. subst. reflexivity.
  - destruct skip as [|n].
    + rewrite Nat.add_0_r. reflexivity.
    + cbn [splitLoop skipn]. rewrite IH by (simpl in Hs; lia).
      f_equal. lia.
Qed.

(** Reading a part without whitespace. *)
Lemma splitLoop_ws_part inp : forall n rst p q cur,
  wsFree n ->
  splitLoop WS_SPLIT_RE inp p q cur 0 (n ++ rst)
  = splitLoop WS_SPLIT_RE inp p (q + List.length n) (cur ++ n) 0 rst.
Proof.
  induction n as [|c n IH]; intros rst p q cur H.
  - simpl. rewrite app_nil_r, Nat.add_0_r. reflexivity.
  - inversion H; subst. cbn [splitLoop app].
    rewrite matchAt_ws_none by assumption.
    rewrite IH by assumption. rewrite <- app_assoc. f_equal. simpl. lia.
Qed.

Lemma tokens_join_head first l :
  Tokens first l ->
  first = false ->
  match join l with [] => True | ch :: _ => isSpace ch = false end.
Proof.
  intros H Hf. destruct H as [first n Hn|first n w l Hn Hne _ _ _].
  - unfold join. simpl. rewrite app_nil_r. destruct Hn; [exact I | assumption].
  - destruct Hne as [->|Hne]; [discriminate|].
    unfold join. simpl. destruct Hn; [congruence | assumption].
Qed.

(** Splitting the join of a token list gives the list back. *)
Lemma splitLoop_tokens inp first l :
  Tokens first l ->
  forall p q cur, (p <= q)%nat ->
    exists n more, l = n :: more /\
      splitLoop WS_SPLIT_RE inp p q cur 0 (join l) = (cur ++ n) :: more.
Proof.
  induction 1 as [first n Hn|first n w l Hn Hne Hw Hall Hl IH]; intros p q cur Hpq.
  - exists n, []. split; [reflexivity|]. unfold join. cbn [List.concat].
    rewrite splitLoop_ws_part by exact Hn. reflexivity.
  - exists n, (w :: l). split; [reflexivity|].
    unfold join. cbn [List.concat]. fold (join l).
    rewrite splitLoop_ws_part by exact Hn.
    destruct w as [|c w]; [congruence|].
    cbn [app splitLoop].
    change (c :: w ++ join l) with ((c :: w) ++ join l).
    rewrite (matchAt_ws_run inp _ (c :: w) (join l))
      by (try assumption; try discriminate;
          apply (tokens_join_head false l Hl eq_refl)).
    cbn [pos].
    replace (_ =? p)%nat with false by (symmetry; apply Nat.eqb_neq; cbn [List.length]; lia).
    replace (_ =? _)%nat with false by (symmetry; apply Nat.eqb_neq; cbn [List.length]; lia).
    unfold captures. cbn [body WS_SPLIT_RE ngroups rplus rspace rclass Nat.add seq map
                          group caps Nat.eqb app].
    f_equal. f_equal.
    rewrite splitLoop_skip by (rewrite length_app; cbn [List.length]; lia).
    replace (skipn _ (w ++ join l)) with (join l).
    + destruct (IH (q + List.length n + List.length (c :: w))%nat
                  (S (q + List.length n) + (q + List.length n + List.length (c :: w)
                                             - (q + List.length n) - 1))%nat
                  [] ltac:(cbn [List.length]; lia)) as (n' & more & -> & E).
      exact E.
    + replace (q + List.length n + List.length (c :: w) - (q + List.length n) - 1)%nat
        with (List.length w) by (cbn [List.length]; lia).
      rewrite skipn_app, Nat.sub_diag, skipn_all. reflexivity.
Qed.

Lemma split_tokens first l : Tokens first l -> split WS_SPLIT_RE (join l) = l.
Proof.
  intros H. destruct (join l) as [|c s] eqn:E.
  - assert (l = [[]]).
    { destruct H as [first n Hn|first n w l Hn Hne Hw _ _].
      - unfold join in E. simpl in E. rewrite app_nil_r in E. subst. reflexivity.
      - unfold join in E. simpl in E. apply app_eq_nil in E. destruct E as [_ E].
        apply app_eq_nil in E. destruct E. congruence. }
    subst. reflexivity.
  - unfold split. rewrite <- E.
    destruct (splitLoop_tokens (join l) first l H 0%nat 0%nat [] (le_n _))
      as (n & more & -> & E').
    exact E'.
Qed.

Lemma wsTokens_join : forall s inWs cur, join (wsTokens inWs cur s) = cur ++ s.
Proof.
  unfold join. induction s as [|c tl IH]; intros inWs cur; simpl.
  - destruct inWs; simpl; rewrite ?app_nil_r; reflexivity.
  - destruct (isSpace c), inWs; simpl; rewrite IH, <- ?app_assoc; reflexivity.
Qed.

Lemma wsTokens_shape : forall s,
  (forall cur first, wsFree cur -> first = true \/ cur <> [] ->
                     Tokens first (wsTokens false cur s))
  /\ (forall cur n first, wsFree n -> first = true \/ n <> [] ->
                          cur <> [] -> allWs cur ->
                          Tokens first (n :: wsTokens true cur s)).
Proof.
  induction s as [|c tl [IH1 IH2]]; split.
  - intros cur first Hc _. simpl. constructor. exact Hc.
  - intros cur n first Hn Hf Hne Hc. simpl.
    constructor; try assumption. constructor. constructor.
  - intros cur first Hc Hf. simpl. destruct (isSpace c) eqn:E.
    + apply IH2; try assumption; [discriminate | repeat constructor; exact E].
    + apply IH1.
      * apply Forall_app. split; [exact Hc | repeat constructor; exact E].
      * right. destruct cur; discriminate.
  - intros cur n first Hn Hf Hne Hc. simpl. destruct (isSpace c) eqn:E.
    + apply IH2; try assumption.
      * destruct cur; discriminate.
      * apply Forall_app. split; [exact Hc | repeat constructor; exact E].
    + constructor; try assumption.
      apply IH1; [repeat constructor; exact E | right; discriminate].
Qed.

(** The split of a text is the list of its parts and whitespace runs. *)
Lemma split_ws t :
  split WS_SPLIT_RE t = wsTokens false [] t /\ Tokens true (wsTokens false [] t).
Proof.
  assert (H : Tokens true (wsTokens false [] t))
    by (apply wsTokens_shape; [constructor | left; reflexivity]).
  split; [|exact H].
  rewrite <- (split_tokens true _ H). rewrite wsTokens_join. reflexivity.
Qed.


End WhitespaceTokens.

Section PiecesOfImages.
Import JS Spec Transpose.

Lemma splitAtPunct_run : forall run rst cur,
  existsb isPunct run = false ->
  splitAtPunct cur (run ++ rst) = splitAtPunct (cur ++ run) rst.
Proof.
  induction run as [|c run IH]; intros rst cur H.
  - simpl. rewrite app_nil_r. reflexivity.
  - cbn [existsb] in H. apply orb_false_iff in H. destruct H as [Hc Hr].
    cbn [app splitAtPunct]. rewrite Hc, IH by exact Hr.
    rewrite <- app_assoc. reflexivity.
Qed.

(** Splitting the join of a list of parts gives the list back. *)
Lemma splitAtPunct_join l : Parts l ->
  forall cur, exists n more, l = n :: more /\
    splitAtPunct cur (join l) = (cur ++ n) :: more.
Proof.
  unfold join. induction 1 as [run Hr|run c more Hr Hc _ IH]; intros cur.
  - exists run, []. split; [reflexivity|]. cbn [List.concat].
    rewrite splitAtPunct_run by exact Hr. reflexivity.
  - exists run, ([c] :: more). split; [reflexivity|]. cbn [List.concat].
    rewrite splitAtPunct_run by exact Hr. cbn [app splitAtPunct]. rewrite Hc.
    destruct (IH []) as (n' & more' & -> & E). rewrite E. reflexivity.
Qed.

Lemma parts_image steps p l : Parts l -> Parts (map (image steps p) l).
Proof.
  induction 1 as [run Hr|run c more Hr Hc _ IH]; cbn [map].
  - constructor. apply forall_existsb_false, image_punctFree.
    apply forall_existsb_false. exact Hr.
  - rewrite (image_not_chord steps p [c]) by (apply isChordLike_punct; exact Hc).
    constructor; [|exact Hc | exact IH].
    apply forall_existsb_false, image_punctFree.
    apply forall_existsb_false. exact Hr.
Qed.

Lemma parts_image_punct steps p l : Parts l ->
  existsb isPunct (join (map (image steps p) l)) = existsb isPunct (join l).
Proof.
  unfold join. induction 1 as [run Hr|run c more Hr Hc _ IH]; cbn [map List.concat].
  - rewrite !existsb_app. f_equal. rewrite Hr.
    apply forall_existsb_false, image_punctFree, forall_existsb_false, Hr.
  - rewrite (image_not_chord steps p [c]) by (apply isChordLike_punct; exact Hc).
    rewrite !existsb_app, IH. f_equal. rewrite Hr.
    apply forall_existsb_false, image_punctFree, forall_existsb_false, Hr.
Qed.

Lemma splitAtPunct_forall (P : Z -> Prop) : forall s cur,
  Forall P cur -> Forall P s -> Forall (Forall P) (splitAtPunct cur s).
Proof.
  induction s as [|c tl IH]; intros cur Hc Hs; simpl.
  - constructor; [exact Hc | constructor].
  - inversion Hs; subst. destruct (isPunct c).
    + constructor; [exact Hc|]. constructor; [repeat constructor; assumption|].
      apply IH; [constructor | assumption].
    + apply IH; [|assumption]. apply Forall_app. split; [exact Hc|].
      repeat constructor; assumption.
Qed.

Lemma pieces_forall (P : Z -> Prop) tok : Forall P tok -> Forall (Forall P) (pieces tok).
Proof.
  intros H. unfold pieces. destruct (_ && _).
  - rewrite split_punct. apply splitAtPunct_forall; [constructor | exact H].
  - constructor; [exact H | constructor].
Qed.

Lemma join_forall (P : Z -> Prop) l : Forall (Forall P) l -> Forall P (join l).
Proof.
  unfold join. induction 1; simpl; [constructor|].
  apply Forall_app. split; assumption.
Qed.

Lemma chordLike_chars s : isChordLike s = true -> Forall itemChar s.
Proof.
  intros H. apply isChordLike_spec in H.
  destruct H as (L & acc & items & -> & HL & Hacc & Hitems).
  constructor; [unfold itemChar, rootLetter in *; lia|].
  apply Forall_app. split; [|apply items_chars; exact Hitems].
  destruct Hacc as [->|(a & -> & Ha)]; [constructor|].
  apply item_chars, item_accidental, Ha.
Qed.

Lemma image_slashFree steps p span :
  includes (lit "/") span = false -> includes (lit "/") (image steps p span) = false.
Proof.
  intros H. unfold image. destruct (isChordLike span); [|exact H].
  apply transposeChordSymbol_slashFree. exact H.
Qed.

(** The token [maybeTransposeToken] returns splits into the images of
    the pieces of the token it was given. *)
Lemma pieces_maybeTransposeToken tok steps p :
  pieces (maybeTransposeToken tok steps p) = map (image steps p) (pieces tok).
Proof.
  rewrite maybeTransposeToken_image.
  unfold pieces at 2 3. rewrite test_punct.
  destruct (existsb isPunct tok && negb (includes (lit "/") tok)) eqn:E.
  - apply andb_prop in E. destruct E as [Hp Hs]. apply negb_true_iff in Hs.
    rewrite split_punct.
    pose proof (splitAtPunct_parts tok [] eq_refl) as HP.
    assert (Hj : join (splitAtPunct [] tok) = tok)
      by (rewrite <- split_punct; apply split_join, whole_capture_punct).
    unfold pieces. rewrite test_punct, parts_image_punct, Hj, Hp by exact HP.
    replace (includes (lit "/") (join (map (image steps p) (splitAtPunct [] tok))))
      with false.
    + cbn [andb negb]. rewrite split_punct.
      destruct (splitAtPunct_join _ (parts_image steps p _ HP) [])
        as (n & more & E1 & E2).
      rewrite E2, E1. reflexivity.
    + symmetry. change (lit "/") with [47] in *. rewrite includes_char in *.
      apply forall_existsb_false. apply join_forall. apply Forall_map.
      apply forall_existsb_false in Hs.
      pose proof (splitAtPunct_forall _ tok [] (Forall_nil _) Hs) as Hall.
      eapply Forall_impl; [|exact Hall]. intros part Hpart. cbv beta.
      apply forall_existsb_false. rewrite <- includes_char.
      change [47] with (lit "/"). apply image_slashFree.
      change (lit "/") with [47]. rewrite includes_char.
      apply forall_existsb_false. exact Hpart.
  - cbn [map]. unfold join. cbn [List.concat]. rewrite app_nil_r.
    unfold pieces. rewrite test_punct.
    replace (existsb isPunct (image steps p tok)
             && negb (includes (lit "/") (image steps p tok))) with false;
      [reflexivity|].
    symmetry. unfold image. destruct (isChordLike tok) eqn:Ec; [|exact E].
    replace (existsb isPunct (transposeChordSymbol tok steps p)) with false;
      [reflexivity|].
    symmetry. apply forall_existsb_false.
    apply (transposeChordSymbol_forall (fun c => isPunct c = false)).
    + intros c Hc. apply itemChar_not_punct. unfold itemChar. lia.
    + reflexivity.
    + eapply Forall_impl; [|apply chordLike_chars; exact Ec].
      intros c Hc. apply itemChar_not_punct. exact Hc.
Qed.

Lemma maybeTransposeToken_wsFree tok steps p :
  wsFree tok -> wsFree (maybeTransposeToken tok steps p).
Proof.
  intros H. rewrite maybeTransposeToken_image. apply join_forall, Forall_map.
  eapply Forall_impl; [|apply pieces_forall; exact H].
  intros part Hp. apply image_wsFree. exact Hp.
Qed.

Lemma maybeTransposeToken_nonempty tok steps p :
  tok <> [] -> maybeTransposeToken tok steps p <> [].
Proof.
  intros Hne. rewrite maybeTransposeToken_image. unfold pieces. rewrite test_punct.
  destruct (existsb isPunct tok && negb (includes (lit "/") tok)) eqn:E.
  - apply andb_prop in E. destruct E as [Hp _].
    rewrite split_punct.
    pose proof (splitAtPunct_parts tok [] eq_refl) as HP.
    assert (Hj : join (splitAtPunct [] tok) = tok)
      by (rewrite <- split_punct; apply split_join, whole_capture_punct).
    pose proof (parts_image_punct steps p _ HP) as Hi. rewrite Hj, Hp in Hi.
    intros E0. rewrite E0 in Hi. discriminate.
  - cbn [map]. unfold join. cbn [List.concat]. rewrite app_nil_r.
    apply image_nonempty. exact Hne.
Qed.

Lemma maybeTransposeToken_ws tok steps p :
  tok <> [] -> allWs tok -> maybeTransposeToken tok steps p = tok.
Proof.
  intros Hne H. unfold maybeTransposeToken.
  rewrite (proj2 (test_ws_only tok) (conj Hne H)). rewrite orb_true_r. reflexivity.
Qed.

Lemma tokens_map first l steps p :
  Tokens first l -> Tokens first (map (fun tok => maybeTransposeToken tok steps p) l).
Proof.
  induction 1 as [first n Hn|first n w l Hn Hne Hw Hall _ IH]; cbn [map].
  - constructor. apply maybeTransposeToken_wsFree. exact Hn.
  - rewrite (maybeTransposeToken_ws w) by assumption.
    constructor; try assumption.
    + apply maybeTransposeToken_wsFree. exact Hn.
    + destruct Hne as [Hf|Hne]; [left; exact Hf | right].
      apply maybeTransposeToken_nonempty. exact Hne.
Qed.

(** The spans of the transposed text are the images of the spans of the
    text. *)
Lemma spans_transposeChordText t steps p :
  spans (transposeChordText t steps p) = map (image steps p) (spans t).
Proof.
  unfold spans, transposeChordText.
  destruct (split_ws t) as [E H]. rewrite E.
  rewrite (split_tokens true _ (tokens_map true _ steps p H)).
  generalize (wsTokens false [] t). intros l.
  induction l as [|tok l IH]; cbn [map flat_map]; [reflexivity|].
  rewrite map_app, IH, pieces_maybeTransposeToken. reflexivity.
Qed.

End PiecesOfImages.

Section TextRoundTrip.
Import JS Spec Transpose.

Lemma chordLike_join_slash a b :
  isChordLike a = true -> isChordLike b = true ->
  isChordLike (a ++ lit "/" ++ b) = true.
Proof.
  intros Ha Hb. apply isChordLike_spec in Ha, Hb. apply isChordLike_spec.
  destruct Ha as (L & acc & items & -> & HL & Hacc & Hitems).
  destruct Hb as (L2 & acc2 & items2 & -> & HL2 & Hacc2 & Hitems2).
  exists L, acc, (items ++ [47] ++ [L2] ++ acc2 ++ items2).
  split; [change (lit "/") with [47]; simpl; rewrite <- !app_assoc; reflexivity|].
  split; [exact HL|]. split; [exact Hacc|].
  apply starOf_app; [exact Hitems|].
  apply starOf_app; [apply starOf_one; [apply item_slash | discriminate]|].
  apply starOf_app; [apply starOf_one; [apply item_rootLetter, HL2 | discriminate]|].
  apply starOf_app; [|exact Hitems2].
  destruct Hacc2 as [->|(a & -> & Ha)]; [constructor|].
  apply starOf_one; [apply item_accidental, Ha | discriminate].
Qed.

Lemma splitStr_halves x y :
  includes (lit "/") x = false -> includes (lit "/") y = false ->
  includes (lit "/") (x ++ lit "/" ++ y) = true
  /\ splitStr (lit "/") (x ++ lit "/" ++ y) = [x; y].
Proof.
  change (lit "/") with [47]. rewrite !includes_char. intros Hx Hy. split.
  - rewrite existsb_app. simpl. apply orb_true_r.
  - rewrite splitStr_char. cbn [app]. rewrite splitOn_app by exact Hx.
    rewrite splitOn_free by exact Hy. reflexivity.
Qed.

Lemma rootsOfSymbol_halves x y :
  includes (lit "/") x = false -> includes (lit "/") y = false ->
  rootsOfSymbol (x ++ lit "/" ++ y) = [rootPitchClass x; rootPitchClass y].
Proof.
  intros Hx Hy. destruct (splitStr_halves x y Hx Hy) as [Hi Hs].
  unfold rootsOfSymbol. rewrite Hi, Hs. reflexivity.
Qed.

(** ** Steps that move every index alike *)

Lemma transposeNote_sameMoves n s s' p :
  sameMoves s s' -> transposeNote n s p = transposeNote n s' p.
Proof.
  intros H. unfold transposeNote. destruct (normNote n) as [note|]; [|reflexivity].
  destruct (indexOf note) as [idx|] eqn:E; [|reflexivity].
  cbv zeta. rewrite !chooseSpelling_spell, !rem12, !Z.mod_mod by lia.
  f_equal. apply (H idx), (indexOf_range note), E.
Qed.

Lemma transposeChordSymbolF_sameMoves fuel : forall symbol s s' p,
  sameMoves s s' ->
  transposeChordSymbolF fuel symbol s p = transposeChordSymbolF fuel symbol s' p.
Proof.
  induction fuel as [|fuel IH]; intros symbol s s' p H; [reflexivity|].
  cbn [transposeChordSymbolF]. destruct (includes (lit "/") symbol).
  - rewrite !(IH _ s s' p H). reflexivity.
  - destruct (exec CHORD_RE symbol) as [[i m]|]; [|reflexivity].
    rewrite (transposeNote_sameMoves _ s s' p H). reflexivity.
Qed.

Lemma image_sameMoves s s' p span :
  sameMoves s s' -> image s p span = image s' p span.
Proof.
  intros H. unfold image, transposeChordSymbol.
  rewrite (transposeChordSymbolF_sameMoves _ _ s s' p H). reflexivity.
Qed.

Lemma transposeChordText_sameMoves t s s' p :
  sameMoves s s' -> transposeChordText t s p = transposeChordText t s' p.
Proof.
  intros H. rewrite !transposeChordText_spans. f_equal. apply map_ext.
  intros span. apply image_sameMoves, H.
Qed.

Lemma sameMoves_exact s s' :
  exactSteps s -> exactSteps s' -> (s - s') mod 12 = 0 -> sameMoves s s'.
Proof.
  intros Hs Hs' H idx Hi. rewrite !movedIndex_exact by assumption.
  revert H. Z.to_euclidean_division_equations. lia.
Qed.

Lemma sameMoves_mod s : exactSteps s -> sameMoves s (s mod 12).
Proof.
  intros Hs. pose proof (Z.mod_pos_bound s 12 ltac:(lia)) as Hm.
  apply sameMoves_exact; [exact Hs | apply exactSteps_small; lia|].
  Z.to_euclidean_division_equations. lia.
Qed.

Lemma sameMoves_opp_mod s : exactSteps s -> sameMoves (- s) (- (s mod 12)).
Proof.
  intros Hs. pose proof (Z.mod_pos_bound s 12 ltac:(lia)) as Hm.
  apply sameMoves_exact; [apply exactSteps_opp, Hs | apply exactSteps_small; lia|].
  Z.to_euclidean_division_equations. lia.
Qed.

(** A round trip is the round trip by the steps reduced modulo 12. *)
Lemma round_trip_mod t s p :
  exactSteps s ->
  transposeChordText (transposeChordText t s p) (- s) p
  = transposeChordText (transposeChordText t (s mod 12) p) (- (s mod 12)) p.
Proof.
  intros Hs.
  rewrite (transposeChordText_sameMoves t s (s mod 12) p (sameMoves_mod s Hs)).
  apply transposeChordText_sameMoves, sameMoves_opp_mod, Hs.
Qed.

(** ** What a spelling in front of a tail is read as *)

Lemma steadyPart_parse x :
  steadyPart x
  = match parseRoot x with
    | Some (r, t) =>
        match pitchClassOf r with Some idx => steadyTail idx t | None => true end
    | None => true
    end.
Proof.
  unfold steadyPart. rewrite exec_CHORD_RE.
  destruct (parseRoot x) as [[r t]|]; reflexivity.
Qed.

Lemma forallb_tail (f : Z -> bool) a l : forallb f (a :: l) = true -> forallb f l = true.
Proof. cbn [forallb]. intros H. apply andb_prop in H. apply H. Qed.

Lemma parseRoot_spell_any j p t :
  0 <= j <= 11 -> forallb tailChar t = true ->
  parseRoot (spell j p ++ t)
  = match t with
    | a :: t' => if isNatural j && isAccidentalb a
                 then Some (spell j p ++ [a], t')
                 else Some (spell j p, t)
    | [] => Some (spell j p, [])
    end.
Proof.
  intros Hj Ht.
  assert (Ht' : match t with _ :: t' => forallb tailChar t' = true | [] => True end)
    by (destruct t; [exact I | exact (forallb_tail _ _ _ Ht)]).
  enum12 j; destruct p;
    cbv [spell SHARPS FLATS nth Z.to_nat Pos.to_nat Pos.iter_op Nat.add map lit
         list_ascii_of_string N_of_ascii N_of_digits Z.of_N N.add N.mul app
         isNatural existsb Z.eqb Pos.eqb orb andb];
    unfold parseRoot; cbn [parseWith];
    repeat match goal with
           | |- context [isRootLetterb ?c] =>
               change (isRootLetterb c) with true; cbv iota
           | |- context [isAccidentalb 35] =>
               change (isAccidentalb 35) with true; cbv iota
           | |- context [isAccidentalb 98] =>
               change (isAccidentalb 98) with true; cbv iota
           end;
    try (rewrite Ht; destruct t as [|a tl]; reflexivity);
    (destruct t as [|a tl]; [reflexivity|];
     destruct (isAccidentalb a); [rewrite Ht' | rewrite Ht]; reflexivity).
Qed.

Lemma pitchClassOf_spell_acc j p a :
  0 <= j <= 11 -> isNatural j = true -> isAccidentalb a = true ->
  pitchClassOf (spell j p ++ [a]) = Some ((j + shift a) mod 12).
Proof.
  intros Hj Hn Ha.
  assert (E : a = 35 \/ a = 98 \/ a = 66) by (unfold isAccidentalb in Ha; lia).
  enum12 j; try discriminate Hn;
    destruct p; destruct E as [->|[->| ->]]; reflexivity.
Qed.

Lemma readBack_range j t : 0 <= j <= 11 -> 0 <= fst (readBack j t) <= 11.
Proof.
  intros Hj. unfold readBack. destruct t as [|a t']; [exact Hj|].
  destruct (isNatural j && isAccidentalb a); [|exact Hj].
  cbn [fst]. pose proof (Z.mod_pos_bound (j + shift a) 12). lia.
Qed.

Lemma readBack_tail j t :
  forallb tailChar t = true -> forallb tailChar (snd (readBack j t)) = true.
Proof.
  intros Ht. unfold readBack. destruct t as [|a t']; [reflexivity|].
  destruct (isNatural j && isAccidentalb a); [|exact Ht].
  exact (forallb_tail _ _ _ Ht).
Qed.

Lemma readBack_rest j t :
  snd (readBack j t) = t
  \/ exists a, isAccidentalb a = true /\ t = a :: snd (readBack j t).
Proof.
  unfold readBack. destruct t as [|a t']; [left; reflexivity|].
  destruct (isNatural j && isAccidentalb a) eqn:E; [|left; reflexivity].
  right. exists a. apply andb_prop in E. split; [apply E | reflexivity].
Qed.

(** [readBack] is what the pattern and [normNote] find. *)
Lemma readBack_spec j p t :
  0 <= j <= 11 -> forallb tailChar t = true ->
  exists r, parseRoot (spell j p ++ t) = Some (r, snd (readBack j t))
            /\ pitchClassOf r = Some (fst (readBack j t)).
Proof.
  intros Hj Ht. rewrite (parseRoot_spell_any j p t Hj Ht). unfold readBack.
  destruct t as [|a t'].
  - exists (spell j p). split; [reflexivity | apply spell_pitchClass, Hj].
  - destruct (isNatural j && isAccidentalb a) eqn:E.
    + apply andb_prop in E. destruct E as [En Ea].
      exists (spell j p ++ [a]). split; [reflexivity|].
      apply pitchClassOf_spell_acc; assumption.
    + exists (spell j p). split; [reflexivity | apply spell_pitchClass, Hj].
Qed.

Lemma spell_slashFree j p t :
  0 <= j <= 11 -> forallb tailChar t = true ->
  includes (lit "/") (spell j p ++ t) = false.
Proof.
  intros Hj Ht.
  assert (Hs : includes (lit "/") t = false) by (apply tailChar_no_slash, Ht).
  change (lit "/") with [47] in *. rewrite includes_char in *.
  rewrite existsb_app, Hs, orb_false_r.
  destruct (spell_shape j p Hj) as (L & HL & [->|(a & Ha' & ->)]);
    cbn [existsb]; lia.
Qed.

(** The round trip of a symbol without "/" that has a root: both ways
    the new root stands before what the pattern took for the tail. *)
Lemma part_round_trip x s p r t idx :
  includes (lit "/") x = false ->
  parseRoot x = Some (r, t) -> pitchClassOf r = Some idx ->
  let x1 := transposeChordSymbol x s p in
  let x2 := transposeChordSymbol x1 (- s) p in
  let back := readBack (movedIndex idx s) t in
  x1 = spell (movedIndex idx s) p ++ t
  /\ includes (lit "/") x1 = false
  /\ x2 = spell (movedIndex (fst back) (- s)) p ++ snd back
  /\ includes (lit "/") x2 = false
  /\ rootPitchClass x2 = Some (tripRoot idx s t).
Proof.
  intros Hs E Hr x1 x2 back.
  destruct (parseRoot_inv _ _ _ E) as (_ & _ & Ht).
  pose proof (movedIndex_range idx s) as Hj.
  assert (E1 : x1 = spell (movedIndex idx s) p ++ t).
  { unfold x1. rewrite (transposeChordSymbol_plain x s p Hs), E.
    rewrite (transposeNote_spell r s p idx Hr). reflexivity. }
  assert (S1 : includes (lit "/") x1 = false)
    by (apply transposeChordSymbol_slashFree, Hs).
  destruct (readBack_spec _ p t Hj Ht) as (r1 & P1 & C1). fold back in P1, C1.
  pose proof (readBack_tail (movedIndex idx s) t Ht) as Ht2. fold back in Ht2.
  pose proof (movedIndex_range (fst back) (- s)) as Hk.
  assert (E2 : x2 = spell (movedIndex (fst back) (- s)) p ++ snd back).
  { unfold x2. rewrite (transposeChordSymbol_plain x1 (- s) p S1), E1, P1.
    rewrite (transposeNote_spell r1 (- s) p _ C1). reflexivity. }
  split; [exact E1|]. split; [exact S1|]. split; [exact E2|].
  split; [rewrite E2; apply spell_slashFree; assumption|].
  destruct (readBack_spec _ p (snd back) Hk Ht2) as (r2 & P2 & C2).
  rewrite E2, rootPitchClass_parse, P2, C2. reflexivity.
Qed.

(** ** The tails that come back *)

Lemma movedIndex_back_shift idx s d :
  0 <= idx <= 11 -> exactSteps s ->
  movedIndex ((movedIndex idx s + d) mod 12) (- s) = (idx + d) mod 12.
Proof.
  intros Hi Hs.
  rewrite (movedIndex_exact _ (- s));
    [|pose proof (Z.mod_pos_bound (movedIndex idx s + d) 12); lia
     |apply exactSteps_opp, Hs].
  rewrite (movedIndex_exact idx s Hi Hs).
  Z.to_euclidean_division_equations. lia.
Qed.

Ltac by_class a :=
  let E1 := fresh in let E2 := fresh in let E3 := fresh in
  destruct (a =? 66) eqn:E1;
    [apply Z.eqb_eq in E1; subst a
    |destruct (a =? 35) eqn:E2;
       [apply Z.eqb_eq in E2; subst a
       |destruct (a =? 98) eqn:E3;
          [apply Z.eqb_eq in E3; subst a|]]].

Lemma readBack_plain j a t :
  (a =? 66) = false -> (a =? 35) = false -> (a =? 98) = false ->
  readBack j (a :: t) = (j, a :: t).
Proof.
  intros A B C. unfold readBack, isAccidentalb. rewrite A, B, C.
  rewrite andb_false_r. reflexivity.
Qed.

Lemma readBack_natural j a t :
  isNatural j = false -> readBack j (a :: t) = (j, a :: t).
Proof. intros H. unfold readBack. rewrite H. reflexivity. Qed.

Lemma readBack_accidental j a t :
  isNatural j = true -> isAccidentalb a = true ->
  readBack j (a :: t) = ((j + shift a) mod 12, t).
Proof. intros H Ha. unfold readBack. rewrite H, Ha. reflexivity. Qed.

(** The second reading, when the first one left the root alone. *)
Lemma tripRoot_direct idx s t :
  0 <= idx <= 11 -> exactSteps s ->
  readBack (movedIndex idx s) t = (movedIndex idx s, t) ->
  tripRoot idx s t = fst (readBack idx t).
Proof.
  intros Hi Hs E. unfold tripRoot. rewrite E. cbn [fst snd].
  rewrite movedIndex_back by assumption. reflexivity.
Qed.

(** The second reading, when the first one took an accidental in. *)
Lemma tripRoot_taken idx s a t :
  0 <= idx <= 11 -> exactSteps s ->
  isNatural (movedIndex idx s) = true -> isAccidentalb a = true ->
  tripRoot idx s (a :: t) = fst (readBack ((idx + shift a) mod 12) t).
Proof.
  intros Hi Hs Hn Ha. unfold tripRoot.
  rewrite (readBack_accidental _ a t Hn Ha). cbn [fst snd].
  rewrite movedIndex_back_shift by assumption. reflexivity.
Qed.

Lemma readBack_or_not j t :
  readBack j t = (j, t)
  \/ exists a t', t = a :: t' /\ isNatural j = true /\ isAccidentalb a = true.
Proof.
  unfold readBack. destruct t as [|a t']; [left; reflexivity|].
  destruct (isNatural j && isAccidentalb a) eqn:E; [|left; reflexivity].
  apply andb_prop in E. right. exists a, t'. split; [reflexivity | exact E].
Qed.

Lemma isNatural_next idx :
  0 <= idx <= 11 -> isNatural idx = false ->
  isNatural ((idx + 1) mod 12) = true /\ isNatural ((idx + -1) mod 12) = true.
Proof. intros Hi. enum12 idx; intros H; try discriminate H; split; reflexivity. Qed.

Lemma steady_comes_back idx s t :
  0 <= idx <= 11 -> exactSteps s -> steadyTail idx t = true ->
  tripRoot idx s t = idx.
Proof.
  intros Hi Hs Hst.
  destruct (readBack_or_not (movedIndex idx s) t) as [E|(a & t' & -> & Hn & Ha)].
  - (* the way there leaves the root alone *)
    rewrite (tripRoot_direct idx s t Hi Hs E).
    destruct (readBack_or_not idx t) as [-> |(a & t' & -> & Hn & Ha)]; [reflexivity|].
    rewrite (readBack_accidental idx a t' Hn Ha). cbn [fst].
    cbn [steadyTail] in Hst. rewrite Hn in Hst.
    by_class a; cbn [negb andb] in Hst; try discriminate Hst.
    + unfold shift. cbn. rewrite Z.add_0_r. apply Z.mod_small. lia.
    + unfold isAccidentalb in Ha. lia.
  - (* the way there takes [a] into the root *)
    rewrite (tripRoot_taken idx s a t' Hi Hs Hn Ha).
    cbn [steadyTail] in Hst.
    by_class a.
    + (* "B" *)
      change (shift 66) with 0. rewrite Z.add_0_r, Z.mod_small by lia.
      destruct (readBack_or_not idx t') as [-> |(d & t'' & -> & Hn' & Hd)];
        [reflexivity|].
      rewrite (readBack_accidental idx d t'' Hn' Hd). cbn [fst].
      rewrite Hn' in Hst. cbn [startsWith andb] in Hst.
      apply negb_true_iff in Hst. unfold isSharpOrFlat in Hst.
      assert (d = 66) by (unfold isAccidentalb in Hd; lia). subst d.
      change (shift 66) with 0. rewrite Z.add_0_r. apply Z.mod_small. lia.
    + (* "#" *)
      apply andb_prop in Hst. destruct Hst as [Hnat Hnext].
      apply negb_true_iff in Hnat.
      destruct t' as [|d t'']; [discriminate Hnext|]. cbn [startsWith] in Hnext.
      apply Z.eqb_eq in Hnext. subst d. change (shift 35) with 1.
      destruct (isNatural_next idx Hi Hnat) as [N1 _].
      rewrite (readBack_accidental _ 98 t'' N1 eq_refl). cbn [fst].
      change (shift 98) with (-1).
      revert Hi. clear. intros Hi. Z.to_euclidean_division_equations. lia.
    + (* "b" *)
      apply andb_prop in Hst. destruct Hst as [Hnat Hnext].
      apply negb_true_iff in Hnat.
      destruct t' as [|d t'']; [discriminate Hnext|]. cbn [startsWith] in Hnext.
      apply Z.eqb_eq in Hnext. subst d. change (shift 98) with (-1).
      destruct (isNatural_next idx Hi Hnat) as [_ N1].
      rewrite (readBack_accidental _ 35 t'' N1 eq_refl). cbn [fst].
      change (shift 35) with 1.
      revert Hi. clear. intros Hi. Z.to_euclidean_division_equations. lia.
    + unfold isAccidentalb in Ha. lia.
Qed.

Lemma isNatural_step idx :
  0 <= idx <= 11 -> isNatural idx = true ->
  exists s, 0 <= s <= 11 /\ isNatural (movedIndex idx s) = false
            /\ movedIndex (movedIndex idx s) (- s) = idx.
Proof.
  intros Hi. enum12 idx; intros H; try discriminate H;
    first [ exists 1; vm_compute; intuition congruence
          | exists 2; vm_compute; intuition congruence ].
Qed.

Lemma mod12_moved idx d : 0 <= idx <= 11 -> d = 1 \/ d = -1 \/ d = 2 \/ d = -2 ->
  (idx + d) mod 12 <> idx.
Proof. intros Hi Hd. Z.to_euclidean_division_equations. lia. Qed.

(** A tail that is not steady goes astray for one of the steps 0, 1
    and 2. *)
Lemma unsteady_goes_astray idx t :
  0 <= idx <= 11 -> steadyTail idx t = false ->
  exists s, 0 <= s <= 11 /\ tripRoot idx s t <> idx.
Proof.
  intros Hi Hst. destruct t as [|c t']; [discriminate Hst|].
  cbn [steadyTail] in Hst.
  assert (Ex1 : exactSteps 1) by (apply exactSteps_small; lia).
  assert (Ex0 : exactSteps 0) by (apply exactSteps_small; lia).
  by_class c.
  - (* "B": the pitch class is a natural one, and "#" or "b" follows *)
    apply negb_false_iff, andb_prop in Hst. destruct Hst as [Hn Hd].
    destruct t' as [|d t'']; [discriminate Hd|]. cbn [startsWith] in Hd.
    exists 0. split; [lia|].
    assert (E0 : movedIndex idx 0 = idx)
      by (rewrite movedIndex_small by lia; rewrite Z.add_0_r; apply Z.mod_small; lia).
    rewrite (tripRoot_taken idx 0 66 (d :: t'') Hi Ex0)
      by (rewrite ?E0; first [exact Hn | reflexivity]).
    change (shift 66) with 0. rewrite Z.add_0_r, Z.mod_small by lia.
    assert (Ha : isAccidentalb d = true)
      by (unfold isSharpOrFlat in Hd; unfold isAccidentalb; lia).
    rewrite (readBack_accidental idx d t'' Hn Ha). cbn [fst].
    apply mod12_moved; [exact Hi|]. unfold shift, isSharpOrFlat in *.
    destruct (d =? 35); [auto|]. destruct (d =? 98); [auto | discriminate Hd].
  - (* "#" *)
    destruct (isNatural idx) eqn:Hn.
    + destruct (isNatural_step idx Hi Hn) as (s & Hs & Hj & Hback).
      exists s. split; [exact Hs|]. unfold tripRoot.
      rewrite (readBack_natural _ 35 t' Hj). cbn [fst snd]. rewrite Hback.
      rewrite (readBack_accidental idx 35 t' Hn eq_refl). cbn [fst].
      apply mod12_moved; [exact Hi | auto].
    + cbn [negb andb] in Hst. exists 1. split; [lia|].
      destruct (isNatural_next idx Hi Hn) as [N1 _].
      rewrite (tripRoot_taken idx 1 35 t' Hi Ex1)
        by (rewrite ?movedIndex_small by lia; first [exact N1 | reflexivity]).
      change (shift 35) with 1.
      destruct (readBack_or_not ((idx + 1) mod 12) t')
        as [-> |(d & t'' & -> & _ & Hd)].
      * cbn [fst]. apply mod12_moved; [exact Hi | auto].
      * rewrite (readBack_accidental _ d t'' N1 Hd). cbn [fst].
        cbn [startsWith] in Hst. unfold shift, isAccidentalb in *.
        rewrite Z.eqb_sym in Hst. rewrite Hst.
        revert Hi. clear. intros Hi.
        destruct (d =? 35); Z.to_euclidean_division_equations; lia.
  - (* "b" *)
    destruct (isNatural idx) eqn:Hn.
    + destruct (isNatural_step idx Hi Hn) as (s & Hs & Hj & Hback).
      exists s. split; [exact Hs|]. unfold tripRoot.
      rewrite (readBack_natural _ 98 t' Hj). cbn [fst snd]. rewrite Hback.
      rewrite (readBack_accidental idx 98 t' Hn eq_refl). cbn [fst].
      apply mod12_moved; [exact Hi | auto].
    + cbn [negb andb] in Hst. exists 1. split; [lia|].
      destruct (isNatural_next idx Hi Hn) as [N1 N2].
      rewrite (tripRoot_taken idx 1 98 t' Hi Ex1)
        by (rewrite ?movedIndex_small by lia; first [exact N1 | reflexivity]).
      change (shift 98) with (-1).
      destruct (readBack_or_not ((idx + -1) mod 12) t')
        as [-> |(d & t'' & -> & _ & Hd)].
      * cbn [fst]. apply mod12_moved; [exact Hi | auto].
      * rewrite (readBack_accidental _ d t'' N2 Hd). cbn [fst].
        cbn [startsWith] in Hst. unfold shift, isAccidentalb in *.
        rewrite Z.eqb_sym in Hst. rewrite Hst.
        revert Hi. clear. intros Hi.
        destruct (d =? 98); Z.to_euclidean_division_equations; lia.
  - discriminate Hst.
Qed.

(** ** Chord-likeness along the way *)

Lemma starOf_drop_accidental a t :
  isAccidentalb a = true -> StarOf Item (a :: t) -> StarOf Item t.
Proof.
  intros Ha H. inversion H as [|u v Hu Hne Hv E].
  destruct u as [|c u']; [contradiction|].
  cbn [app] in E. inversion E; subst.
  rewrite (item_accidental_single a u' Hu) by (apply isAccidentalb_iff, Ha).
  exact Hv.
Qed.

(** An item that begins with "C" is that letter alone. *)
Lemma item_C_single u : Item (67 :: u) -> u = [].
Proof.
  intros [(w & Hin & H)|[(d & E & _)|(c & E & _)]];
    [|inversion E; reflexivity | inversion E; reflexivity].
  unfold chordWords in Hin. cbn [map app In] in Hin. unfold lit in Hin. simpl in Hin.
  repeat match type of Hin with
         | _ \/ _ => destruct Hin as [Hin|Hin]
         | False => contradiction
         end; subst w;
    repeat match goal with
           | H : Forall2 eqCI (_ :: _) _ |- _ => inversion H; clear H; subst
           | H : Forall2 eqCI [] _ |- _ => inversion H; clear H; subst
           end; try reflexivity; unfold eqCI in *; lia.
Qed.

Lemma starOf_drop_C_sharp t : StarOf Item (67 :: 35 :: t) -> StarOf Item t.
Proof.
  intros H. inversion H as [|u v Hu Hne Hv E].
  destruct u as [|c u']; [contradiction|].
  cbn [app] in E. inversion E; subst.
  rewrite (item_C_single u' Hu) in *. cbn [app] in *. subst v.
  apply (starOf_drop_accidental 35); [reflexivity | exact Hv].
Qed.

Lemma chordLike_items x : isChordLike x = true -> StarOf Item x.
Proof.
  intros H. apply isChordLike_spec in H.
  destruct H as (L & acc & items & -> & HL & Hacc & Hitems).
  change (L :: acc ++ items) with ([L] ++ acc ++ items).
  apply starOf_app; [apply starOf_one; [apply item_rootLetter, HL | discriminate]|].
  apply starOf_app; [|exact Hitems].
  destruct Hacc as [->|(a & -> & Ha)]; [constructor|].
  apply starOf_one; [apply item_accidental, Ha | discriminate].
Qed.

Lemma chordLike_join_items a b :
  isChordLike a = true -> StarOf Item b -> isChordLike (a ++ lit "/" ++ b) = true.
Proof.
  intros Ha Hb. apply isChordLike_spec in Ha. apply isChordLike_spec.
  destruct Ha as (L & acc & items & -> & HL & Hacc & Hitems).
  exists L, acc, (items ++ [47] ++ b).
  split; [change (lit "/") with [47]; simpl; rewrite <- !app_assoc; reflexivity|].
  split; [exact HL|]. split; [exact Hacc|].
  apply starOf_app; [exact Hitems|].
  apply starOf_app; [apply starOf_one; [apply item_slash | discriminate]|].
  exact Hb.
Qed.

(** A root before items is a chord-like symbol. *)
Lemma chordLike_of_parse y r t :
  parseRoot y = Some (r, t) -> StarOf Item t -> isChordLike y = true.
Proof.
  unfold parseRoot, parseWith. destruct y as [|L y']; [discriminate|].
  destruct (isRootLetterb L) eqn:EL; [|discriminate].
  apply isRootLetterb_iff in EL. intros E Ht. apply isChordLike_spec.
  destruct y' as [|a tl].
  - exists L, [], []. repeat split; auto. constructor.
  - destruct (isAccidentalb a) eqn:Ea.
    + destruct (forallb tailChar tl); [|discriminate]. inversion E; subst.
      exists L, [a], t. split; [reflexivity|]. split; [exact EL|].
      split; [right; exists a; split; [reflexivity | apply isAccidentalb_iff, Ea]|].
      exact Ht.
    + destruct (forallb tailChar (a :: tl)); [|discriminate]. inversion E; subst.
      exists L, [], (a :: tl). split; [reflexivity|]. split; [exact EL|].
      split; [left; reflexivity | exact Ht].
Qed.

(** An item that holds "/" is "/" alone, so a "/" among items stands
    between items. *)
Lemma item_slash_single u : Item u -> In 47 u -> u = [47].
Proof.
  intros [(w & Hin & H)|[(d & -> & Hd)|(c & -> & Hc)]] H47;
    [| destruct H47 as [E|[]]; lia
     | destruct H47 as [E|[]]; unfold rootLetter in Hc; lia].
  unfold chordWords in Hin. cbn [map app In] in Hin. unfold lit in Hin. simpl in Hin.
  repeat match type of Hin with
         | _ \/ _ => destruct Hin as [Hin|Hin]
         | False => contradiction
         end; subst w;
    repeat match goal with
           | H : Forall2 eqCI (_ :: _) _ |- _ => inversion H; clear H; subst
           | H : Forall2 eqCI [] _ |- _ => inversion H; clear H; subst
           end;
    cbn [In] in H47; unfold eqCI in *;
    repeat match goal with
           | H : _ \/ _ |- _ => destruct H
           | H : _ /\ _ |- _ => destruct H
           | H : False |- _ => contradiction
           end; subst; try lia; try reflexivity.
Qed.

Lemma starOf_split_slash w :
  StarOf Item w ->
  forall u v, w = u ++ 47 :: v -> StarOf Item u /\ StarOf Item v.
Proof.
  induction 1 as [|i w' Hi Hne Hw IH]; intros u v E.
  - destruct u; discriminate.
  - apply app_eq_app in E. destruct E as (l & [[E1 E2]|[E1 E2]]).
    + destruct l as [|c l'].
      * cbn [app] in E2. rewrite app_nil_r in E1. subst i.
        destruct (IH [] v (eq_sym E2)) as [_ Hv].
        split; [|exact Hv].
        rewrite <- (app_nil_r u). apply star_cons; [exact Hi | exact Hne | constructor].
      * cbn [app] in E2. inversion E2 as [[Ec Ev]]. subst c.
        assert (Hs : i = [47]).
        { apply item_slash_single; [exact Hi|]. rewrite E1.
          apply in_or_app. right. left. reflexivity. }
        rewrite Hs in E1. destruct u as [|x u'].
        -- cbn [app] in E1. inversion E1 as [El].
           split; [constructor | exact Hw].
        -- cbn [app] in E1. inversion E1 as [[Ex Eu]].
           destruct u'; discriminate.
    + subst u. destruct (IH l v E2) as [Hl Hv].
      split; [apply star_cons; assumption | exact Hv].
Qed.

Lemma splitOn_inv c : forall s cur part more,
  splitOn c cur s = part :: more ->
  (more = [] /\ part = cur ++ s /\ existsb (Z.eqb c) s = false)
  \/ exists x rest, s = x ++ c :: rest /\ part = cur ++ x
                    /\ existsb (Z.eqb c) x = false /\ more = splitOn c [] rest.
Proof.
  induction s as [|a tl IH]; intros cur part more H; cbn [splitOn] in H.
  - inversion H; subst. left. rewrite app_nil_r. auto.
  - destruct (c =? a) eqn:E.
    + apply Z.eqb_eq in E. subst a. inversion H; subst. right.
      exists [], tl. rewrite app_nil_r. auto.
    + destruct (IH _ _ _ H) as [(Hm & Hp & Hf)|(x & rest & Hs & Hp & Hf & Hm)].
      * left. split; [exact Hm|]. split.
        -- rewrite Hp, <- app_assoc. reflexivity.
        -- cbn [existsb]. rewrite E, Hf. reflexivity.
      * right. exists (a :: x), rest. split; [rewrite Hs; reflexivity|].
        split; [rewrite Hp, <- app_assoc; reflexivity|].
        split; [cbn [existsb]; rewrite E, Hf; reflexivity | exact Hm].
Qed.

(** In a chord-like symbol the part before the first "/" is chord-like
    and the part after it is made of items. *)
Lemma chordLike_slash_parts sp top bass more :
  isChordLike sp = true -> splitStr (lit "/") sp = top :: bass :: more ->
  isChordLike top = true /\ StarOf Item bass.
Proof.
  intros Hc E. change (lit "/") with [47] in E. rewrite splitStr_char in E.
  destruct (splitOn_inv 47 sp [] top (bass :: more) E)
    as [(Hm & _)|(x & rest & Hs & Hp & Hf & Hm)]; [discriminate|].
  cbn [app] in Hp. subst x.
  pose proof (chordLike_items sp Hc) as Hall.
  destruct (starOf_split_slash _ Hall top rest Hs) as [_ Hrest].
  assert (Hbass : StarOf Item bass).
  { destruct (splitOn_inv 47 rest [] bass more (eq_sym Hm))
      as [(_ & Hp & _)|(x & rest2 & Hs2 & Hp & _ & _)]; cbn [app] in Hp; subst.
    - exact Hrest.
    - apply (starOf_split_slash _ Hrest _ rest2 eq_refl). }
  split; [|exact Hbass].
  apply isChordLike_spec in Hc. apply isChordLike_spec.
  destruct Hc as (L & acc & items & E0 & HL & Hacc & Hitems).
  rewrite Hs in E0. destruct top as [|L' top'].
  { cbn [app] in E0. inversion E0. unfold rootLetter in HL. lia. }
  cbn [app] in E0. inversion E0 as [[EL E1]]. subst L'.
  destruct Hacc as [->|(a & -> & Ha)].
  - cbn [app] in E1. exists L, [], top'. split; [reflexivity|].
    split; [exact HL|]. split; [left; reflexivity|].
    apply (starOf_split_slash _ Hitems top' rest (eq_sym E1)).
  - cbn [app] in E1. destruct top' as [|a' top''].
    { cbn [app] in E1. inversion E1. unfold accidental in Ha. lia. }
    cbn [app] in E1. inversion E1 as [[Ea E2]]. subst a'.
    exists L, [a], top''. split; [reflexivity|]. split; [exact HL|].
    split; [right; exists a; auto|].
    apply (starOf_split_slash _ Hitems top'' rest (eq_sym E2)).
Qed.

(** ** The round trip of a chord symbol *)

Lemma image_chord steps p span :
  isChordLike span = true -> image steps p span = transposeChordSymbol span steps p.
Proof. unfold image. intros ->. reflexivity. Qed.

Lemma rootless_image y s p :
  includes (lit "/") y = false -> parseRoot y = None ->
  transposeChordSymbol y s p = y.
Proof. intros Hs E. rewrite (transposeChordSymbol_plain y s p Hs), E. reflexivity. Qed.

(** The root of a chord-like symbol without "/". *)
Lemma chordPart_root y :
  isChordLike y = true -> includes (lit "/") y = false ->
  exists r t idx,
    parseRoot y = Some (r, t) /\ pitchClassOf r = Some idx /\ 0 <= idx <= 11
    /\ StarOf Item t /\ steadyPart y = steadyTail idx t
    /\ rootPitchClass y = Some idx.
Proof.
  intros Hc Hs.
  destruct (chordLike_parse y Hc Hs) as (r & t & E & Ht).
  destruct (parseRoot_inv _ _ _ E) as (_ & Hr & _).
  destruct (allRoots_recognized r Hr) as (idx & Hidx).
  exists r, t, idx. split; [exact E|]. split; [exact Hidx|].
  split; [apply (pitchClassOf_range r idx Hidx)|]. split; [exact Ht|].
  split; [rewrite steadyPart_parse, E, Hidx; reflexivity|].
  rewrite rootPitchClass_parse, E. exact Hidx.
Qed.

(** A chord-like symbol without "/" stays one on the round trip; its
    root comes back as [tripRoot] says. *)
Lemma chordPart_round_trip y s p r t idx :
  includes (lit "/") y = false ->
  parseRoot y = Some (r, t) -> pitchClassOf r = Some idx -> StarOf Item t ->
  let y1 := transposeChordSymbol y s p in
  let y2 := transposeChordSymbol y1 (- s) p in
  isChordLike y1 = true /\ includes (lit "/") y1 = false
  /\ isChordLike y2 = true /\ includes (lit "/") y2 = false
  /\ rootPitchClass y2 = Some (tripRoot idx s t).
Proof.
  intros Hs E Hidx Ht y1 y2.
  destruct (part_round_trip y s p r t idx Hs E Hidx) as (E1 & S1 & E2 & S2 & R).
  subst y2 y1.
  split; [rewrite E1; apply chordLike_spell_tail; [apply movedIndex_range | exact Ht]|].
  split; [exact S1|].
  split; [|split; [exact S2 | exact R]].
  rewrite E2. apply chordLike_spell_tail; [apply movedIndex_range|].
  destruct (readBack_rest (movedIndex idx s) t) as [-> |(a & Ha & Et)]; [exact Ht|].
  apply (starOf_drop_accidental a); [exact Ha|]. rewrite <- Et. exact Ht.
Qed.

(** What a reader finds after the round trip of a symbol without "/". *)
Lemma plain_class y s p r t idx :
  isChordLike y = true -> includes (lit "/") y = false ->
  parseRoot y = Some (r, t) -> pitchClassOf r = Some idx -> StarOf Item t ->
  classOf y = Some [Some idx]
  /\ classOf (image (- s) p (image s p y)) = Some [Some (tripRoot idx s t)].
Proof.
  intros Hc Hs E Hidx Ht.
  destruct (chordPart_round_trip y s p r t idx Hs E Hidx Ht)
    as (A1 & A2 & A3 & A4 & A5).
  split.
  - unfold classOf, rootsOfSymbol. rewrite Hc, Hs, rootPitchClass_parse, E, Hidx.
    reflexivity.
  - rewrite (image_chord s p y Hc), (image_chord (- s) p _ A1).
    unfold classOf, rootsOfSymbol. rewrite A3, A4, A5. reflexivity.
Qed.

(** The second part of a symbol with "/": it may have no root, and it
    need not be chord-like. *)
Lemma bass_round_trip y s p :
  includes (lit "/") y = false ->
  let y1 := transposeChordSymbol y s p in
  let y2 := transposeChordSymbol y1 (- s) p in
  includes (lit "/") y1 = false /\ includes (lit "/") y2 = false
  /\ match parseRoot y with
     | None => y1 = y /\ y2 = y /\ rootPitchClass y = None
     | Some (r, t) =>
         exists idx, 0 <= idx <= 11 /\ rootPitchClass y = Some idx
                     /\ steadyPart y = steadyTail idx t
                     /\ y1 = spell (movedIndex idx s) p ++ t
                     /\ rootPitchClass y2 = Some (tripRoot idx s t)
     end.
Proof.
  intros Hs y1 y2. destruct (parseRoot y) as [[r t]|] eqn:E.
  - destruct (parseRoot_inv _ _ _ E) as (_ & Hr & _).
    destruct (allRoots_recognized r Hr) as (idx & Hidx).
    pose proof (pitchClassOf_range r idx Hidx) as Hi.
    destruct (part_round_trip y s p r t idx Hs E Hidx) as (E1 & S1 & E2 & S2 & R).
    split; [exact S1|]. split; [exact S2|]. exists idx.
    split; [exact Hi|]. split; [rewrite rootPitchClass_parse, E; exact Hidx|].
    split; [rewrite steadyPart_parse, E, Hidx; reflexivity|].
    split; [exact E1 | exact R].
  - assert (E1 : y1 = y) by (apply rootless_image; assumption).
    assert (E2 : y2 = y) by (unfold y2; rewrite E1; apply rootless_image; assumption).
    rewrite E1, E2. repeat split; try assumption.
    rewrite rootPitchClass_parse, E. reflexivity.
Qed.

(** What a reader finds after the round trip of a symbol with "/". *)
Lemma slash_round_trip sp s p :
  isChordLike sp = true -> includes (lit "/") sp = true ->
  exists top bass more,
    splitStr (lit "/") sp = top :: bass :: more
    /\ includes (lit "/") top = false /\ includes (lit "/") bass = false
    /\ isChordLike top = true /\ StarOf Item bass
    /\ classOf sp = Some [rootPitchClass top; rootPitchClass bass]
    /\ let top1 := transposeChordSymbol top s p in
       let bass1 := transposeChordSymbol bass s p in
       let top2 := transposeChordSymbol top1 (- s) p in
       let bass2 := transposeChordSymbol bass1 (- s) p in
       image s p sp = top1 ++ lit "/" ++ bass1
       /\ (isChordLike (top1 ++ lit "/" ++ bass1) = true -> StarOf Item bass1)
       /\ (forall l, classOf (image (- s) p (image s p sp)) = Some l ->
                     isChordLike (top1 ++ lit "/" ++ bass1) = true
                     /\ l = [rootPitchClass top2; rootPitchClass bass2])
       /\ (StarOf Item bass1 -> StarOf Item bass2 ->
           classOf (image (- s) p (image s p sp))
           = Some [rootPitchClass top2; rootPitchClass bass2]).
Proof.
  intros Hc Hs.
  destruct (transposeChordSymbol_slash sp s p Hs)
    as (top & bass & more & E & Htop & Hbass & E1).
  destruct (chordLike_slash_parts sp top bass more Hc E) as [Ct Ib].
  exists top, bass, more.
  split; [exact E|]. split; [exact Htop|]. split; [exact Hbass|].
  split; [exact Ct|]. split; [exact Ib|].
  split; [unfold classOf, rootsOfSymbol; rewrite Hc, Hs, E; reflexivity|].
  intros top1 bass1 top2 bass2.
  destruct (chordPart_root top Ct Htop) as (rt & tt & it & Et & Ht & _ & It & _).
  destruct (chordPart_round_trip top s p rt tt it Htop Et Ht It)
    as (A1 & A2 & A3 & A4 & _).
  fold top1 in A1, A2. fold top2 in A3, A4.
  destruct (bass_round_trip bass s p Hbass) as (B1 & B2 & _).
  fold bass1 in B1. fold bass2 in B2.
  assert (Ei : image s p sp = top1 ++ lit "/" ++ bass1)
    by (rewrite (image_chord s p sp Hc); exact E1).
  assert (E2 : transposeChordSymbol (top1 ++ lit "/" ++ bass1) (- s) p
               = top2 ++ lit "/" ++ bass2)
    by (apply transposeChordSymbol_halves; assumption).
  assert (R2 : rootsOfSymbol (top2 ++ lit "/" ++ bass2)
               = [rootPitchClass top2; rootPitchClass bass2])
    by (apply rootsOfSymbol_halves; assumption).
  split; [exact Ei|]. split; [|split].
  - intros H1. destruct (splitStr_halves top1 bass1 A2 B1) as [_ Hsplit].
    apply (chordLike_slash_parts _ top1 bass1 [] H1 Hsplit).
  - intros l. rewrite Ei. unfold image at 1.
    destruct (isChordLike (top1 ++ lit "/" ++ bass1)) eqn:H1.
    + rewrite E2. unfold classOf. rewrite R2.
      destruct (isChordLike (top2 ++ lit "/" ++ bass2)); [|discriminate].
      intros H. inversion H. split; reflexivity.
    + unfold classOf. rewrite H1. discriminate.
  - intros I1 I2. rewrite Ei. unfold image at 1.
    rewrite (chordLike_join_items top1 bass1 A1 I1), E2. unfold classOf.
    rewrite (chordLike_join_items top2 bass2 A3 I2), R2. reflexivity.
Qed.

(** ** Steady symbols, and no others, come back *)

Lemma steady_round_trip sp s p :
  isChordLike sp = true -> steadySymbol sp = true -> exactSteps s ->
  classOf (image (- s) p (image s p sp)) = classOf sp.
Proof.
  intros Hc Hst Hex. unfold steadySymbol in Hst.
  destruct (includes (lit "/") sp) eqn:Hs.
  - destruct (slash_round_trip sp s p Hc Hs)
      as (top & bass & more & E & Htop & Hbass & Ct & Ib & Csp & _ & _ & _ & Hcl).
    rewrite E in Hst. apply andb_prop in Hst. destruct Hst as [St Sb].
    rewrite Csp.
    destruct (chordPart_root top Ct Htop) as (rt & tt & it & Et & Ht & Hit & It & Est & Rt).
    destruct (chordPart_round_trip top s p rt tt it Htop Et Ht It)
      as (_ & _ & _ & _ & A5).
    rewrite Est in St. rewrite (steady_comes_back it s tt Hit Hex St) in A5.
    destruct (bass_round_trip bass s p Hbass) as (_ & _ & B).
    rewrite exec_CHORD_RE in Sb. destruct (parseRoot bass) as [[rb tb]|] eqn:Eb.
    + cbn [option_map] in Sb. apply andb_prop in Sb. destruct Sb as [Cb Sb].
      destruct B as (ib & Hib & Rb & Esb & _ & B5).
      rewrite Esb in Sb. rewrite (steady_comes_back ib s tb Hib Hex Sb) in B5.
      destruct (chordPart_root bass Cb Hbass)
        as (rb' & tb' & ib' & Eb' & Hb' & _ & Ib' & _ & _).
      destruct (chordPart_round_trip bass s p rb' tb' ib' Hbass Eb' Hb' Ib')
        as (C1 & _ & C3 & _ & _).
      rewrite Hcl by (apply chordLike_items; assumption).
      rewrite A5, B5, Rt, Rb. reflexivity.
    + destruct B as (B1 & B2 & B3).
      rewrite Hcl; [|rewrite B1; exact Ib | rewrite B2; exact Ib].
      rewrite B2, A5, Rt. reflexivity.
  - destruct (chordPart_root sp Hc Hs) as (r & t & idx & E & Hidx & Hi & It & Est & _).
    destruct (plain_class sp s p r t idx Hc Hs E Hidx It) as [C0 C2].
    rewrite Est in Hst. rewrite C0, C2, (steady_comes_back idx s t Hi Hex Hst).
    reflexivity.
Qed.

Lemma movedIndex_to_one idx :
  0 <= idx <= 11 -> movedIndex idx ((1 - idx) mod 12) = 1.
Proof.
  intros Hi. pose proof (Z.mod_pos_bound (1 - idx) 12).
  rewrite movedIndex_small by lia. Z.to_euclidean_division_equations. lia.
Qed.

Lemma unsteady_round_trip sp :
  isChordLike sp = true -> steadySymbol sp = false ->
  exists s p, 0 <= s <= 11
              /\ classOf (image (- s) p (image s p sp)) <> classOf sp.
Proof.
  intros Hc Hst. unfold steadySymbol in Hst.
  destruct (includes (lit "/") sp) eqn:Hs.
  - destruct (slash_round_trip sp 0 true Hc Hs)
      as (top & bass & more & E & Htop & Hbass & Ct & Ib & Csp & _).
    rewrite E in Hst.
    destruct (chordPart_root top Ct Htop) as (rt & tt & it & Et & Ht & Hit & It & Est & Rt).
    assert (Hsame : forall s p,
      exists top2 bass1 bass2,
        (isChordLike (transposeChordSymbol top s p ++ lit "/" ++ bass1) = true
         -> StarOf Item bass1)
        /\ (classOf (image (- s) p (image s p sp)) = classOf sp ->
            isChordLike (transposeChordSymbol top s p ++ lit "/" ++ bass1) = true
            /\ rootPitchClass top2 = rootPitchClass top
            /\ rootPitchClass bass2 = rootPitchClass bass)
        /\ top2 = transposeChordSymbol (transposeChordSymbol top s p) (- s) p
        /\ bass1 = transposeChordSymbol bass s p
        /\ bass2 = transposeChordSymbol bass1 (- s) p).
    { intros s p.
      destruct (slash_round_trip sp s p Hc Hs)
        as (top' & bass' & more' & E' & _ & _ & _ & _ & _ & _ & Hi1 & Hinv & _).
      rewrite E in E'. inversion E'; subst top' bass' more'.
      eexists _, _, _. split; [exact Hi1|]. split; [|repeat split; reflexivity].
      intros Heq. rewrite Csp in Heq. destruct (Hinv _ Heq) as [H1 Hl].
      split; [exact H1|]. inversion Hl. split; reflexivity. }
    destruct (steadyPart top) eqn:St.
    + (* the second part *)
      cbn [andb] in Hst. rewrite exec_CHORD_RE in Hst.
      destruct (parseRoot bass) as [[rb tb]|] eqn:Eb; [|discriminate Hst].
      cbn [option_map] in Hst.
      destruct (parseRoot_inv _ _ _ Eb) as (_ & Hrb & _).
      destruct (allRoots_recognized rb Hrb) as (ib & Hib).
      pose proof (pitchClassOf_range rb ib Hib) as Hir.
      destruct (isChordLike bass) eqn:Cb.
      * (* chord-like, with a tail that is not steady *)
        cbn [andb] in Hst. rewrite steadyPart_parse, Eb, Hib in Hst.
        destruct (unsteady_goes_astray ib tb Hir Hst) as (s & Hs0 & Hne).
        exists s, true. split; [exact Hs0|]. intros Heq.
        destruct (Hsame s true) as (top2 & bass1 & bass2 & _ & Hinv & _ & -> & ->).
        destruct (Hinv Heq) as (_ & _ & Rb).
        destruct (part_round_trip bass s true rb tb ib Hbass Eb Hib)
          as (_ & _ & _ & _ & R).
        rewrite R, rootPitchClass_parse, Eb, Hib in Rb. inversion Rb. contradiction.
      * (* a root before a tail that is not made of items *)
        exists ((1 - ib) mod 12), true.
        split; [pose proof (Z.mod_pos_bound (1 - ib) 12); lia|]. intros Heq.
        destruct (Hsame ((1 - ib) mod 12) true)
          as (top2 & bass1 & bass2 & Hi1 & Hinv & _ & Eb1 & _).
        destruct (Hinv Heq) as (H1 & _ & _). apply Hi1 in H1.
        destruct (part_round_trip bass ((1 - ib) mod 12) true rb tb ib Hbass Eb Hib)
          as (E1 & _).
        rewrite Eb1, E1, (movedIndex_to_one ib Hir) in H1.
        change (spell 1 true) with [67; 35] in H1. cbn [app] in H1.
        apply starOf_drop_C_sharp in H1.
        rewrite (chordLike_of_parse bass rb tb Eb H1) in Cb. discriminate Cb.
    + (* the first part *)
      destruct (unsteady_goes_astray it tt Hit (eq_sym Est)) as (s & Hs0 & Hne).
      exists s, true. split; [exact Hs0|]. intros Heq.
      destruct (Hsame s true) as (top2 & bass1 & bass2 & _ & Hinv & -> & _).
      destruct (Hinv Heq) as (_ & Rtop & _).
      destruct (part_round_trip top s true rt tt it Htop Et Ht)
        as (_ & _ & _ & _ & R).
      rewrite R, Rt in Rtop. inversion Rtop. contradiction.
  - destruct (chordPart_root sp Hc Hs) as (r & t & idx & E & Hidx & Hi & It & Est & _).
    rewrite Est in Hst.
    destruct (unsteady_goes_astray idx t Hi Hst) as (s & Hs0 & Hne).
    exists s, true. split; [exact Hs0|].
    destruct (plain_class sp s true r t idx Hc Hs E Hidx It) as [C0 C2].
    rewrite C0, C2. intros H. inversion H. contradiction.
Qed.

(** ** The round trip of a text *)

Lemma rootsAt_round_trip_spans t s p :
  rootsAt (transposeChordText (transposeChordText t s p) (- s) p)
  = map (fun span => classOf (image (- s) p (image s p span))) (spans t).
Proof.
  unfold rootsAt. rewrite !spans_transposeChordText, !map_map. reflexivity.
Qed.

Lemma rootsAt_round_trip t s p :
  exactSteps s -> steadyText t = true ->
  rootsAt (transposeChordText (transposeChordText t s p) (- s) p) = rootsAt t.
Proof.
  intros Hex H. rewrite rootsAt_round_trip_spans. unfold rootsAt.
  apply map_ext_in. intros span Hin. unfold steadyText in H.
  rewrite forallb_forall in H. specialize (H span Hin). unfold steadySpan in H.
  destruct (isChordLike span) eqn:Ec.
  - apply steady_round_trip; assumption.
  - rewrite !(image_not_chord _ _ span) by exact Ec. reflexivity.
Qed.

Lemma rootsAt_steady t :
  (forall s p, 0 <= s <= 11 ->
     rootsAt (transposeChordText (transposeChordText t s p) (- s) p) = rootsAt t) ->
  steadyText t = true.
Proof.
  intros H. unfold steadyText. apply forallb_forall. intros span Hin.
  unfold steadySpan. destruct (isChordLike span) eqn:Ec; [|reflexivity].
  destruct (steadySymbol span) eqn:Est; [reflexivity|]. exfalso.
  destruct (unsteady_round_trip span Ec Est) as (s & p & Hs & Hne).
  apply Hne. specialize (H s p Hs). rewrite rootsAt_round_trip_spans in H.
  unfold rootsAt in H.
  rewrite map_ext_in_iff in H. apply (H span Hin).
Qed.

End TextRoundTrip.

Section ParseChordSymbol.
Import JS Spec Transpose Chords.

Lemma found_lineTerminator ch :
  found true lineTerminator ch <-> in_ranges lineTerminator ch = true.
Proof.
  unfold found. split.
  - intros (a & Ha & H).
    assert (Hfix : canonicalize true a = a).
    { apply canonicalize_fixed. apply in_ranges_iff in Ha.
      destruct Ha as (r & Hr & Ha). cbn [In lineTerminator] in Hr.
      repeat match type of Hr with
             | _ \/ _ => destruct Hr as [Hr|Hr]
             | False => contradiction
             | (_, _) = _ => subst; cbn [fst snd] in *
             end; lia. }
    rewrite Hfix in H. symmetry in H. apply canonicalize_cases in H.
    assert (ch = a \/ ch <> a) as [->|Hne] by lia; [exact Ha|].
    exfalso. apply in_ranges_iff in Ha.
    destruct Ha as (r & Hr & Ha). cbn [In lineTerminator] in Hr.
    repeat match type of Hr with
           | _ \/ _ => destruct Hr as [Hr|Hr]
           | False => contradiction
           | (_, _) = _ => subst; cbn [fst snd] in *
           end; lia.
  - intros H. exists ch. auto.
Qed.

Lemma cmatch_dot ch :
  cmatch true {| cranges := lineTerminator; cinvert := true |} ch = notLineTerminator ch.
Proof.
  apply bool_eq_iff. rewrite cmatch_neg, found_lineTerminator. unfold notLineTerminator.
  rewrite negb_true_iff. destruct (in_ranges lineTerminator ch); intuition congruence.
Qed.

Lemma exec_PARSE_RE s :
  exec PARSE_RE s = option_map (rootMatch s) (parseHead s).
Proof.
  apply (exec_root_tail PARSE_RE lineTerminator notLineTerminator).
  - apply cmatch_dot.
  - reflexivity.
  - intros inp st k. reflexivity.
Qed.

Lemma parseWith_root tc s r t : parseWith tc s = Some (r, t) -> In r allRoots /\ s = r ++ t.
Proof.
  unfold parseWith. destruct s as [|L s']; [discriminate|].
  destruct (isRootLetterb L) eqn:EL; [|discriminate].
  apply rootLetter_enum in EL.
  assert (Hone : In [L] allRoots).
  { apply in_flat_map. exists L. split; [exact EL | left; reflexivity]. }
  destruct s' as [|a tl].
  - intros H. inversion H; subst. auto.
  - destruct (isAccidentalb a) eqn:Ea.
    + destruct (forallb tc tl); [|discriminate].
      intros H. inversion H; subst. split; [|reflexivity].
      apply in_flat_map. exists L. split; [exact EL|]. right.
      apply in_map_iff. exists a. split; [reflexivity|].
      unfold isAccidentalb in Ea. simpl. lia.
    + destruct (forallb tc (a :: tl)); [|discriminate].
      intros H. inversion H; subst. auto.
Qed.

(** [toSharp] on the roots the pattern can hand it. *)
Lemma toSharp_roots r : In r allRoots ->
  if rootIsCanonical r
  then exists n, toSharp r = Ok n /\ In n NOTE_ORDER_SHARPS
  else toSharp r = Throw (lit "Bad note: " ++ r).
Proof.
  intros H.
  assert (E : forallb (fun r =>
                if rootIsCanonical r
                then match toSharp r with
                     | Ok n => has NOTE_ORDER_SHARPS n
                     | Throw _ => false
                     end
                else match toSharp r with
                     | Ok _ => false
                     | Throw m => str_eqb m (lit "Bad note: " ++ r)
                     end) allRoots = true) by (vm_compute; reflexivity).
  rewrite forallb_forall in E. apply E in H. clear E.
  destruct (rootIsCanonical r).
  - destruct (toSharp r) as [n|m]; [|discriminate]. exists n. split; [reflexivity|].
    unfold has in H. apply existsb_exists in H. destruct H as (x & Hx & Hn).
    unfold str_eqb in Hn. destruct (list_eq_dec Z.eq_dec n x); [subst; exact Hx | discriminate].
  - destruct (toSharp r) as [n|m]; [discriminate|].
    unfold str_eqb in H. destruct (list_eq_dec Z.eq_dec m _); [subst; reflexivity | discriminate].
Qed.

(** [parseChordSymbol] raises exactly on the symbols whose root the
    pattern accepts and [toSharp] does not know. *)
Lemma parseChordSymbol_cases symbol :
  match parseHead symbol with
  | None => parseChordSymbol symbol = Ok None
  | Some (r, t) =>
      if rootIsCanonical r
      then exists n, In n NOTE_ORDER_SHARPS /\
                     parseChordSymbol symbol
                     = Ok (Some {| root := n; tail := toLowerCase t |})
      else parseChordSymbol symbol = Throw (lit "Bad note: " ++ r)
  end.
Proof.
  unfold parseChordSymbol. rewrite exec_PARSE_RE.
  destruct (parseHead symbol) as [[r t]|] eqn:E; [|reflexivity].
  cbn [option_map rootMatch caps group Nat.eqb fst snd].
  destruct (parseWith_root _ _ _ _ E) as [Hr _].
  pose proof (toSharp_roots r Hr) as H. unfold normalizeEnharmonic.
  destruct (rootIsCanonical r).
  - destruct H as (n & -> & Hn). exists n. split; [exact Hn | reflexivity].
  - rewrite H. reflexivity.
Qed.

End ParseChordSymbol.

(* ================================================================== *)
(** * The claims                                                       *)
(* ================================================================== *)

(** C1. The whitespace-preserving split cuts a text into parts without
    whitespace that alternate with its runs of whitespace; joining them
    gives the text back, code unit for code unit.  [transposeChordText]
    is the join of the images of its spans, where a span of whitespace
    and every span that is not chord-like is its own image. *)
Theorem C1_split_join_preserves_text :
  forall (t : list Z) (steps : Z) (preferSharps : bool),
    JS.join (JS.split Transpose.WS_SPLIT_RE t) = t
    /\ JS.split Transpose.WS_SPLIT_RE t = Spec.wsTokens false [] t
    /\ Spec.Tokens true (JS.split Transpose.WS_SPLIT_RE t)
    /\ JS.join (Spec.spans t) = t
    /\ Transpose.transposeChordText t steps preferSharps
       = JS.join (map (Spec.image steps preferSharps) (Spec.spans t))
    /\ (forall span, Spec.allWs span -> Spec.image steps preferSharps span = span)
    /\ (forall span, Transpose.isChordLike span = false ->
                     Spec.image steps preferSharps span = span).
Proof.
  intros t steps p. destruct (split_ws t) as [E H].
  split; [apply split_join, whole_capture_ws|].
  split; [exact E|]. split; [rewrite E; exact H|].
  split; [apply spans_join|]. split; [apply transposeChordText_spans|].
  split; [apply image_space | apply image_not_chord].
Qed.

(** C2, as amended.  Transposing a recognized note by [steps] and then
    by [- steps], under one preference, gives a note of the same pitch
    class, for steps of a size up to 2^53 - 11, within which the sum of
    an index and the steps is exact.  A text comes back from such a
    round trip with its chord tokens at the same places, and their roots
    in the same pitch classes, when its chord tokens are steady; and
    only then, as the round trips by the steps 0 to 11 show.  A token is
    steady when the tail behind its root, and for a symbol with "/"
    behind the root of each of its first two parts, is not taken for an
    accidental by a new root, and when a second part with a root is
    chord-like.  A transposition maps the spans of a text one by one.
    The spelling may differ, and parts behind a second "/" are lost:
    "Bb7" comes back as "A#7", "C#B" as "C#" and "C/E/G" as "C/E". *)
Theorem C2_round_trip_pitch_class :
  (forall (n : list Z) (steps : Z) (preferSharps : bool) (pc : Z),
      Z.abs steps <= 2 ^ 53 - 11 ->
      Spec.pitchClassOf n = Some pc ->
      Spec.pitchClassOf
        (Transpose.transposeNote (Transpose.transposeNote n steps preferSharps)
           (- steps) preferSharps) = Some pc)
  /\ (forall (t : list Z) (steps : Z) (preferSharps : bool),
      Z.abs steps <= 2 ^ 53 - 11 ->
      Spec.steadyText t = true ->
      Spec.rootsAt
        (Transpose.transposeChordText
           (Transpose.transposeChordText t steps preferSharps)
           (- steps) preferSharps)
      = Spec.rootsAt t)
  /\ (forall (t : list Z),
      (forall (steps : Z) (preferSharps : bool),
          0 <= steps <= 11 ->
          Spec.rootsAt
            (Transpose.transposeChordText
               (Transpose.transposeChordText t steps preferSharps)
               (- steps) preferSharps)
          = Spec.rootsAt t) ->
      Spec.steadyText t = true)
  /\ (forall (t : list Z) (steps : Z) (preferSharps : bool),
      Spec.spans (Transpose.transposeChordText t steps preferSharps)
      = map (Spec.image steps preferSharps) (Spec.spans t))
  /\ Spec.steadyText (JS.lit "Bb7 F/A  (Gm), C#B DbBm7 C/7 G/ C/E/G") = true
  /\ Spec.rootsAt (JS.lit "Bb7 F/A  (Gm), C#B DbBm7 C/7 G/ C/E/G")
     = [Some [Some 10]; None; Some [Some 5; Some 9]; None; None; None;
        Some [Some 7]; None; None; None; None; None;
        Some [Some 1]; None; Some [Some 1]; None;
        Some [Some 0; None]; None; Some [Some 7; None]; None;
        Some [Some 0; Some 4]]
  /\ Transpose.transposeChordText
       (Transpose.transposeChordText
          (JS.lit "Bb7 F/A  (Gm), C#B DbBm7 C/7 G/ C/E/G") 3 true)
       (-3) true
     = JS.lit "A#7 F/A  (Gm), C# C#m7 C/7 G/ C/E"
  /\ map (fun s => Spec.steadyText (JS.lit s))
         ["Dbb"; "E#Bb"; "C/dim"; "C##b"; "C#Bb"]%string
     = [false; false; false; true; true].
Proof.
  split; [|split; [|split; [|split]]].
  - intros n steps p pc Hs H. apply transposeNote_round_trip; assumption.
  - intros t steps p Hs H. apply rootsAt_round_trip; assumption.
  - intros t H. apply rootsAt_steady. exact H.
  - intros t steps p. apply spans_transposeChordText.
  - repeat split; vm_compute; reflexivity.
Qed.

(** C2 as stated fails on the text "Dbb": its one chord token has the root
    "Db", of pitch class 1; transposed by -1 with sharps it reads "Cb",
    and back by +1 it reads "C", whose root has pitch class 0.  It fails
    on notes as well, for steps beyond the exact ones: 11 + (2^53 - 10)
    is rounded to 2^53, so "B" goes to "G#" and comes back as "A#"; and
    1 + (2^53 + 4) is rounded to 2^53 + 4, so "C#" goes to "C" and stays
    there. *)
Lemma C2_round_trip_counterexample :
  Transpose.isChordLike (JS.lit "Dbb") = true
  /\ Spec.rootPitchClass (JS.lit "Dbb") = Some 1
  /\ Transpose.transposeChordText (JS.lit "Dbb") (-1) true = JS.lit "Cb"
  /\ Transpose.transposeChordText
       (Transpose.transposeChordText (JS.lit "Dbb") (-1) true) 1 true = JS.lit "C"
  /\ Spec.rootPitchClass
       (Transpose.transposeChordText
          (Transpose.transposeChordText (JS.lit "Dbb") (-1) true) 1 true)
     <> Spec.rootPitchClass (JS.lit "Dbb")
  /\ Spec.pitchClassOf (JS.lit "B") = Some 11
  /\ Transpose.transposeNote (JS.lit "B") (2 ^ 53 - 10) true = JS.lit "G#"
  /\ Spec.pitchClassOf
       (Transpose.transposeNote
          (Transpose.transposeNote (JS.lit "B") (2 ^ 53 - 10) true)
          (- (2 ^ 53 - 10)) true) = Some 10
  /\ Spec.pitchClassOf (JS.lit "C#") = Some 1
  /\ Transpose.transposeNote (JS.lit "C#") (2 ^ 53 + 4) true = JS.lit "C"
  /\ Spec.pitchClassOf
       (Transpose.transposeNote
          (Transpose.transposeNote (JS.lit "C#") (2 ^ 53 + 4) true)
          (- (2 ^ 53 + 4)) true) = Some 0.
Proof.
  repeat split; try (vm_compute; reflexivity).
  vm_compute. discriminate.
Qed.

(** C3 fails in lib/chords.ts.  [parseChordSymbol] accepts a root in either
    case, and "B" for the flat sign, but [toSharp] knows upper-case
    letters with "#" or "b" only and throws on the rest: the call returns
    null when the pattern does not match, a root and a tail when the root
    is one [toSharp] knows, and raises otherwise, and [findVoicingsFor]
    raises with it.  So "am" and "AB" raise, where "hello" gives no
    voicing and "F#m" parses; [transposeChordText] transposes both. *)
Lemma C3_parse_raises_on_lowercase_root :
  (forall symbol,
      match Spec.parseHead symbol with
      | None => Chords.parseChordSymbol symbol = Chords.Ok None
      | Some (r, t) =>
          if Spec.rootIsCanonical r
          then exists n, In n Chords.NOTE_ORDER_SHARPS /\
                 Chords.parseChordSymbol symbol
                 = Chords.Ok (Some {| Chords.root := n; Chords.tail := JS.toLowerCase t |})
          else Chords.parseChordSymbol symbol
               = Chords.Throw (JS.lit "Bad note: " ++ r)
      end)
  /\ (forall symbol message,
      Chords.parseChordSymbol symbol = Chords.Throw message ->
      Chords.findVoicingsFor symbol = Chords.Throw message)
  /\ Chords.parseChordSymbol (JS.lit "am") = Chords.Throw (JS.lit "Bad note: a")
  /\ Chords.findVoicingsFor (JS.lit "am") = Chords.Throw (JS.lit "Bad note: a")
  /\ Chords.parseChordSymbol (JS.lit "AB") = Chords.Throw (JS.lit "Bad note: AB")
  /\ Chords.findVoicingsFor (JS.lit "AB") = Chords.Throw (JS.lit "Bad note: AB")
  /\ Chords.findVoicingsFor (JS.lit "hello") = Chords.Ok []
  /\ Chords.parseChordSymbol (JS.lit "F#m")
     = Chords.Ok (Some {| Chords.root := JS.lit "F#"; Chords.tail := JS.lit "m" |})
  /\ Transpose.transposeChordText (JS.lit "am AB") 2 true = JS.lit "Bm B".
Proof.
  split; [apply parseChordSymbol_cases|].
  split; [intros symbol message H; unfold Chords.findVoicingsFor; rewrite H; reflexivity|].
  repeat split; vm_compute; reflexivity.
Qed.


(** C5. A symbol that holds "/" is split at "/", its first two parts are
    transposed on their own and joined by "/"; in particular a symbol
    "top/bass" gives the transposed top, "/", the transposed bass.  A
    symbol without "/" that matches [CHORD_RE] is its root followed by its
    tail, and becomes the transposed root followed by the same tail; one
    that does not match is returned as it is.  Two levels of recursion are
    all a call uses.  "C/E" down two semitones, with flats, is "Bb/D"; of
    "C/E/G" the first two parts are kept. *)
Theorem C5_transposeChordSymbol_shape :
  (forall symbol steps preferSharps,
      JS.includes (JS.lit "/") symbol = true ->
      exists top bass more,
        JS.splitStr (JS.lit "/") symbol = top :: bass :: more /\
        JS.includes (JS.lit "/") top = false /\
        JS.includes (JS.lit "/") bass = false /\
        Transpose.transposeChordSymbol symbol steps preferSharps
        = Transpose.transposeChordSymbol top steps preferSharps ++ JS.lit "/"
          ++ Transpose.transposeChordSymbol bass steps preferSharps)
  /\ (forall top bass steps preferSharps,
      JS.includes (JS.lit "/") top = false ->
      JS.includes (JS.lit "/") bass = false ->
      Transpose.transposeChordSymbol (top ++ JS.lit "/" ++ bass) steps preferSharps
      = Transpose.transposeChordSymbol top steps preferSharps ++ JS.lit "/"
        ++ Transpose.transposeChordSymbol bass steps preferSharps)
  /\ (forall symbol steps preferSharps,
      JS.includes (JS.lit "/") symbol = false ->
      match JS.exec Transpose.CHORD_RE symbol with
      | Some (_, m) =>
          exists root tail,
            JS.group 1 (JS.caps m) = Some root /\
            JS.group 2 (JS.caps m) = Some tail /\
            symbol = root ++ tail /\
            Transpose.transposeChordSymbol symbol steps preferSharps
            = Transpose.transposeNote root steps preferSharps ++ tail
      | None => Transpose.transposeChordSymbol symbol steps preferSharps = symbol
      end)
  /\ (forall fuel symbol steps preferSharps,
      Transpose.transposeChordSymbolF (S (S fuel)) symbol steps preferSharps
      = Transpose.transposeChordSymbol symbol steps preferSharps)
  /\ Transpose.transposeChordSymbol (JS.lit "C/E") (-2) false = JS.lit "Bb/D"
  /\ Transpose.transposeChordSymbol (JS.lit "C/E/G") 2 true = JS.lit "D/F#".
Proof.
  split; [|split; [|split; [|split; [|split]]]].
  - intros. apply transposeChordSymbol_slash. assumption.
  - intros. apply transposeChordSymbol_halves; assumption.
  - intros symbol steps p H. rewrite (transposeChordSymbol_plain symbol steps p H).
    rewrite exec_CHORD_RE.
    destruct (Spec.parseRoot symbol) as [[r t]|] eqn:E; cbn [option_map Spec.rootMatch].
    + exists r, t. cbn [JS.caps JS.group Nat.eqb fst snd].
      destruct (parseRoot_inv _ _ _ E) as (Hs & _). auto.
    + reflexivity.
  - intros. apply transposeChordSymbolF_fuel.
  - vm_compute. reflexivity.
  - vm_compute. reflexivity.
Qed.

(** C6, as amended. [isChordLike] accepts exactly a root letter A to G in
    either case, then optionally "#", "b" or "B", then any number of
    items of the permitted set, each read without regard to case.
    "Bb7/D" is accepted, "Take" and "take" are not. *)
Theorem C6_isChordLike_accepts :
  (forall s, Transpose.isChordLike s = true <-> Spec.looksLikeChordSpec s)
  /\ Transpose.isChordLike (JS.lit "Bb7/D") = true
  /\ Transpose.isChordLike (JS.lit "Take") = false
  /\ Transpose.isChordLike (JS.lit "take") = false.
Proof.
  split; [|repeat split; vm_compute; reflexivity].
  intros s. apply isChordLike_spec.
Qed.

(** C6 as stated fails on "em": it is accepted although it does not
    start with an upper-case letter A to G. *)
Lemma C6_isChordLike_counterexample :
  Transpose.isChordLike (JS.lit "em") = true
  /\ ~ Spec.startsWithUpperRoot (JS.lit "em").
Proof.
  split; [vm_compute; reflexivity|].
  intros (L & tl & E & H). inversion E; subst. lia.
Qed.




(** C8. For "F#m" the catalog returns three voicings, all barres and none
    open: the E shape at fret 2, the A shape at fret 9 and the E shape an
    octave up at fret 14, where 2 and 9 are the distances of F# from the
    open E and A strings. *)
Theorem C8_voicings_for_F_sharp_minor :
  exists voicings,
    Chords.findVoicingsFor (JS.lit "F#m") = Chords.Ok voicings
    /\ voicings <> []
    /\ Exists (fun v => Chords.family v = Some Chords.barre_e
                        \/ Chords.family v = Some Chords.barre_a) voicings
    /\ Forall (fun v => Chords.family v <> Some Chords.open) voicings
    /\ Chords.semitoneDistance (JS.lit "E") (JS.lit "F#") = 2
    /\ Chords.semitoneDistance (JS.lit "A") (JS.lit "F#") = 9
    /\ Forall (fun v =>
                 (Chords.family v = Some Chords.barre_e ->
                  Chords.baseFret v = 2
                  \/ (Chords.baseFret v = 2 + 12 /\ 13 <= 2 + 12 <= 17))
                 /\ (Chords.family v = Some Chords.barre_a ->
                     Chords.baseFret v = 9
                     \/ (Chords.baseFret v = 9 + 12 /\ 13 <= 9 + 12 <= 17)))
              voicings
    /\ map (fun v => (Chords.family v, Chords.baseFret v)) voicings
       = [ (Some Chords.barre_e, 2); (Some Chords.barre_a, 9);
           (Some Chords.barre_e, 14) ]
    /\ Transpose.lookup (JS.lit "F#m") Chords.OPEN_SHAPES = None.
Proof.
  eexists. split; [vm_compute; reflexivity|].
  split; [discriminate|].
  split; [apply Exists_cons_hd; left; reflexivity|].
  split; [repeat constructor; discriminate|].
  split; [reflexivity|]. split; [reflexivity|].
  split.
  - repeat constructor; cbn [Chords.family Chords.baseFret];
      intros; try discriminate; lia.
  - split; reflexivity.
Qed.

(** C9. Both patterns carry the [i] flag, so a token without any
    upper-case letter can be taken for a chord: every word over the
    letters a to g is chord-like, "em" is, and "face" moved up two
    semitones reads "Gace". *)
Theorem C9_lowercase_tokens_are_rewritten :
  JS.ignoreCase Transpose.CHORD_LIKE_RE = true
  /\ JS.ignoreCase Transpose.CHORD_RE = true
  /\ Transpose.isChordLike (JS.lit "em") = true
  /\ Transpose.transposeChordText (JS.lit "face") 2 true = JS.lit "Gace"
  /\ Forall (fun c => 97 <= c <= 122) (JS.lit "face")
  /\ (forall w, w <> [] -> Forall (fun c => 97 <= c <= 103) w ->
                Transpose.isChordLike w = true).
Proof.
  split; [reflexivity|]. split; [reflexivity|].
  split; [vm_compute; reflexivity|]. split; [vm_compute; reflexivity|].
  split.
  - unfold JS.lit. simpl. repeat (apply Forall_cons; [lia|]). apply Forall_nil.
  - intros w Hne H. apply isChordLike_lowercase_word; assumption.
Qed.




(* ================================================================== *)
(** * Further properties: notes, keys and scores                       *)
(* ================================================================== *)

Section MoreNotes.
Import JS Spec Transpose.

Lemma str_eqb_eq a b : str_eqb a b = true <-> a = b.
Proof.
  unfold str_eqb. destruct (list_eq_dec Z.eq_dec a b); split; congruence.
Qed.

Lemma lookup_in {V : Type} (k : list Z) (m : list (list Z * V)) v :
  lookup k m = Some v -> In (k, v) m.
Proof.
  induction m as [|[k' v'] m IH]; cbn [lookup]; [discriminate|].
  destruct (str_eqb k k') eqn:E.
  - apply str_eqb_eq in E. subst k'. intros [= ->]. left. reflexivity.
  - intros H. right. apply IH, H.
Qed.

Lemma has_in s k : has s k = true <-> In k s.
Proof.
  unfold has. rewrite existsb_exists. split.
  - intros (x & Hx & E). apply str_eqb_eq in E. subst. exact Hx.
  - intros H. exists k. split; [exact H | apply str_eqb_eq; reflexivity].
Qed.

Lemma normNote_own raw n :
  normNote raw = Some n -> exists i, indexOf n = Some i.
Proof.
  unfold normNote, indexOf. destruct raw as [|c raw]; [discriminate|].
  cbv zeta.
  match goal with
  | |- match lookup ?note _ with _ => _ end = _ -> _ =>
      destruct (lookup note ENHARMONIC_MAP) as [i|] eqn:E; [|discriminate];
      intros [= <-]; exists i; exact E
  end.
Qed.

Lemma own_normNote n i : indexOf n = Some i -> normNote n = Some n.
Proof.
  intros H. apply lookup_in in H.
  assert (E : forallb (fun kv => match normNote (fst kv) with
                                 | Some k => str_eqb k (fst kv)
                                 | None => false
                                 end) ENHARMONIC_MAP = true)
    by (vm_compute; reflexivity).
  rewrite forallb_forall in E. apply E in H. cbn [fst] in H.
  destruct (normNote n) as [k|]; [|discriminate].
  apply str_eqb_eq in H. subst. reflexivity.
Qed.

Lemma own_pitchClass n i : indexOf n = Some i -> pitchClassOf n = Some i.
Proof.
  intros H. unfold pitchClassOf. rewrite (own_normNote n i H). exact H.
Qed.

Lemma recognized_pitchClass n :
  normNote n <> None -> exists i, pitchClassOf n = Some i.
Proof.
  unfold pitchClassOf. destruct (normNote n) as [k|] eqn:E; [|congruence].
  intros _. apply (normNote_own n k E).
Qed.

Lemma transposeNote_compose n a b p q :
  exactSteps a -> exactSteps b -> exactSteps (a + b) ->
  transposeNote (transposeNote n a p) b q = transposeNote n (a + b) q.
Proof.
  intros Ha Hb Hab. destruct (normNote n) as [k|] eqn:E.
  - destruct (recognized_pitchClass n) as (i & Hi); [congruence|].
    pose proof (pitchClassOf_range n i Hi) as Ri.
    pose proof (transposeNote_pitchClass n a p i Hi) as H1.
    rewrite (transposeNote_spell _ b q _ H1), (transposeNote_spell n (a + b) q i Hi).
    f_equal. rewrite (movedIndex_exact _ b (movedIndex_range i a) Hb).
    rewrite (movedIndex_exact i a Ri Ha), (movedIndex_exact i (a + b) Ri Hab).
    rewrite Zplus_mod_idemp_l. f_equal. lia.
  - rewrite (transposeNote_unrecognized n a p E).
    rewrite !transposeNote_unrecognized by exact E. reflexivity.
Qed.

Lemma sameMoves_octaves s k :
  exactSteps s -> exactSteps (s + 12 * k) -> sameMoves (s + 12 * k) s.
Proof.
  intros Hs Hk. apply sameMoves_exact; [exact Hk | exact Hs|].
  replace (s + 12 * k - s) with (k * 12) by lia. apply Z_mod_mult.
Qed.

Lemma transposeNote_octaves n s k p :
  exactSteps s -> exactSteps (s + 12 * k) ->
  transposeNote n (s + 12 * k) p = transposeNote n s p.
Proof. intros Hs Hk. apply transposeNote_sameMoves, sameMoves_octaves; assumption. Qed.

Lemma spell_in j p : 0 <= j <= 11 -> In (spell j p) (if p then SHARPS else FLATS).
Proof.
  intros Hj. unfold spell. apply nth_In.
  destruct p; cbn [List.length SHARPS FLATS map]; lia.
Qed.

End MoreNotes.

(** X1. Whatever [normNote] returns is a key of the enharmonic table,
    with a pitch class from 0 to 11, and [normNote] leaves it as it is:
    normalising twice is normalising once. *)
Theorem normNote_canonical :
  forall raw n,
    Transpose.normNote raw = Some n ->
    (exists i, Transpose.indexOf n = Some i /\ 0 <= i <= 11)
    /\ Transpose.normNote n = Some n.
Proof.
  intros raw n H. destruct (normNote_own raw n H) as (i & Hi). split.
  - exists i. split; [exact Hi | apply (indexOf_range n i Hi)].
  - apply (own_normNote n i Hi).
Qed.

(** " f#m7" is read as F#. *)
Lemma normNote_canonical_witness :
  Transpose.normNote (JS.lit " f#m7") = Some (JS.lit "F#")
  /\ (exists i, Transpose.indexOf (JS.lit "F#") = Some i /\ 0 <= i <= 11)
  /\ Transpose.normNote (JS.lit "F#") = Some (JS.lit "F#").
Proof.
  split; [reflexivity|].
  apply (normNote_canonical (JS.lit " f#m7") (JS.lit "F#")). reflexivity.
Defined.

(** X2. Transposing a note by [a] and then by [b] is transposing it by
    [a + b], whatever the spelling preference of the first step; whole
    octaves change nothing.  This holds for every string, as one that is
    no note is returned as it is each time, and for steps of a size up
    to 2^53 - 11, within which the sum of an index and the steps is
    exact. *)
Theorem transposeNote_steps_add :
  forall (n : list Z) (a b k : Z) (p q : bool),
    Z.abs a <= 2 ^ 53 - 11 -> Z.abs b <= 2 ^ 53 - 11 ->
    Z.abs (a + b) <= 2 ^ 53 - 11 -> Z.abs (a + 12 * k) <= 2 ^ 53 - 11 ->
    Transpose.transposeNote (Transpose.transposeNote n a p) b q
    = Transpose.transposeNote n (a + b) q
    /\ Transpose.transposeNote n (a + 12 * k) p = Transpose.transposeNote n a p.
Proof.
  intros n a b k p q Ha Hb Hab Hk.
  split; [apply transposeNote_compose | apply transposeNote_octaves]; assumption.
Qed.

(** "Bb" up 5 with flats and down 7 with sharps is "Bb" down 2, "G#";
    three octaves above 5 steps is 5 steps. *)
Lemma transposeNote_steps_add_witness :
  Transpose.transposeNote (JS.lit "Bb") (5 + -7) true = JS.lit "G#"
  /\ Transpose.transposeNote (Transpose.transposeNote (JS.lit "Bb") 5 false) (-7) true
     = Transpose.transposeNote (JS.lit "Bb") (5 + -7) true
  /\ Transpose.transposeNote (JS.lit "Bb") (5 + 12 * 3) false
     = Transpose.transposeNote (JS.lit "Bb") 5 false.
Proof.
  split; [reflexivity|].
  apply (transposeNote_steps_add (JS.lit "Bb") 5 (-7) 3 false true);
    vm_compute; discriminate.
Defined.

(** X3. Between two keys of the enharmonic table [stepsFromKeys] is the
    difference of their pitch classes, from -11 to 11.  The from-key
    moved by that many steps has the pitch class of the to-key; spelled
    with the to-key's own preference it is the to-key itself, for every
    key of [ALL_KEYS] but "Cb", which comes out as "B". *)
Theorem stepsFromKeys_reaches_toKey :
  forall (fromKey toKey : list Z) (i j : Z),
    Transpose.indexOf fromKey = Some i ->
    Transpose.indexOf toKey = Some j ->
    Transpose.stepsFromKeys fromKey toKey = Some (j - i)
    /\ -11 <= j - i <= 11
    /\ (forall p, Spec.pitchClassOf (Transpose.transposeNote fromKey (j - i) p) = Some j)
    /\ (In toKey Transpose.ALL_KEYS ->
        Transpose.transposeNote fromKey (j - i) (Transpose.preferSharpsForKey toKey)
        = if JS.str_eqb toKey (JS.lit "Cb") then JS.lit "B" else toKey).
Proof.
  intros fromKey toKey i j Hi Hj.
  pose proof (indexOf_range _ _ Hi) as Ri. pose proof (indexOf_range _ _ Hj) as Rj.
  pose proof (own_pitchClass _ _ Hi) as Pi.
  assert (E : Spec.movedIndex i (j - i) = j).
  { rewrite movedIndex_small by lia.
    replace (i + (j - i)) with j by lia. apply Z.mod_small. lia. }
  split.
  { unfold Transpose.stepsFromKeys, Transpose.get. unfold Transpose.indexOf in Hi, Hj.
    rewrite Hi, Hj. reflexivity. }
  split; [lia|]. split.
  { intros p. rewrite (transposeNote_pitchClass _ (j - i) p _ Pi), E. reflexivity. }
  intros Hk. rewrite (transposeNote_spell _ (j - i) _ _ Pi), E.
  assert (A : forallb (fun k =>
                match Transpose.indexOf k with
                | Some j => JS.str_eqb (Spec.spell j (Transpose.preferSharpsForKey k))
                              (if JS.str_eqb k (JS.lit "Cb") then JS.lit "B" else k)
                | None => false
                end) Transpose.ALL_KEYS = true) by (vm_compute; reflexivity).
  rewrite forallb_forall in A. apply A in Hk. rewrite Hj in Hk.
  apply str_eqb_eq in Hk. exact Hk.
Qed.

(** From "C" to "Eb" is three steps up, and "C" moved by them is "Eb". *)
Lemma stepsFromKeys_reaches_toKey_witness :
  Transpose.stepsFromKeys (JS.lit "C") (JS.lit "Eb") = Some (3 - 0)
  /\ -11 <= 3 - 0 <= 11
  /\ (forall p, Spec.pitchClassOf (Transpose.transposeNote (JS.lit "C") (3 - 0) p) = Some 3)
  /\ (In (JS.lit "Eb") Transpose.ALL_KEYS ->
      Transpose.transposeNote (JS.lit "C") (3 - 0)
        (Transpose.preferSharpsForKey (JS.lit "Eb"))
      = if JS.str_eqb (JS.lit "Eb") (JS.lit "Cb") then JS.lit "B" else JS.lit "Eb").
Proof.
  apply (stepsFromKeys_reaches_toKey (JS.lit "C") (JS.lit "Eb") 0 3); reflexivity.
Defined.

Section MoreChords.
Import JS Spec Transpose Chords.

Lemma toSharp_ok_in n s : toSharp n = Ok s -> In s NOTE_ORDER_SHARPS.
Proof.
  unfold toSharp. cbv zeta.
  match goal with
  | |- (if negb (has _ ?x) then _ else _) = _ -> _ =>
      destruct (has NOTE_ORDER_SHARPS x) eqn:E; cbn [negb]; [|discriminate];
      intros [= <-]; apply has_in; exact E
  end.
Qed.

Lemma note_order_spell s :
  In s NOTE_ORDER_SHARPS -> exists i, 0 <= i <= 11 /\ s = spell i true.
Proof.
  unfold NOTE_ORDER_SHARPS. cbn [map In]. intros H.
  repeat (destruct H as [H|H];
          [ subst s;
            first [ exists 0; split; [lia | reflexivity]
                  | exists 1; split; [lia | reflexivity]
                  | exists 2; split; [lia | reflexivity]
                  | exists 3; split; [lia | reflexivity]
                  | exists 4; split; [lia | reflexivity]
                  | exists 5; split; [lia | reflexivity]
                  | exists 6; split; [lia | reflexivity]
                  | exists 7; split; [lia | reflexivity]
                  | exists 8; split; [lia | reflexivity]
                  | exists 9; split; [lia | reflexivity]
                  | exists 10; split; [lia | reflexivity]
                  | exists 11; split; [lia | reflexivity] ] |]).
  contradiction.
Qed.

End MoreChords.

(** X4. The two modules agree on pitch.  [toSharp] sends a key of the
    enharmonic table of [lib/transpose.ts] to the sharp spelling of its
    pitch class; its results are notes of [NOTE_ORDER_SHARPS], which it
    leaves as they are and which stand there at the index of their
    pitch class; and [semitoneDistance] between two of them is the
    difference of the pitch classes modulo 12. *)
Theorem toSharp_agrees_with_pitch_classes :
  (forall n i, Transpose.indexOf n = Some i ->
      Chords.toSharp n = Chords.Ok (Spec.spell i true))
  /\ (forall n s, Chords.toSharp n = Chords.Ok s ->
      In s Chords.NOTE_ORDER_SHARPS
      /\ Chords.toSharp s = Chords.Ok s
      /\ Transpose.indexOf s = Some (Capo.arrayIndexOf Chords.NOTE_ORDER_SHARPS s))
  /\ (forall i j, 0 <= i <= 11 -> 0 <= j <= 11 ->
      Chords.semitoneDistance (Spec.spell i true) (Spec.spell j true) = (j - i) mod 12).
Proof.
  split; [|split].
  - intros n i H. apply lookup_in in H.
    assert (A : forallb (fun kv =>
                  match Chords.toSharp (fst kv) with
                  | Chords.Ok s => JS.str_eqb s (Spec.spell (snd kv) true)
                  | Chords.Throw _ => false
                  end) Transpose.ENHARMONIC_MAP = true) by (vm_compute; reflexivity).
    rewrite forallb_forall in A. apply A in H. cbn [fst snd] in H.
    destruct (Chords.toSharp n) as [s|m]; [|discriminate].
    apply str_eqb_eq in H. subst. reflexivity.
  - intros n s H. apply toSharp_ok_in in H. split; [exact H|].
    assert (A : forallb (fun s =>
                  match Chords.toSharp s with
                  | Chords.Ok s' => JS.str_eqb s' s
                  | Chords.Throw _ => false
                  end
                  && match Transpose.indexOf s with
                     | Some i => i =? Capo.arrayIndexOf Chords.NOTE_ORDER_SHARPS s
                     | None => false
                     end) Chords.NOTE_ORDER_SHARPS = true) by (vm_compute; reflexivity).
    rewrite forallb_forall in A. apply A in H. apply andb_prop in H. destruct H as [H1 H2].
    split.
    + destruct (Chords.toSharp s) as [s'|m]; [|discriminate].
      apply str_eqb_eq in H1. subst. reflexivity.
    + destruct (Transpose.indexOf s) as [i|]; [|discriminate].
      apply Z.eqb_eq in H2. subst. reflexivity.
  - intros i j Hi Hj. enum12 i; enum12 j; reflexivity.
Qed.

(** X5. For each of the twelve roots and each of the three barre
    qualities [generateBarresFor] gives two to four voicings, lowest
    position first, at base frets from 1 to 17 and never at the nut.
    Each one carries the quality asked for and the root's name, and its
    barre stops the root: on the low E string for an E shape, on the A
    string for an A shape.  Both shapes occur within the first twelve
    frets. *)
Theorem generateBarresFor_stops_the_root :
  forall (root : list Z) (q : Chords.Quality),
    In root Chords.NOTE_ORDER_SHARPS ->
    In q [Chords.maj; Chords.min; Chords.dom7] ->
    let l := Chords.generateBarresFor root q in
    (2 <= List.length l <= 4)%nat
    /\ StronglySorted Props.byBaseFret l
    /\ Forall (fun v =>
                 1 <= Chords.baseFret v <= 17
                 /\ Chords.quality v = Some q
                 /\ Chords.shortName v = Some (root ++ Chords.qualitySuffix q)
                 /\ ((Chords.family v = Some Chords.barre_e
                      /\ Props.noteAtFret (JS.lit "E") (Chords.baseFret v) = Some root)
                     \/ (Chords.family v = Some Chords.barre_a
                         /\ Props.noteAtFret (JS.lit "A") (Chords.baseFret v) = Some root)))
              l
    /\ Exists (fun v => Chords.family v = Some Chords.barre_e
                        /\ Chords.baseFret v <= 12) l
    /\ Exists (fun v => Chords.family v = Some Chords.barre_a
                        /\ Chords.baseFret v <= 12) l.
Proof.
  intros root q Hroot Hq.
  unfold Chords.NOTE_ORDER_SHARPS in Hroot. cbn [map In] in Hroot, Hq.
  repeat (destruct Hroot as [Hroot|Hroot]; [subst root|]); [..|contradiction];
  (repeat (destruct Hq as [Hq|Hq]; [subst q|]); [..|contradiction]);
  cbv zeta;
  (split; [vm_compute; split; repeat constructor|]);
  (split; [vm_compute; repeat constructor; discriminate|]);
  (split; [vm_compute;
           repeat (apply Forall_cons;
                   [ split; [split; discriminate|];
                     split; [reflexivity|];
                     split; [reflexivity|];
                     first [ left; split; reflexivity | right; split; reflexivity ] |]);
           apply Forall_nil|]);
  (split; vm_compute;
   first [ apply Exists_cons_hd; split; [reflexivity | discriminate]
         | apply Exists_cons_tl; apply Exists_cons_hd; split; [reflexivity | discriminate]
         | do 2 apply Exists_cons_tl; apply Exists_cons_hd; split; [reflexivity | discriminate]
         | do 3 apply Exists_cons_tl; apply Exists_cons_hd; split; [reflexivity | discriminate] ]).
Qed.

(** The barres of F# minor: E shape at 2 and 14, A shape at 9. *)
Lemma generateBarresFor_stops_the_root_witness :
  map (fun v => (Chords.family v, Chords.baseFret v))
      (Chords.generateBarresFor (JS.lit "F#") Chords.min)
  = [ (Some Chords.barre_e, 2); (Some Chords.barre_a, 9); (Some Chords.barre_e, 14) ]
  /\ Forall (fun v =>
               1 <= Chords.baseFret v <= 17
               /\ Chords.quality v = Some Chords.min
               /\ Chords.shortName v = Some (JS.lit "F#" ++ Chords.qualitySuffix Chords.min)
               /\ ((Chords.family v = Some Chords.barre_e
                    /\ Props.noteAtFret (JS.lit "E") (Chords.baseFret v) = Some (JS.lit "F#"))
                   \/ (Chords.family v = Some Chords.barre_a
                       /\ Props.noteAtFret (JS.lit "A") (Chords.baseFret v)
                          = Some (JS.lit "F#"))))
            (Chords.generateBarresFor (JS.lit "F#") Chords.min).
Proof.
  split; [reflexivity|].
  apply (generateBarresFor_stops_the_root (JS.lit "F#") Chords.min).
  - unfold Chords.NOTE_ORDER_SHARPS. cbn [map In]. do 6 right. left. reflexivity.
  - cbn [In]. right. left. reflexivity.
Defined.

Section MoreCapo.
Import JS Spec Transpose Capo.

Lemma easyBonus_cases k :
  (has OPEN_SHAPE_KEYS k = true /\ easyBonus k = 100%Q)
  \/ (has OPEN_SHAPE_KEYS k = false /\ easyBonus k = 0%Q).
Proof. unfold easyBonus. destruct (has OPEN_SHAPE_KEYS k); [left | right]; split; reflexivity. Qed.

Lemma comfort_Z fret :
  exists z, comfort fret = inject_Z z /\ 0 <= z
            /\ (0 <= fret -> z <= 20)
            /\ (forall g z', fret <= g -> comfort g = inject_Z z' -> z' <= z).
Proof.
  unfold comfort. destruct (fret <=? 5) eqn:E.
  - apply Z.leb_le in E. exists (20 - 2 * fret). split; [reflexivity|].
    split; [lia|]. split; [lia|]. intros g z' Hg.
    destruct (g <=? 5) eqn:G; intros Hz; apply (f_equal Qnum) in Hz;
      cbn [Qnum inject_Z] in Hz; subst z'.
    + apply Z.leb_le in G. lia.
    + apply Z.leb_gt in G. lia.
  - apply Z.leb_gt in E. exists (Z.max 0 (10 - 3 * (fret - 5))). split; [reflexivity|].
    split; [lia|]. split; [lia|]. intros g z' Hg.
    destruct (g <=? 5) eqn:G; intros Hz; apply (f_equal Qnum) in Hz;
      cbn [Qnum inject_Z] in Hz; subst z'.
    + apply Z.leb_le in G. lia.
    + apply Z.leb_gt in G. lia.
Qed.

Lemma bias_Z k : exists z, (bias k == inject_Z z * (1 # 2))%Q /\ 0 <= z <= 5.
Proof.
  unfold bias. eexists. split; [reflexivity|]. lia.
Qed.

End MoreCapo.

(** X6. A capo position that leaves open shapes (a shapes key among C,
    G, D, A, E) scores above every position from fret 0 up that does
    not; and for one shapes key a higher fret never scores more than a
    lower one. *)
Theorem scoreCapo_ranks_open_shapes_first :
  forall (open other k : list Z) (e f g h : Z),
    Transpose.has Capo.OPEN_SHAPE_KEYS open = true ->
    Transpose.has Capo.OPEN_SHAPE_KEYS other = false ->
    0 <= f ->
    0 <= g <= h ->
    (Capo.scoreCapo other f < Capo.scoreCapo open e)%Q
    /\ (Capo.scoreCapo k h <= Capo.scoreCapo k g)%Q.
Proof.
  intros open other k e f g h Ho Hn Hf Hgh.
  rewrite !scoreCapo_terms.
  destruct (easyBonus_cases open) as [[_ Eo]|[A _]]; [|congruence].
  destruct (easyBonus_cases other) as [[A _]|[_ En]]; [congruence|].
  rewrite Eo, En.
  destruct (comfort_Z e) as (ze & Ee & Pe & _ & _).
  destruct (comfort_Z f) as (zf & Ef & _ & Bf & _).
  destruct (comfort_Z g) as (zg & Eg & _ & _ & Mg).
  destruct (comfort_Z h) as (zh & Eh & _ & _ & _).
  destruct (bias_Z open) as (bo & Ebo & Rbo).
  destruct (bias_Z other) as (bn & Ebn & Rbn).
  specialize (Bf Hf). specialize (Mg h zh (proj2 Hgh) Eh).
  rewrite Ee, Ef, Eg, Eh, Ebo, Ebn.
  assert (Q1 : (inject_Z zf <= 20)%Q) by (rewrite (Zle_Qle zf 20) in Bf; exact Bf).
  assert (Q2 : (0 <= inject_Z ze)%Q) by (rewrite (Zle_Qle 0 ze) in Pe; exact Pe).
  assert (Q3 : (inject_Z bn <= 5)%Q) by (rewrite (Zle_Qle bn 5) in Rbn; apply Rbn).
  assert (Q4 : (0 <= inject_Z bo)%Q) by (rewrite (Zle_Qle 0 bo) in Rbo; apply Rbo).
  assert (Q5 : (inject_Z zh <= inject_Z zg)%Q) by (rewrite <- Zle_Qle; exact Mg).
  split; lra.
Qed.

(** "G" with the capo at fret 7 against "F#" without a capo. *)
Lemma scoreCapo_ranks_open_shapes_first_witness :
  (Capo.scoreCapo (JS.lit "F#") 0 < Capo.scoreCapo (JS.lit "G") 7)%Q
  /\ (Capo.scoreCapo (JS.lit "D") 7 <= Capo.scoreCapo (JS.lit "D") 2)%Q.
Proof.
  apply (scoreCapo_ranks_open_shapes_first
           (JS.lit "G") (JS.lit "F#") (JS.lit "D") 7 0 2 7).
  - reflexivity.
  - reflexivity.
  - lia.
  - lia.
Defined.

Section MoreSuggestions.
Import JS Spec Transpose Capo.

Lemma open_key_recognized k : has OPEN_SHAPE_KEYS k = true -> normNote k <> None.
Proof.
  intros H. apply has_in in H. unfold OPEN_SHAPE_KEYS in H. cbn [map In] in H.
  repeat (destruct H as [H|H]; [subst k; vm_compute; discriminate|]). contradiction.
Qed.

Lemma unrecognized_not_open k : normNote k = None -> has OPEN_SHAPE_KEYS k = false.
Proof.
  intros H. destruct (has OPEN_SHAPE_KEYS k) eqn:E; [|reflexivity].
  apply open_key_recognized in E. contradiction.
Qed.

Lemma unrecognized_no_bias k : normNote k = None -> arrayIndexOf biasOrder k = -1.
Proof.
  intros H. unfold arrayIndexOf, biasOrder. cbn [map arrayIndexFrom].
  repeat match goal with
         | |- (if str_eqb ?a k then _ else _) = _ =>
             destruct (str_eqb a k) eqn:E;
             [ apply str_eqb_eq in E; subst k; vm_compute in H; discriminate | clear E ]
         end.
  reflexivity.
Qed.

End MoreSuggestions.

(** The goal [Permutation l r] for two lists in normal form. *)
Ltac split_at a r k :=
  lazymatch r with
  | a :: ?l2 => k (@nil (list Z)) l2
  | ?b :: ?r' => split_at a r' ltac:(fun l1 l2 => k (b :: l1) l2)
  end.

Ltac perm_solve :=
  lazymatch goal with
  | |- Permutation [] [] => apply perm_nil
  | |- Permutation (?a :: ?l) ?r =>
      split_at a r ltac:(fun l1 l2 => apply (Permutation_cons_app l1 l2 a));
      cbn [app]; perm_solve
  end.

(** X7. For a target key that [normNote] recognizes, the five
    suggestions are the five positions with open shapes: their shapes
    keys are C, G, D, A and E, each once, and their reasons say so.
    Their frets lie between 0 and 11 and differ, and each shapes key
    moved up by its fret has the pitch class of the target: played with
    the capo there, the shapes sound in the target key.  A target that
    is itself one of the five keys has "no capo" as its first
    suggestion. *)
Theorem suggestCapos_are_the_open_shapes :
  forall (targetKey : list Z) (pc : Z),
    Spec.pitchClassOf targetKey = Some pc ->
    let l := Capo.suggestCaposForTargetKey targetKey in
    Permutation (map Capo.shapesKey l) Capo.OPEN_SHAPE_KEYS
    /\ NoDup (map Capo.capoFret l)
    /\ Forall (fun s =>
                 0 <= Capo.capoFret s <= 11
                 /\ Capo.reason s
                    = (if Capo.capoFret s =? 0
                       then JS.lit "No capo needed " ++ [8212] ++ JS.lit " classic open "
                            ++ Capo.shapesKey s ++ JS.lit " shapes"
                       else JS.lit "Open " ++ Capo.shapesKey s
                            ++ JS.lit " shapes (easy chord grips)")
                 /\ forall p,
                      Spec.pitchClassOf
                        (Transpose.transposeNote (Capo.shapesKey s) (Capo.capoFret s) p)
                      = Some pc)
              l
    /\ (Transpose.has Capo.OPEN_SHAPE_KEYS (Spec.spell pc true) = true ->
        map Capo.capoFret (firstn 1 l) = [0]).
Proof.
  intros targetKey pc H l. subst l.
  pose proof (pitchClassOf_range _ _ H) as R.
  unfold Capo.suggestCaposForTargetKey, Capo.suggestionAt, Capo.shapesKeyFor.
  rewrite frets_all. cbn [map].
  rewrite !(transposeNote_spell targetKey _ _ pc H).
  clear H. destruct (Transpose.preferSharpsForKey targetKey); enum12 pc;
  match goal with
  | |- context [firstn 5 ?s] =>
      let v := eval vm_compute in (firstn 5 s) in
      replace (firstn 5 s) with v by (vm_compute; reflexivity)
  end;
  cbn [map Capo.shapesKey Capo.capoFret];
  (split; [vm_compute; perm_solve|]);
  (split; [repeat (apply NoDup_cons; [cbn [In]; intuition discriminate|]); apply NoDup_nil|]);
  (split;
   [repeat (apply Forall_cons;
            [cbn [Capo.shapesKey Capo.capoFret Capo.reason]; split;
             [lia | split; [vm_compute; reflexivity | intros []; vm_compute; reflexivity]]|]);
    apply Forall_nil|]);
  vm_compute; intros E; first [reflexivity | discriminate E].
Qed.

(** For the target "Bb": capo 1 with A shapes, 3 with G, 6 with E, 8
    with D, 10 with C. *)
Lemma suggestCapos_are_the_open_shapes_witness :
  map (fun s => (Capo.capoFret s, Capo.shapesKey s))
      (Capo.suggestCaposForTargetKey (JS.lit "Bb"))
  = [ (1, JS.lit "A"); (3, JS.lit "G"); (6, JS.lit "E"); (8, JS.lit "D");
      (10, JS.lit "C") ]
  /\ Permutation (map Capo.shapesKey (Capo.suggestCaposForTargetKey (JS.lit "Bb")))
                 Capo.OPEN_SHAPE_KEYS.
Proof.
  split; [vm_compute; reflexivity|].
  apply (suggestCapos_are_the_open_shapes (JS.lit "Bb") 10). reflexivity.
Defined.

(** X8. A target key that [normNote] does not recognize is no error and
    gives no empty list: it is its own shapes key at every fret, so the
    suggestions are the frets 0 to 4 in this order, with the target
    itself as shapes key. *)
Theorem suggestCapos_unrecognized_key :
  forall targetKey : list Z,
    Transpose.normNote targetKey = None ->
    map (fun s => (Capo.capoFret s, Capo.shapesKey s, Capo.reason s))
        (Capo.suggestCaposForTargetKey targetKey)
    = [ (0, targetKey, JS.lit "Low capo, comfortable reach");
        (1, targetKey, JS.lit "Low capo, comfortable reach");
        (2, targetKey, JS.lit "Low capo, comfortable reach");
        (3, targetKey, JS.lit "Usable option");
        (4, targetKey, JS.lit "Usable option") ].
Proof.
  intros targetKey H.
  unfold Capo.suggestCaposForTargetKey, Capo.suggestionAt, Capo.shapesKeyFor.
  rewrite frets_all. cbn [map].
  rewrite !(fun s p => transposeNote_unrecognized targetKey s p H).
  unfold Capo.scoreCapo, Capo.reasonFor.
  rewrite (unrecognized_not_open _ H), (unrecognized_no_bias _ H).
  vm_compute. reflexivity.
Qed.

(** The key "H" is not recognized. *)
Lemma suggestCapos_unrecognized_key_witness :
  Transpose.normNote (JS.lit "H") = None
  /\ map (fun s => (Capo.capoFret s, Capo.shapesKey s, Capo.reason s))
         (Capo.suggestCaposForTargetKey (JS.lit "H"))
     = [ (0, JS.lit "H", JS.lit "Low capo, comfortable reach");
         (1, JS.lit "H", JS.lit "Low capo, comfortable reach");
         (2, JS.lit "H", JS.lit "Low capo, comfortable reach");
         (3, JS.lit "H", JS.lit "Usable option");
         (4, JS.lit "H", JS.lit "Usable option") ].
Proof.
  split; [reflexivity|].
  apply (suggestCapos_unrecognized_key (JS.lit "H")). reflexivity.
Defined.

(* ================================================================== *)
(** * Voicings                                                         *)
(* ================================================================== *)

Section MoreVoicings.
Import JS Spec Transpose Chords.

Lemma parse_ok_root symbol p :
  parseChordSymbol symbol = Ok (Some p) -> In (root p) NOTE_ORDER_SHARPS.
Proof.
  intros H. pose proof (parseChordSymbol_cases symbol) as C.
  destruct (parseHead symbol) as [[r t]|]; [|congruence].
  destruct (rootIsCanonical r); [|congruence].
  destruct C as (n & Hn & E). rewrite E in H. injection H as <-. exact Hn.
Qed.

Lemma findVoicingsFor_parsed symbol p :
  parseChordSymbol symbol = Ok (Some p) ->
  findVoicingsFor symbol
  = findVoicingsFor (openKeyFor (root p) (coarseQuality (tail p))).
Proof.
  intros H. pose proof (parse_ok_root symbol p H) as Hn.
  unfold findVoicingsFor at 1. rewrite H. cbn [bind].
  generalize (coarseQuality (tail p)) as q. intros q.
  destruct p as [n t]. cbn [root tail] in *. clear H.
  unfold NOTE_ORDER_SHARPS in Hn. cbn [map In] in Hn.
  repeat (destruct Hn as [Hn|Hn]; [subst n; destruct q; vm_compute; reflexivity|]).
  contradiction.
Qed.

End MoreVoicings.

(** A closed voicing fits the diagram. *)
Ltac fits :=
  unfold Props.fitsDiagram, ChordDiagram.strings, ChordDiagram.frets;
  cbn [Chords.positions Chords.baseFret Chords.barres List.length
       Chords.fromString Chords.toString Chords.fret];
  split; [reflexivity|];
  split; [repeat (apply Forall_cons;
                  [split; [lia | intros E; first [reflexivity | discriminate E]]|]);
          apply Forall_nil|];
  split; [lia|];
  repeat (apply Forall_cons;
          [cbn [Chords.fromString Chords.toString Chords.fret]; lia|]);
  apply Forall_nil.

(** X9. The voicings of a symbol are those of its canonical name: the
    sharp name of its root followed by "m", "7", "maj7", "m7", "sus4" or
    "add9" for its coarse quality, and by nothing else.  So "Dbm7b5" has
    the voicings of "C#m7", and "Bbdim" those of "A#". *)
Theorem findVoicingsFor_canonical_name :
  forall (symbol : list Z) (p : Chords.Parsed),
    Chords.parseChordSymbol symbol = Chords.Ok (Some p) ->
    Chords.findVoicingsFor symbol
    = Chords.findVoicingsFor
        (Chords.openKeyFor (Chords.root p) (Chords.coarseQuality (Chords.tail p))).
Proof. exact findVoicingsFor_parsed. Qed.

Lemma findVoicingsFor_canonical_name_witness :
  Chords.findVoicingsFor (JS.lit "Dbm7b5") = Chords.findVoicingsFor (JS.lit "C#m7")
  /\ Chords.findVoicingsFor (JS.lit "Bbdim") = Chords.findVoicingsFor (JS.lit "A#").
Proof.
  split.
  - apply (findVoicingsFor_canonical_name (JS.lit "Dbm7b5")
             {| Chords.root := JS.lit "C#"; Chords.tail := JS.lit "m7b5" |}).
    reflexivity.
  - apply (findVoicingsFor_canonical_name (JS.lit "Bbdim")
             {| Chords.root := JS.lit "A#"; Chords.tail := JS.lit "dim" |}).
    reflexivity.
Defined.

Lemma findVoicingsFor_shape :
  forall (symbol : list Z) (vs : list Chords.Shape),
    Chords.findVoicingsFor symbol = Chords.Ok vs ->
    let opens := filter Props.isOpenShape vs in
    let barres := filter (fun v => negb (Props.isOpenShape v)) vs in
    (vs = [] <-> Chords.parseChordSymbol symbol = Chords.Ok None)
    /\ Forall Props.fitsDiagram vs
    /\ vs = opens ++ barres
    /\ (List.length opens <= 1)%nat
    /\ Forall Props.isBarre barres
    /\ StronglySorted Props.byBaseFret barres
    /\ (vs <> [] -> (2 <= List.length barres <= 4)%nat).
Proof.
  intros symbol vs H.
  pose proof (parseChordSymbol_cases symbol) as C.
  unfold Chords.findVoicingsFor in H.
  destruct (Spec.parseHead symbol) as [[r t]|].
  - destruct (Spec.rootIsCanonical r).
    + destruct C as (n & Hn & Hp). rewrite Hp in H |- *.
      cbn [Chords.bind Chords.root Chords.tail] in H. revert H.
      generalize (Chords.coarseQuality (JS.toLowerCase t)) as q.
      generalize (JS.toLowerCase t) as t'. intros t' q.
      unfold Chords.NOTE_ORDER_SHARPS in Hn. cbn [map In] in Hn.
      repeat (destruct Hn as [Hn|Hn]; [subst n|]); [..|contradiction];
      destruct q; intros H; vm_compute in H; injection H as <-;
      cbv zeta;
      cbn [filter Props.isOpenShape Chords.isOpen Chords.family negb app List.length];
      (split; [split; intros E; discriminate E|]);
      (split; [repeat (apply Forall_cons; [fits|]); apply Forall_nil|]);
      (split; [reflexivity|]);
      (split; [lia|]);
      (split; [repeat (apply Forall_cons;
                       [first [left; reflexivity | right; reflexivity]|]);
               apply Forall_nil|]);
      (split; [repeat (apply SSorted_cons;
                       [|repeat (apply Forall_cons;
                                 [unfold Props.byBaseFret; cbn [Chords.baseFret]; lia|]);
                         apply Forall_nil]);
               apply SSorted_nil|]);
      intros _; lia.
    + rewrite C in H. discriminate H.
  - rewrite C in H |- *. cbn [Chords.bind] in H. injection H as <-.
    cbv zeta. cbn [filter app List.length].
    split; [split; reflexivity|]. split; [apply Forall_nil|].
    split; [reflexivity|]. split; [lia|]. split; [apply Forall_nil|].
    split; [apply SSorted_nil|]. intros E. contradiction.
Qed.

(** X10. Whenever [findVoicingsFor] returns, its list is empty only for
    a symbol that does not parse.  Otherwise it holds at most one open
    shape, which comes first, and then two to four barre voicings,
    lowest position first; and [ChordDiagram] can draw every voicing in
    full. *)
Theorem findVoicingsFor_lists_drawable_voicings :
  forall (symbol : list Z) (vs : list Chords.Shape),
    Chords.findVoicingsFor symbol = Chords.Ok vs ->
    let opens := filter Props.isOpenShape vs in
    let barres := filter (fun v => negb (Props.isOpenShape v)) vs in
    (vs = [] <-> Chords.parseChordSymbol symbol = Chords.Ok None)
    /\ Forall Props.fitsDiagram vs
    /\ vs = opens ++ barres
    /\ (List.length opens <= 1)%nat
    /\ Forall Props.isBarre barres
    /\ StronglySorted Props.byBaseFret barres
    /\ (vs <> [] -> (2 <= List.length barres <= 4)%nat).
Proof. exact findVoicingsFor_shape. Qed.

(** "Gm7": the open G shape, then the minor barres at frets 3, 10 and 15. *)
Lemma findVoicingsFor_lists_drawable_voicings_witness :
  (exists vs, Chords.findVoicingsFor (JS.lit "Gm7") = Chords.Ok vs
     /\ map (fun v => (Chords.family v, Chords.baseFret v, Chords.quality v)) vs
        = [ (Some Chords.open, 1, Some Chords.maj);
            (Some Chords.barre_e, 3, Some Chords.min);
            (Some Chords.barre_a, 10, Some Chords.min);
            (Some Chords.barre_e, 15, Some Chords.min) ]
     /\ Forall Props.fitsDiagram vs).
Proof.
  eexists. split; [vm_compute; reflexivity|]. split; [reflexivity|].
  eapply (findVoicingsFor_lists_drawable_voicings (JS.lit "Gm7")).
  vm_compute. reflexivity.
Defined.

(** X11. The voicing shown first for a symbol that parses is the open
    shape filed under its canonical name; or else the open shape of its
    root alone, which is a major shape whatever the quality of the
    symbol; or else the lowest barre.  For "Gm" it is the open G major
    shape, for "F#m" the E-shape barre at fret 2. *)
Theorem firstVoicing_prefers_open_shapes :
  forall (symbol : list Z) (p : Chords.Parsed),
    Chords.parseChordSymbol symbol = Chords.Ok (Some p) ->
    let q := Chords.coarseQuality (Chords.tail p) in
    Props.firstVoicing symbol
    = Chords.Ok
        (match Transpose.lookup (Chords.openKeyFor (Chords.root p) q) Chords.OPEN_SHAPES with
         | Some s => Some s
         | None =>
             match Transpose.lookup (Chords.root p) Chords.OPEN_SHAPES with
             | Some s => Some s
             | None => hd_error (Chords.generateBarresFor (Chords.root p)
                                   (Props.barreQuality q))
             end
         end)
    /\ (forall s, Transpose.lookup (Chords.root p) Chords.OPEN_SHAPES = Some s ->
                  Chords.quality s = Some Chords.maj).
Proof.
  intros symbol p H q. subst q.
  pose proof (parse_ok_root symbol p H) as Hn.
  unfold Props.firstVoicing. rewrite (findVoicingsFor_parsed symbol p H).
  generalize (Chords.coarseQuality (Chords.tail p)) as q. intros q.
  destruct p as [n t]. cbn [Chords.root Chords.tail] in *. clear H.
  unfold Chords.NOTE_ORDER_SHARPS in Hn. cbn [map In] in Hn.
  repeat (destruct Hn as [Hn|Hn];
          [subst n; split;
           [destruct q; vm_compute; reflexivity
           |intros s; vm_compute; intros E; first [discriminate E | injection E as <-; reflexivity]]
          |]).
  contradiction.
Qed.

Lemma firstVoicing_prefers_open_shapes_witness :
  Props.firstVoicing (JS.lit "Gm")
  = Chords.Ok (Some (Chords.openShape "G" "G" [3; 2; 0; 0; 0; 3] Chords.maj))
  /\ option_map Chords.name (hd_error (Chords.generateBarresFor (JS.lit "F#") Chords.min))
     = Some (JS.lit "F#m (E-shape barre @2)")
  /\ Props.firstVoicing (JS.lit "F#m")
     = Chords.Ok (hd_error (Chords.generateBarresFor (JS.lit "F#") Chords.min)).
Proof.
  split; [|split; [reflexivity|]].
  - apply (firstVoicing_prefers_open_shapes (JS.lit "Gm")
             {| Chords.root := JS.lit "G"; Chords.tail := JS.lit "m" |}).
    reflexivity.
  - apply (firstVoicing_prefers_open_shapes (JS.lit "F#m")
             {| Chords.root := JS.lit "F#"; Chords.tail := JS.lit "m" |}).
    reflexivity.
Defined.

(** X12. Every shape of the curated table is found under its own name:
    the names differ, [mapSymbolToOpenKey] maps each name to itself, and
    the shape filed under a name is the first voicing of that name and
    has it as its short name. *)
Theorem open_shapes_found_by_name :
  NoDup (map fst Chords.OPEN_SHAPES)
  /\ Forall (fun kv =>
               Chords.mapSymbolToOpenKey (fst kv) = Chords.Ok (Some (fst kv))
               /\ Props.firstVoicing (fst kv) = Chords.Ok (Some (snd kv))
               /\ Chords.shortName (snd kv) = Some (fst kv))
            Chords.OPEN_SHAPES.
Proof.
  split.
  - unfold Chords.OPEN_SHAPES. cbn [map fst].
    repeat (apply NoDup_cons;
            [cbn [In]; intros E;
             repeat (destruct E as [E|E]; [vm_compute in E; discriminate E|]);
             contradiction|]).
    apply NoDup_nil.
  - unfold Chords.OPEN_SHAPES.
    repeat (apply Forall_cons;
            [cbn [fst snd]; split; [vm_compute; reflexivity|];
             split; vm_compute; reflexivity|]).
    apply Forall_nil.
Qed.

(* ================================================================== *)
(** * The chord matchers of the components                             *)
(* ================================================================== *)

Section ComponentPatterns.
Import JS Spec Transpose Chords.

Lemma starOf_mono (P Q : list Z -> Prop) :
  (forall u, P u -> Q u) -> forall w, StarOf P w -> StarOf Q w.
Proof. intros H w. induction 1; constructor; auto. Qed.

Lemma starOf_flat (P Q : list Z -> Prop) :
  (forall u, P u -> StarOf Q u) -> forall w, StarOf P w -> StarOf Q w.
Proof.
  intros H w. induction 1 as [|u v Hu Hne Hv IH]; [constructor|].
  apply starOf_app; [apply H, Hu | exact IH].
Qed.

Lemma lang_ignore_case r : Props.positive r = true ->
  forall w, Lang false r w -> Lang true r w.
Proof.
  induction r; cbn [Props.positive Lang]; intros Hp w; try discriminate.
  - auto.
  - destruct c as [rs inv]. cbn [cinvert] in Hp. destruct inv; [discriminate|].
    intros (ch & -> & H). exists ch. split; [reflexivity|].
    apply cmatch_pos. apply cmatch_pos in H. apply found_exact in H.
    exists ch. split; [exact H | reflexivity].
  - apply andb_prop in Hp. destruct Hp as [Ha Hb].
    intros (u & v & -> & Hu & Hv). exists u, v. auto.
  - apply andb_prop in Hp. destruct Hp as [Ha Hb]. intros [H|H]; auto.
  - apply starOf_mono. auto.
  - intros [H|H]; auto.
Qed.

Lemma lang_slash u : Lang true (rchar "/") u -> u = [47].
Proof.
  unfold rchar, rch. cbn [Lang].
  change (Z.of_N (N_of_ascii "/")) with 47. intros (ch & -> & H).
  apply cmatch_literal in H; [|lia]. unfold eqCI in H. f_equal. lia.
Qed.

Lemma chordRegexItems_items x : Lang true Props.chordRegexItems x -> StarOf Item x.
Proof.
  unfold Props.chordRegexItems. cbn [ralt Lang]. intros H.
  assert (A : Lang true chordLikeItems x
              \/ Lang true (rseq [ rchar "/"; rrange 65 71;
                                   ROpt (RAlt (rchar "#") (rchar "b")) ]) x).
  { unfold chordLikeItems. cbn [ralt Lang]. tauto. }
  clear H. destruct A as [H|H].
  - apply lang_items in H. apply starOf_one; [exact H | apply (item_chars x H)].
  - cbn [rseq Lang] in H.
    destruct H as (u & v & -> & Hu & (u' & v' & -> & Hr & Hacc)).
    apply lang_slash in Hu. subst u. apply lang_root in Hr.
    destruct Hr as (c & -> & Hc).
    apply (starOf_app Item [47]); [apply starOf_one; [apply item_slash | discriminate]|].
    apply (starOf_app Item [c]);
      [apply starOf_one; [apply item_rootLetter, Hc | discriminate]|].
    destruct Hacc as [->|Hacc]; [constructor|].
    apply lang_accidental in Hacc. destruct Hacc as (a & -> & Ha).
    apply starOf_one; [apply item_accidental, Ha | discriminate].
Qed.

Lemma anchored_chordRegex : anchored Transposer.CHORD_REGEX Props.chordRegexBody.
Proof. intros inp st k. reflexivity. Qed.

Lemma lang_upper_root u :
  Lang false (rrange 65 71) u -> exists L, u = [L] /\ 65 <= L <= 71.
Proof.
  unfold rrange. cbn [Lang]. intros (ch & -> & H). exists ch. split; [reflexivity|].
  rewrite cmatch_exact in H. cbn [cranges cinvert] in H. rewrite xorb_false_r in H.
  apply in_ranges_iff in H. destruct H as (r & [<-|[]] & H). exact H.
Qed.

(** What the matcher of the main screen accepts is chord-like, and its
    first letter is an upper-case root. *)
Lemma chordRegex_chordLike s :
  test Transposer.CHORD_REGEX s = true ->
  isChordLike s = true /\ startsWithUpperRoot s.
Proof.
  intros H.
  apply (test_anchored Transposer.CHORD_REGEX Props.chordRegexBody s
           anchored_chordRegex eq_refl) in H.
  change (ignoreCase Transposer.CHORD_REGEX) with false in H. split.
  - apply isChordLike_spec, lang_chordLike.
    apply (lang_ignore_case Props.chordRegexBody eq_refl) in H.
    unfold Props.chordRegexBody in H. unfold chordLikeBody. cbn [Lang] in H |- *.
    destruct H as (u & v & -> & Hu & (acc & items & -> & Hacc & Hitems)).
    exists u, (acc ++ items). split; [reflexivity|]. split; [exact Hu|].
    exists acc, items. split; [reflexivity|]. split; [exact Hacc|].
    apply (starOf_iff _ _ lang_items).
    apply (starOf_flat _ _ chordRegexItems_items). exact Hitems.
  - unfold Props.chordRegexBody in H. cbn [Lang] in H.
    destruct H as (u & v & -> & Hu & _). apply lang_upper_root in Hu.
    destruct Hu as (L & -> & HL). exists L, v. split; [reflexivity | exact HL].
Qed.

Lemma itemChar_not_lineTerminator c : itemChar c -> notLineTerminator c = true.
Proof.
  intros H. unfold notLineTerminator. apply negb_true_iff.
  destruct (in_ranges lineTerminator c) eqn:E; [|reflexivity].
  apply in_ranges_iff in E. destruct E as (r & Hr & Hc).
  unfold lineTerminator in Hr. cbn [In] in Hr. unfold itemChar in H.
  repeat (destruct Hr as [Hr|Hr]; [subst r; cbn [fst snd] in Hc; lia|]).
  contradiction.
Qed.

Lemma forallb_notLineTerminator t : Forall itemChar t -> forallb notLineTerminator t = true.
Proof.
  intros H. apply forallb_forall. rewrite Forall_forall in H.
  intros c Hc. apply itemChar_not_lineTerminator, H, Hc.
Qed.

(** The root [parseChordSymbol] reads in a chord-like symbol. *)
Lemma chordLike_parseHead s :
  isChordLike s = true ->
  exists r t, parseHead s = Some (r, t)
              /\ rootIsCanonical r = negb (Props.rootIsMisread s).
Proof.
  intros H. pose proof (chordLike_chars s H) as Hc.
  destruct s as [|L rest]; [rewrite isChordLike_nil in H; discriminate|].
  apply isChordLike_head in H. apply isRootLetterb_iff in H.
  inversion Hc as [|? ? HL Hrest]; subst.
  unfold parseHead, parseWith. rewrite H.
  assert (U : (65 <=? L) && (L <=? 71) = negb (97 <=? L)).
  { unfold isRootLetterb in H. lia. }
  destruct rest as [|a tl].
  - exists [L], []. split; [reflexivity|].
    cbn [rootIsCanonical Props.rootIsMisread]. rewrite U, orb_false_r. reflexivity.
  - inversion Hrest as [|? ? Ha Htl]; subst.
    destruct (isAccidentalb a) eqn:A.
    + rewrite (forallb_notLineTerminator tl Htl). exists [L; a], tl.
      split; [reflexivity|]. cbn [rootIsCanonical Props.rootIsMisread]. rewrite U.
      unfold isAccidentalb in A. lia.
    + rewrite (forallb_notLineTerminator (a :: tl) Hrest). exists [L], (a :: tl).
      split; [reflexivity|]. cbn [rootIsCanonical Props.rootIsMisread]. rewrite U.
      unfold isAccidentalb in A. lia.
Qed.

Lemma findVoicingsFor_chordLike s :
  isChordLike s = true ->
  if Props.rootIsMisread s
  then exists m, findVoicingsFor s = Throw m
  else exists vs, findVoicingsFor s = Ok vs /\ (2 <= List.length vs)%nat.
Proof.
  intros H. destruct (chordLike_parseHead s H) as (r & t & Hp & Hc).
  pose proof (parseChordSymbol_cases s) as C. rewrite Hp in C.
  destruct (Props.rootIsMisread s); cbn [negb] in Hc; rewrite Hc in C.
  - exists (lit "Bad note: " ++ r). unfold findVoicingsFor. rewrite C. reflexivity.
  - destruct C as (n & Hn & E).
    assert (F : exists vs, findVoicingsFor s = Ok vs).
    { unfold findVoicingsFor. rewrite E. cbn [bind]. eexists. reflexivity. }
    destruct F as (vs & F). exists vs. split; [exact F|].
    pose proof (findVoicingsFor_shape s vs F) as S. cbv zeta in S.
    destruct S as (S1 & _ & S2 & _ & _ & _ & S3).
    assert (Hne : vs <> []).
    { intros Hnil. apply S1 in Hnil. rewrite E in Hnil. discriminate Hnil. }
    specialize (S3 Hne). rewrite S2, length_app. lia.
Qed.

End ComponentPatterns.

(** X13. When the diagram of a chord-like token is asked for,
    [findVoicingsFor] throws exactly if the root is misread, that is if
    the token starts with a lower-case letter or has an upper-case "B"
    in second place; for every other chord-like token it returns at
    least two voicings.  The tokens the main screen takes for chords are
    chord-like and start with an upper-case root, so there the second
    case alone remains: "AB" throws. *)
Theorem findVoicingsFor_throws_on_misread_roots :
  (forall tok, Transpose.isChordLike tok = true ->
      if Props.rootIsMisread tok
      then exists m, Chords.findVoicingsFor tok = Chords.Throw m
      else exists vs, Chords.findVoicingsFor tok = Chords.Ok vs
                      /\ (2 <= List.length vs)%nat)
  /\ (forall tok, JS.test Transposer.CHORD_REGEX tok = true ->
      Transpose.isChordLike tok = true
      /\ Props.rootIsMisread tok
         = match nth_error tok 1 with Some a => a =? 66 | None => false end)
  /\ JS.test Transposer.CHORD_REGEX (JS.lit "AB") = true
  /\ Chords.findVoicingsFor (JS.lit "AB") = Chords.Throw (JS.lit "Bad note: AB")
  /\ JS.test Transposer.CHORD_REGEX (JS.lit "am") = false
  /\ JS.test PrintPage.CHORD_REGEX (JS.lit "am") = true.
Proof.
  split; [exact findVoicingsFor_chordLike|]. split.
  - intros tok H. destruct (chordRegex_chordLike tok H) as [H1 (L & tl & -> & HL)].
    split; [exact H1|]. cbn [Props.rootIsMisread nth_error].
    replace (97 <=? L) with false by lia. destruct tl; reflexivity.
  - repeat split; vm_compute; reflexivity.
Qed.

(* ================================================================== *)
(** * Steps add up                                                     *)
(* ================================================================== *)

Section StepsAdd.
Import JS Spec Transpose.

Lemma transposeChordSymbol_octaves symbol s k p :
  exactSteps s -> exactSteps (s + 12 * k) ->
  transposeChordSymbol symbol (s + 12 * k) p = transposeChordSymbol symbol s p.
Proof.
  intros Hs Hk. unfold transposeChordSymbol.
  apply transposeChordSymbolF_sameMoves, sameMoves_octaves; assumption.
Qed.

Lemma transposeChordText_octaves t s k p :
  exactSteps s -> exactSteps (s + 12 * k) ->
  transposeChordText t (s + 12 * k) p = transposeChordText t s p.
Proof.
  intros Hs Hk. apply transposeChordText_sameMoves, sameMoves_octaves; assumption.
Qed.

(** Two steps on a chord-like symbol without "/" and with a safe tail. *)
Lemma plain_compose sp a b p q :
  exactSteps a -> exactSteps b -> exactSteps (a + b) ->
  isChordLike sp = true -> includes (lit "/") sp = false ->
  tailStartsWithAccidental sp = false ->
  let sp1 := transposeChordSymbol sp a p in
  isChordLike sp1 = true /\ includes (lit "/") sp1 = false
  /\ tailStartsWithAccidental sp1 = false
  /\ transposeChordSymbol sp1 b q = transposeChordSymbol sp (a + b) q.
Proof.
  intros Xa Xb Xab Hc Hs Ha sp1.
  assert (H1 : isChordLike sp1 = true)
    by (apply transposeChordSymbol_chordLike; assumption).
  assert (S1 : includes (lit "/") sp1 = false)
    by (apply transposeChordSymbol_slashFree; assumption).
  split; [exact H1|]. split; [exact S1|].
  destruct (chordLike_parse sp Hc Hs) as (r & t & E & _).
  rewrite tailStartsWithAccidental_parse, E in Ha.
  destruct (parseRoot_inv _ _ _ E) as (_ & Hr & Ht).
  destruct (allRoots_recognized r Hr) as (idx & Hidx).
  assert (Ha' : match t with c :: _ => isAccidentalb c = false | [] => True end)
    by (destruct t; [exact I | exact Ha]).
  assert (E1 : sp1 = spell (movedIndex idx a) p ++ t).
  { unfold sp1. rewrite (transposeChordSymbol_plain sp a p Hs), E.
    rewrite (transposeNote_spell r a p idx Hidx). reflexivity. }
  destruct (parseRoot_spell _ p t (movedIndex_range idx a) Ht Ha') as [Ep _].
  split.
  - rewrite tailStartsWithAccidental_parse, E1, Ep. destruct t; [reflexivity | exact Ha].
  - rewrite (transposeChordSymbol_plain sp1 b q S1), E1, Ep.
    rewrite (transposeChordSymbol_plain sp (a + b) q Hs), E.
    rewrite <- (transposeNote_spell r a p idx Hidx).
    rewrite transposeNote_compose by assumption. reflexivity.
Qed.

Lemma safe_compose sp a b p q :
  exactSteps a -> exactSteps b -> exactSteps (a + b) ->
  isChordLike sp = true -> safeSymbol sp = true ->
  let sp1 := transposeChordSymbol sp a p in
  isChordLike sp1 = true /\ safeSymbol sp1 = true
  /\ transposeChordSymbol sp1 b q = transposeChordSymbol sp (a + b) q.
Proof.
  intros Xa Xb Xab Hc Hsafe sp1. unfold safeSymbol in Hsafe.
  destruct (includes (lit "/") sp) eqn:Hs.
  - destruct (transposeChordSymbol_slash sp a p Hs)
      as (top & bass & more & E & Htop & Hbass & E1).
    destruct (transposeChordSymbol_slash sp (a + b) q Hs)
      as (top' & bass' & more' & E' & _ & _ & E2).
    rewrite E in E'. injection E' as <- <- <-.
    rewrite E in Hsafe. apply andb_prop in Hsafe. destruct Hsafe as [St Sb].
    unfold plainSafe in St, Sb. apply andb_prop in St, Sb.
    destruct St as [Ct St], Sb as [Cb Sb]. apply negb_true_iff in St, Sb.
    destruct (plain_compose top a b p q Xa Xb Xab Ct Htop St) as (A1 & A2 & A3 & A4).
    destruct (plain_compose bass a b p q Xa Xb Xab Cb Hbass Sb) as (B1 & B2 & B3 & B4).
    destruct (splitStr_halves _ _ A2 B2) as [Hi Hsp].
    unfold sp1. rewrite E1.
    split; [apply chordLike_join_slash; assumption|]. split.
    + unfold safeSymbol. rewrite Hi, Hsp. unfold plainSafe.
      rewrite A1, A3, B1, B3. reflexivity.
    + rewrite (transposeChordSymbol_halves _ _ b q A2 B2), A4, B4, E2. reflexivity.
  - apply negb_true_iff in Hsafe.
    destruct (plain_compose sp a b p q Xa Xb Xab Hc Hs Hsafe) as (A1 & A2 & A3 & A4).
    split; [exact A1|]. split; [|exact A4].
    unfold safeSymbol. subst sp1. cbv zeta in A2, A3. rewrite A2, A3. reflexivity.
Qed.

Lemma span_compose sp a b p q :
  exactSteps a -> exactSteps b -> exactSteps (a + b) ->
  safeSpan sp = true ->
  safeSpan (image a p sp) = true
  /\ image b q (image a p sp) = image (a + b) q sp.
Proof.
  unfold safeSpan. intros Xa Xb Xab H. destruct (isChordLike sp) eqn:Ec.
  - destruct (safe_compose sp a b p q Xa Xb Xab Ec H) as (C1 & C2 & C3).
    rewrite (image_chord a p sp Ec), (image_chord b q _ C1), (image_chord (a + b) q sp Ec).
    rewrite C1. split; [exact C2 | exact C3].
  - rewrite !(image_not_chord _ _ sp Ec). rewrite Ec. split; reflexivity.
Qed.

Lemma text_compose t a b p q :
  exactSteps a -> exactSteps b -> exactSteps (a + b) ->
  safeText t = true ->
  safeText (transposeChordText t a p) = true
  /\ transposeChordText (transposeChordText t a p) b q
     = transposeChordText t (a + b) q.
Proof.
  intros Xa Xb Xab. unfold safeText.
  rewrite (transposeChordText_spans (transposeChordText t a p)).
  rewrite spans_transposeChordText, (transposeChordText_spans t (a + b) q).
  induction (spans t) as [|sp l IH]; intros H; [split; reflexivity|].
  cbn [forallb] in H. apply andb_prop in H. destruct H as [Hsp Hl].
  destruct (span_compose sp a b p q Xa Xb Xab Hsp) as [S1 S2].
  destruct (IH Hl) as [I1 I2].
  cbn [map forallb]. rewrite S1, I1. split; [reflexivity|].
  unfold join in *. cbn [List.concat]. rewrite S2. f_equal. exact I2.
Qed.

(** A text without root letters. *)
Lemma spans_chars (P : Z -> Prop) t : Forall P t -> Forall (Forall P) (spans t).
Proof.
  intros H. unfold spans. apply Forall_forall. intros span Hin.
  apply in_flat_map in Hin. destruct Hin as (tok & Htok & Hsp).
  assert (Ht : Forall P tok).
  { rewrite <- (split_join WS_SPLIT_RE t whole_capture_ws) in H.
    unfold join in H. rewrite Forall_forall in H. apply Forall_forall.
    intros c Hc. apply H. apply in_concat. exists tok. split; assumption. }
  pose proof (pieces_forall P tok Ht) as Hp. rewrite Forall_forall in Hp.
  apply Hp, Hsp.
Qed.

Lemma no_roots_unchanged t s p :
  Forall (fun c => isRootLetterb c = false) t -> transposeChordText t s p = t.
Proof.
  intros H. rewrite transposeChordText_spans.
  rewrite <- (spans_join t) at 2. f_equal.
  pose proof (spans_chars _ t H) as Hs.
  induction Hs as [|span l Hspan _ IH]; [reflexivity|].
  cbn [map]. rewrite IH. f_equal. apply image_not_chord.
  destruct span as [|c tl]; [apply isChordLike_nil|].
  destruct (isChordLike (c :: tl)) eqn:E; [|reflexivity].
  apply isChordLike_head, isRootLetterb_iff in E.
  inversion Hspan; subst. congruence.
Qed.

End StepsAdd.

(** X14. On a text whose chord tokens are safe (no tail that starts with
    "#", "b" or "B"), transposing by [a] and then by [b] gives the same
    text as transposing by [a + b], whatever the spelling preference of
    the first step, and the text in between is safe again.  So going
    back by [-a] gives the text respelled, which is the text transposed
    by 0, and respelling twice is respelling once.  The steps are of a
    size up to 2^53 - 11, within which the sum of an index and the steps
    is exact. *)
Theorem transposeChordText_steps_add :
  forall (t : list Z) (a b : Z) (p q : bool),
    Z.abs a <= 2 ^ 53 - 11 -> Z.abs b <= 2 ^ 53 - 11 ->
    Z.abs (a + b) <= 2 ^ 53 - 11 ->
    Spec.safeText t = true ->
    Spec.safeText (Transpose.transposeChordText t a p) = true
    /\ Transpose.transposeChordText (Transpose.transposeChordText t a p) b q
       = Transpose.transposeChordText t (a + b) q
    /\ Transpose.transposeChordText (Transpose.transposeChordText t a p) (- a) q
       = Transpose.transposeChordText t 0 q
    /\ Transpose.transposeChordText (Transpose.transposeChordText t 0 p) 0 p
       = Transpose.transposeChordText t 0 p.
Proof.
  intros t a b p q Xa Xb Xab H.
  assert (X0 : Spec.exactSteps 0) by (apply exactSteps_small; lia).
  split; [exact (proj1 (text_compose t a b p q Xa Xb Xab H))|].
  split; [exact (proj2 (text_compose t a b p q Xa Xb Xab H))|].
  split.
  - rewrite (proj2 (text_compose t a (- a) p q Xa (exactSteps_opp a Xa)
                      ltac:(rewrite Z.add_opp_diag_r; exact X0) H)).
    f_equal. lia.
  - rewrite (proj2 (text_compose t 0 0 p p X0 X0 X0 H)). reflexivity.
Qed.

(** "Bb7 F/A  (Gm), C#dim" up three and down five is the text down two. *)
Lemma transposeChordText_steps_add_witness :
  Spec.safeText (JS.lit "Bb7 F/A  (Gm), C#dim") = true
  /\ Transpose.transposeChordText (JS.lit "Bb7 F/A  (Gm), C#dim") (3 + -5) false
     = JS.lit "Ab7 Eb/G  (Fm), Bdim"
  /\ Transpose.transposeChordText
       (Transpose.transposeChordText (JS.lit "Bb7 F/A  (Gm), C#dim") 3 true) (-5) false
     = Transpose.transposeChordText (JS.lit "Bb7 F/A  (Gm), C#dim") (3 + -5) false.
Proof.
  split; [reflexivity|]. split; [vm_compute; reflexivity|].
  apply (transposeChordText_steps_add (JS.lit "Bb7 F/A  (Gm), C#dim") 3 (-5) true false);
    first [reflexivity | vm_compute; discriminate].
Defined.

(** X15. Whole octaves change nothing: a text transposed by [s + 12 k]
    is the text transposed by [s].  Twelve steps up is therefore the
    text transposed by 0, its respelling.  The steps are of a size up
    to 2^53 - 11, within which the sum of an index and the steps is
    exact. *)
Theorem transposeChordText_octaves_cancel :
  forall (t symbol : list Z) (s k : Z) (p : bool),
    Z.abs s <= 2 ^ 53 - 11 -> Z.abs (s + 12 * k) <= 2 ^ 53 - 11 ->
    Transpose.transposeChordText t (s + 12 * k) p = Transpose.transposeChordText t s p
    /\ Transpose.transposeChordSymbol symbol (s + 12 * k) p
       = Transpose.transposeChordSymbol symbol s p
    /\ Transpose.transposeChordText t 12 p = Transpose.transposeChordText t 0 p.
Proof.
  intros t symbol s k p Hs Hk.
  split; [apply transposeChordText_octaves; assumption|]. split.
  - apply transposeChordSymbol_octaves; assumption.
  - apply (transposeChordText_octaves t 0 1 p);
      unfold Spec.exactSteps; vm_compute; discriminate.
Qed.

(** "Db/F Gm" up 14 is the text up 2, and up 12 it is its respelling. *)
Lemma transposeChordText_octaves_cancel_witness :
  Transpose.transposeChordText (JS.lit "Db/F Gm") 2 true = JS.lit "D#/G Am"
  /\ Transpose.transposeChordText (JS.lit "Db/F Gm") 12 true = JS.lit "C#/F Gm"
  /\ (Transpose.transposeChordText (JS.lit "Db/F Gm") (2 + 12 * 1) true
      = Transpose.transposeChordText (JS.lit "Db/F Gm") 2 true
      /\ Transpose.transposeChordSymbol (JS.lit "Db/F") (2 + 12 * 1) true
         = Transpose.transposeChordSymbol (JS.lit "Db/F") 2 true
      /\ Transpose.transposeChordText (JS.lit "Db/F Gm") 12 true
         = Transpose.transposeChordText (JS.lit "Db/F Gm") 0 true).
Proof.
  split; [vm_compute; reflexivity|]. split; [vm_compute; reflexivity|].
  apply (transposeChordText_octaves_cancel (JS.lit "Db/F Gm") (JS.lit "Db/F") 2 1 true);
    vm_compute; discriminate.
Defined.

(** X16. A text that holds none of the letters A to G, in either case,
    is returned as it is. *)
Theorem transposeChordText_needs_a_root_letter :
  forall (t : list Z) (s : Z) (p : bool),
    Forall (fun c => Spec.isRootLetterb c = false) t ->
    Transpose.transposeChordText t s p = t.
Proof. exact no_roots_unchanged. Qed.

Lemma transposeChordText_needs_a_root_letter_witness :
  Forall (fun c => Spec.isRootLetterb c = false) (JS.lit "(solo) tutti: hush now! 1, 2, 3")
  /\ Transpose.transposeChordText (JS.lit "(solo) tutti: hush now! 1, 2, 3") 5 true
     = JS.lit "(solo) tutti: hush now! 1, 2, 3".
Proof.
  assert (H : Forall (fun c => Spec.isRootLetterb c = false)
                (JS.lit "(solo) tutti: hush now! 1, 2, 3"))
    by (repeat (apply Forall_cons; [reflexivity|]); apply Forall_nil).
  split; [exact H|].
  apply (transposeChordText_needs_a_root_letter _ 5 true H).
Defined.

(* ================================================================== *)
(** * The callers: main screen, print page, popover                    *)
(* ================================================================== *)

Section Callers.
Import JS JSMore Spec Transpose.

Lemma chordLike_wsFree s : isChordLike s = true -> wsFree s.
Proof.
  intros H. apply chordLike_chars in H. unfold wsFree.
  rewrite Forall_forall in H |- *. intros c Hc. apply itemChar_not_space, H, Hc.
Qed.

Lemma chordLike_punctFree s : isChordLike s = true -> existsb isPunct s = false.
Proof.
  intros H. apply chordLike_chars in H. apply forall_existsb_false.
  rewrite Forall_forall in H |- *. intros c Hc. apply itemChar_not_punct, H, Hc.
Qed.

Lemma pieces_punctFree tok : existsb isPunct tok = false -> pieces tok = [tok].
Proof. intros H. unfold pieces. rewrite test_punct, H. reflexivity. Qed.

Lemma maybeTransposeToken_punctFree tok s p :
  existsb isPunct tok = false -> maybeTransposeToken tok s p = image s p tok.
Proof.
  intros H. rewrite maybeTransposeToken_image, (pieces_punctFree tok H).
  unfold join. cbn [map List.concat]. apply app_nil_r.
Qed.

(** On a chord-like token [transposeChordText] is [transposeChordSymbol]. *)
Lemma transposeChordText_chordLike part s p :
  isChordLike part = true ->
  transposeChordText part s p = transposeChordSymbol part s p.
Proof.
  intros H.
  assert (Hne : part <> []) by (intros ->; rewrite isChordLike_nil in H; discriminate).
  rewrite (transposeChordText_token part s p Hne (chordLike_wsFree part H)).
  rewrite (maybeTransposeToken_punctFree part s p (chordLike_punctFree part H)).
  apply image_chord, H.
Qed.

Lemma test_print_pattern s : test PrintPage.CHORD_REGEX s = isChordLike s.
Proof. reflexivity. Qed.

Lemma split_parts_chars (P : Z -> Prop) t :
  Forall P t -> Forall (Forall P) (split WS_SPLIT_RE t).
Proof.
  intros H. apply Forall_forall. intros tok Htok.
  rewrite <- (split_join WS_SPLIT_RE t whole_capture_ws) in H.
  unfold join in H. rewrite Forall_forall in H. apply Forall_forall.
  intros c Hc. apply H. apply in_concat. exists tok. split; assumption.
Qed.

Lemma safeTranspose_parts p txt s :
  Transposer.safeTranspose p txt s
  = join (map (fun part => if test Transposer.CHORD_REGEX part
                           then transposeChordSymbol part s p else part)
              (split WS_SPLIT_RE txt)).
Proof.
  unfold Transposer.safeTranspose. cbv zeta. f_equal. apply map_ext. intros part.
  destruct (test Transposer.CHORD_REGEX part) eqn:E; [|reflexivity].
  apply transposeChordText_chordLike. apply (chordRegex_chordLike part E).
Qed.

Lemma safeTranspose_no_capital_root p txt s :
  Forall (fun c => (65 <=? c) && (c <=? 71) = false) txt ->
  Transposer.safeTranspose p txt s = txt.
Proof.
  intros H. unfold Transposer.safeTranspose. cbv zeta.
  rewrite <- (split_join WS_SPLIT_RE txt whole_capture_ws) at 2. f_equal.
  pose proof (split_parts_chars _ txt H) as Hs.
  induction Hs as [|part l Hpart _ IH]; [reflexivity|].
  cbn [map]. rewrite IH. f_equal.
  destruct (test Transposer.CHORD_REGEX part) eqn:E; [|reflexivity].
  destruct (chordRegex_chordLike part E) as [_ (L & tl & -> & HL)].
  inversion Hpart; subst. lia.
Qed.

Lemma transposeBlock_parts txt s p :
  PrintPage.transposeBlock txt s p = join (map (image s p) (split WS_SPLIT_RE txt)).
Proof.
  unfold PrintPage.transposeBlock. f_equal. apply map_ext. intros part.
  rewrite test_print_pattern. unfold image.
  destruct (isChordLike part) eqn:E; [|reflexivity].
  apply transposeChordText_chordLike, E.
Qed.

Lemma transposeBlock_no_punct txt s p :
  existsb isPunct txt = false ->
  PrintPage.transposeBlock txt s p = transposeChordText txt s p.
Proof.
  intros H. rewrite transposeBlock_parts. unfold transposeChordText. cbv zeta.
  f_equal. apply forall_existsb_false in H.
  pose proof (split_parts_chars _ txt H) as Hs.
  induction Hs as [|part l Hpart _ IH]; [reflexivity|].
  cbn [map]. rewrite IH. f_equal. symmetry.
  apply maybeTransposeToken_punctFree. apply forall_existsb_false. exact Hpart.
Qed.

Lemma join_truthy l : join (filter truthy l) = join l.
Proof.
  unfold join. induction l as [|x l IH]; [reflexivity|].
  cbn [filter]. destruct x as [|c x]; cbn [truthy List.concat app]; [exact IH|].
  rewrite IH. reflexivity.
Qed.

End Callers.

(** X17. What the main screen shows.  [safeTranspose] rewrites the
    parts its own matcher accepts, and those parts alone, each as
    [transposeChordSymbol] does.  The matcher wants an upper-case root,
    so a text without the capitals A to G is shown as it is; and it
    accepts no bracket or comma, so "(G)" stays, although
    [transposeChordText] alone turns it into "(A)". *)
Theorem safeTranspose_rewrites_capital_chords_only :
  (forall (p : bool) (txt : list Z) (s : Z),
      Transposer.safeTranspose p txt s
      = JS.join (map (fun part => if JS.test Transposer.CHORD_REGEX part
                                  then Transpose.transposeChordSymbol part s p
                                  else part)
                     (JS.split Transpose.WS_SPLIT_RE txt)))
  /\ (forall (p : bool) (txt : list Z) (s : Z),
      Forall (fun c => (65 <=? c) && (c <=? 71) = false) txt ->
      Transposer.safeTranspose p txt s = txt)
  /\ Transposer.safeTranspose true (JS.lit "face (G) Am") 2 = JS.lit "face (G) Bm"
  /\ Transpose.transposeChordText (JS.lit "face (G) Am") 2 true = JS.lit "Gace (A) Bm".
Proof.
  split; [exact safeTranspose_parts|]. split; [exact safeTranspose_no_capital_root|].
  split; vm_compute; reflexivity.
Qed.

(** X18. What the print page shows.  [transposeBlock] rewrites the
    whitespace-separated parts that are chord-like, lower-case ones
    included, and does not look inside a part with punctuation.  On a
    text without comma, pipe and brackets it gives what
    [transposeChordText] gives; on "face (G) Am" it gives "Gace (G) Bm",
    which is neither what the main screen shows nor what
    [transposeChordText] returns. *)
Theorem transposeBlock_rewrites_whole_parts_only :
  (forall (txt : list Z) (s : Z) (p : bool),
      PrintPage.transposeBlock txt s p
      = JS.join (map (Spec.image s p) (JS.split Transpose.WS_SPLIT_RE txt)))
  /\ (forall (txt : list Z) (s : Z) (p : bool),
      existsb Spec.isPunct txt = false ->
      PrintPage.transposeBlock txt s p = Transpose.transposeChordText txt s p)
  /\ PrintPage.transposeBlock (JS.lit "face (G) Am") 2 true = JS.lit "Gace (G) Bm".
Proof.
  split; [exact transposeBlock_parts|]. split; [exact transposeBlock_no_punct|].
  vm_compute. reflexivity.
Qed.

(** X19. [tokenize] loses nothing of the text: the values of its tokens,
    put together, are the text; none of them is empty; and a token is a
    chord exactly if the matcher of the main screen accepts its value. *)
Theorem tokenize_keeps_the_text :
  forall txt : list Z,
    JS.join (map Transposer.v (Transposer.tokenize txt)) = txt
    /\ Forall (fun tk => Transposer.v tk <> []
                         /\ (Transposer.t tk = Transposer.chord
                             <-> JS.test Transposer.CHORD_REGEX (Transposer.v tk) = true))
              (Transposer.tokenize txt).
Proof.
  intros txt. unfold Transposer.tokenize. split.
  - rewrite map_map. cbn [Transposer.v]. rewrite map_id, join_truthy.
    apply split_join, whole_capture_ws.
  - apply Forall_forall. intros tk Htk. apply in_map_iff in Htk.
    destruct Htk as (part & <- & Hpart). apply filter_In in Hpart.
    destruct Hpart as [_ Hne]. cbn [Transposer.v Transposer.t]. split.
    + intros ->. discriminate Hne.
    + destruct (JS.test Transposer.CHORD_REGEX part); split; congruence.
Qed.

Section UniqueChords.
Import JS JSMore Spec Transpose.

Lemma setAdd_spec set x :
  NoDup set ->
  NoDup (setAdd set x) /\ (forall y, In y (setAdd set x) <-> In y set \/ y = x).
Proof.
  intros H. unfold setAdd. destruct (has set x) eqn:E.
  - apply has_in in E. split; [exact H|]. intros y. split; [tauto|].
    intros [Hy| ->]; assumption.
  - assert (Hn : ~ In x set) by (intros Hx; apply has_in in Hx; congruence).
    split.
    + apply NoDup_app; [exact H | repeat constructor; intros [] | ].
      intros y Hy [<-|[]]. contradiction.
    + intros y. rewrite in_app_iff. cbn [In]. intuition congruence.
Qed.

Lemma ws_only_not_chordLike s : test WS_ONLY_RE s = true -> isChordLike s = false.
Proof. intros H. apply test_ws_only in H. apply isChordLike_space, H. Qed.

Lemma collect_chords l : forall set,
  NoDup set ->
  let r := fold_left (fun set t =>
                        if test WS_ONLY_RE t then set
                        else if test PrintPage.CHORD_REGEX t then setAdd set t
                        else set) l set in
  NoDup r /\ (forall y, In y r <-> In y set \/ (In y l /\ isChordLike y = true)).
Proof.
  induction l as [|t l IH]; intros set H; cbn [fold_left].
  - split; [exact H|]. intros y. cbn [In]. tauto.
  - rewrite test_print_pattern.
    destruct (test WS_ONLY_RE t) eqn:W.
    + apply ws_only_not_chordLike in W. destruct (IH set H) as [N M].
      split; [exact N|]. intros y. rewrite M. cbn [In].
      split; [tauto|]. intros [Hy|[[<-|Hy] Hc]]; [tauto | congruence | tauto].
    + destruct (isChordLike t) eqn:C.
      * destruct (setAdd_spec set t H) as [N1 M1].
        destruct (IH _ N1) as [N M]. split; [exact N|].
        intros y. rewrite M, M1. cbn [In].
        split; [intros [[Hy| ->]|[Hy Hc]]; tauto|].
        intros [Hy|[[<-|Hy] Hc]]; tauto.
      * destruct (IH set H) as [N M].
        split; [exact N|]. intros y. rewrite M. cbn [In].
        split; [tauto|]. intros [Hy|[[<-|Hy] Hc]]; [tauto | congruence | tauto].
Qed.

End UniqueChords.

(** X20. The chords the print page draws diagrams for are the
    chord-like parts of the text, lower-case ones included, each once. *)
Theorem extractUniqueChords_lists_each_chord_once :
  forall txt : list Z,
    NoDup (PrintPage.extractUniqueChords txt)
    /\ (forall sym, In sym (PrintPage.extractUniqueChords txt)
                    <-> In sym (JS.split Transpose.WS_SPLIT_RE txt)
                        /\ Transpose.isChordLike sym = true)
    /\ PrintPage.extractUniqueChords (JS.lit "Am  G am (G) Am G/B")
       = [JS.lit "Am"; JS.lit "G"; JS.lit "am"; JS.lit "G/B"].
Proof.
  intros txt. unfold PrintPage.extractUniqueChords. cbv zeta.
  destruct (collect_chords (filter JSMore.truthy (JS.split Transpose.WS_SPLIT_RE txt))
              [] (NoDup_nil _)) as [N M].
  split; [exact N|]. split; [|vm_compute; reflexivity].
  intros sym. rewrite M. cbn [In]. rewrite filter_In. split.
  - intros [[]|[[Hs _] Hc]]. split; assumption.
  - intros [Hs Hc]. right. split; [|exact Hc]. split; [exact Hs|].
    destruct sym; [rewrite isChordLike_nil in Hc; discriminate | reflexivity].
Qed.

(** X21. Stepping through the voicings of a popover keeps the index
    inside the list: from an index below the length, a list without
    voicings counting as one of length 1, both steps give such an index
    again, they wrap around at the ends, and each undoes the other. *)
Theorem voicing_steps_stay_in_range :
  forall index n : Z,
    0 <= index < Z.max 1 n ->
    0 <= ClickableChordText.nextVoicing index n < Z.max 1 n
    /\ 0 <= ClickableChordText.prevVoicing index n < Z.max 1 n
    /\ ClickableChordText.nextVoicing index n
       = (if index + 1 =? Z.max 1 n then 0 else index + 1)
    /\ ClickableChordText.prevVoicing index n
       = (if index =? 0 then Z.max 1 n - 1 else index - 1)
    /\ ClickableChordText.prevVoicing (ClickableChordText.nextVoicing index n) n = index
    /\ ClickableChordText.nextVoicing (ClickableChordText.prevVoicing index n) n = index.
Proof.
  intros index n H.
  unfold ClickableChordText.nextVoicing, ClickableChordText.prevVoicing, JS.rem.
  cbv zeta. set (len := Z.max 1 n) in *.
  assert (P : forall i, 0 <= i < len ->
              Z.rem (i - 1 + len) len = if i =? 0 then len - 1 else i - 1).
  { intros i Hi. destruct (i =? 0) eqn:E.
    - apply Z.eqb_eq in E. subst i. replace (0 - 1 + len) with (len - 1) by lia.
      apply Z.rem_small. lia.
    - apply Z.eqb_neq in E. rewrite Z.rem_mod_nonneg by lia.
      symmetry. apply (Z.mod_unique _ _ 1); lia. }
  assert (Q : forall i, 0 <= i < len ->
              Z.rem (i + 1) len = if i + 1 =? len then 0 else i + 1).
  { intros i Hi. destruct (i + 1 =? len) eqn:E.
    - apply Z.eqb_eq in E. rewrite E. apply Z.rem_same. lia.
    - apply Z.eqb_neq in E. apply Z.rem_small. lia. }
  rewrite (Q index H), (P index H).
  split; [destruct (index + 1 =? len) eqn:E; lia|].
  split; [destruct (index =? 0) eqn:E; lia|].
  split; [reflexivity|]. split; [reflexivity|]. split.
  - destruct (index + 1 =? len) eqn:E.
    + rewrite P by lia. cbn [Z.eqb]. lia.
    + rewrite P by lia. destruct (index + 1 =? 0) eqn:E0; lia.
  - destruct (index =? 0) eqn:E.
    + rewrite Q by lia. replace (len - 1 + 1 =? len) with true by lia. lia.
    + rewrite Q by lia. replace (index - 1 + 1 =? len) with false by lia. lia.
Qed.

(** The third of four voicings. *)
Lemma voicing_steps_stay_in_range_witness :
  0 <= 3 < Z.max 1 4
  /\ ClickableChordText.nextVoicing 3 4 = 0
  /\ ClickableChordText.prevVoicing 0 4 = 3
  /\ ClickableChordText.prevVoicing (ClickableChordText.nextVoicing 3 4) 4 = 3.
Proof.
  assert (H : 0 <= 3 < Z.max 1 4) by (cbn; lia).
  split; [exact H|]. split; [reflexivity|]. split; [reflexivity|].
  apply (voicing_steps_stay_in_range 3 4 H).
Defined.

(* ================================================================== *)
(** * The URL-safe token                                               *)
(* ================================================================== *)

Section UrlSafe.
Import JS JSMore Spec Share.

Lemma matchAt_char re c inp q :
  body re = rch c -> ignoreCase re = false ->
  matchAt re inp q [] = None
  /\ forall x tl, matchAt re inp q (x :: tl)
                  = if x =? c then Some {| pos := S q; rest := tl; caps := [] |}
                    else None.
Proof.
  intros Hb Hi. unfold matchAt. rewrite Hb, Hi. split; [reflexivity|].
  intros x tl. unfold rch. cbn [rmatch rest]. rewrite cmatch_exact.
  cbn [cranges cinvert in_ranges existsb fst snd]. rewrite xorb_false_r, orb_false_r.
  destruct (x =? c) eqn:E.
  - apply Z.eqb_eq in E. subst x. rewrite Z.leb_refl. reflexivity.
  - apply Z.eqb_neq in E. replace ((c <=? x) && (x <=? c)) with false by lia.
    reflexivity.
Qed.

(** A pattern of one code unit: every occurrence is replaced. *)
Lemma replaceLoop_char re c r inp :
  body re = rch c -> ignoreCase re = false ->
  forall rst q,
    replaceLoop re [r] inp q 0 rst = map (fun x => if x =? c then r else x) rst.
Proof.
  intros Hb Hi. induction rst as [|x tl IH]; intros q.
  - cbn [replaceLoop map]. rewrite (proj1 (matchAt_char re c inp q Hb Hi)). reflexivity.
  - cbn [replaceLoop map]. rewrite (proj2 (matchAt_char re c inp q Hb Hi)).
    destruct (x =? c).
    + cbn [pos]. replace (S q =? q)%nat with false by (symmetry; apply Nat.eqb_neq; lia).
      replace (S q - q - 1)%nat with 0%nat by lia. rewrite IH. reflexivity.
    + rewrite IH. reflexivity.
Qed.

Lemma replaceAll_char re c r s :
  body re = rch c -> ignoreCase re = false ->
  replaceAll re [r] s = map (fun x => if x =? c then r else x) s.
Proof. intros Hb Hi. apply replaceLoop_char; assumption. Qed.

(** The padding pattern matches at an index exactly if "=" is all that
    is left, and there is some. *)
Lemma matchAt_padding inp q rst :
  matchAt PADDING_RE inp q rst
  = match rst with
    | [] => None
    | x :: tl =>
        if (x =? 61) && forallb (Z.eqb 61) tl
        then Some {| pos := (q + List.length rst)%nat; rest := []; caps := [] |}
        else None
    end.
Proof.
  unfold matchAt, PADDING_RE, rplus, rchar, rch.
  change (Z.of_N (N_of_ascii "=")) with 61.
  cbn [body ignoreCase rmatch rest].
  destruct rst as [|x tl]; [reflexivity|].
  rewrite cmatch_exact. cbn [cranges cinvert in_ranges existsb fst snd].
  rewrite xorb_false_r, orb_false_r.
  replace ((61 <=? x) && (x <=? 61)) with (x =? 61) by lia.
  destruct (x =? 61); [|reflexivity]. cbn [andb].
  unfold advance. cbn [pos rest caps].
  rewrite (starLoop_class_eol false {| cranges := [(61, 61)]; cinvert := false |} _ Some)
    by first [ intros; reflexivity | lia ].
  assert (F : forallb (cmatch false {| cranges := [(61, 61)]; cinvert := false |}) tl
              = forallb (Z.eqb 61) tl).
  { clear. induction tl as [|y tl IH]; [reflexivity|]. cbn [forallb]. rewrite IH.
    f_equal. rewrite cmatch_exact. cbn [cranges cinvert in_ranges existsb fst snd].
    rewrite xorb_false_r, orb_false_r. lia. }
  rewrite F. destruct (forallb (Z.eqb 61) tl); [|reflexivity].
  do 2 f_equal. cbn [List.length]. lia.
Qed.

Lemma replaceLoop_skip re rep inp : forall l q,
  replaceLoop re rep inp q (List.length l) l
  = match matchAt re inp (q + List.length l) [] with Some _ => rep | None => [] end.
Proof.
  induction l as [|x l IH]; intros q.
  - cbn [replaceLoop List.length]. replace (q + 0)%nat with q by lia. reflexivity.
  - cbn [replaceLoop List.length]. rewrite IH.
    replace (S q + List.length l)%nat with (q + S (List.length l))%nat by lia.
    reflexivity.
Qed.

Lemma all_padding_last w r :
  w <> [] -> forallb (Z.eqb 61) (w ++ r) = true -> last w 0 = 61.
Proof.
  intros Hw H. rewrite forallb_app in H. apply andb_prop in H. destruct H as [H _].
  rewrite forallb_forall in H.
  destruct (exists_last Hw) as (w' & x & ->). rewrite last_last.
  symmetry. apply Z.eqb_eq, H. apply in_or_app. right. left. reflexivity.
Qed.

(** Padding at the end is dropped, and nothing else. *)
Lemma strip_padding inp : forall w q k,
  last w 0 <> 61 ->
  replaceLoop PADDING_RE [] inp q 0 (w ++ List.repeat 61 k) = w.
Proof.
  induction w as [|x w IH]; intros q k Hw.
  - cbn [app]. destruct k as [|k]; cbn [List.repeat replaceLoop].
    + rewrite matchAt_padding. reflexivity.
    + rewrite matchAt_padding.
      assert (A : forallb (Z.eqb 61) (List.repeat 61 k) = true).
      { apply forallb_forall. intros y Hy. apply repeat_spec in Hy. subst y. reflexivity. }
      rewrite A. cbn [andb Z.eqb Pos.eqb pos app].
      match goal with
      | |- context [(?a =? q)%nat] =>
          replace (a =? q)%nat with false
            by (symmetry; apply Nat.eqb_neq; cbn [List.length]; lia)
      end.
      match goal with
      | |- context [replaceLoop _ _ _ _ ?n (List.repeat _ k)] =>
          replace n with (List.length (List.repeat 61 k)) by (cbn [List.length]; lia)
      end.
      rewrite replaceLoop_skip, matchAt_padding. reflexivity.
  - cbn [app replaceLoop]. rewrite matchAt_padding.
    destruct ((x =? 61) && forallb (Z.eqb 61) (w ++ List.repeat 61 k)) eqn:E.
    + exfalso. apply Hw.
      apply (all_padding_last (x :: w) (List.repeat 61 k)); [discriminate|].
      cbn [app forallb]. rewrite Z.eqb_sym. exact E.
    + f_equal. apply IH. destruct w as [|y w]; [cbn; lia | exact Hw].
Qed.

Lemma split_padding s : exists w k, s = w ++ List.repeat 61 k /\ last w 0 <> 61.
Proof.
  induction s as [|x s IH] using rev_ind.
  - exists [], 0%nat. split; [reflexivity | cbn; lia].
  - destruct (Z.eq_dec x 61) as [->|Hx].
    + destruct IH as (w & k & -> & Hw). exists w, (S k). split; [|exact Hw].
      rewrite <- app_assoc. f_equal. rewrite <- repeat_cons. reflexivity.
    + exists (s ++ [x]), 0%nat. split; [cbn; rewrite app_nil_r; reflexivity|].
      rewrite last_last. exact Hx.
Qed.

Lemma repeatStr_padding n : repeatStr (lit "=") n = List.repeat 61 (Z.to_nat n).
Proof.
  unfold repeatStr. change (lit "=") with [61].
  induction (Z.to_nat n) as [|m IH]; [reflexivity|].
  cbn [List.repeat List.concat app]. rewrite IH. reflexivity.
Qed.

Lemma toUrlSafe_map s :
  toUrlSafe s
  = replaceAll PADDING_RE []
      (map (fun x => if x =? 47 then 95 else x)
           (map (fun x => if x =? 43 then 45 else x) s)).
Proof.
  unfold toUrlSafe. change (lit "-") with [45]. change (lit "_") with [95].
  rewrite (replaceAll_char PLUS_RE 43 45 s eq_refl eq_refl).
  rewrite (replaceAll_char SLASH_RE 47 95 _ eq_refl eq_refl). reflexivity.
Qed.

Lemma fromUrlSafe_map s :
  let b64 := map (fun x => if x =? 95 then 47 else x)
                 (map (fun x => if x =? 45 then 43 else x) s) in
  let pad := Z.of_nat (List.length s) mod 4 in
  fromUrlSafe s = b64 ++ List.repeat 61 (if pad =? 0 then 0%nat else Z.to_nat (4 - pad)).
Proof.
  cbv zeta. unfold fromUrlSafe. change (lit "+") with [43]. change (lit "/") with [47].
  rewrite (replaceAll_char DASH_RE 45 43 s eq_refl eq_refl).
  rewrite (replaceAll_char UNDERSCORE_RE 95 47 _ eq_refl eq_refl).
  cbv zeta. rewrite !length_map. unfold rem.
  rewrite Z.rem_mod_nonneg by lia.
  destruct (Z.of_nat (List.length s) mod 4 =? 0); cbn [negb].
  - cbn [List.repeat]. rewrite app_nil_r. reflexivity.
  - rewrite repeatStr_padding. reflexivity.
Qed.

Lemma map_fixed (f : Z -> Z) (P : Z -> Prop) l :
  (forall x, P x -> f x = x) -> Forall P l -> map f l = l.
Proof.
  intros H Hl. induction Hl as [|x l Hx _ IH]; [reflexivity|].
  cbn [map]. rewrite (H x Hx), IH. reflexivity.
Qed.

Lemma last_not_padding (P : Z -> Prop) l :
  (forall x, P x -> x <> 61) -> Forall P l -> last l 0 <> 61.
Proof.
  intros H Hl. destruct l as [|x l] using rev_ind; [cbn; lia|].
  rewrite last_last. apply H. rewrite Forall_forall in Hl. apply Hl.
  apply in_or_app. right. left. reflexivity.
Qed.

Lemma toUrlSafe_padded body k :
  Forall (fun c => c <> 61) body ->
  toUrlSafe (body ++ List.repeat 61 k)
  = map (fun x => if x =? 47 then 95 else if x =? 43 then 45 else x) body.
Proof.
  intros Hb.
  assert (Hpad : Forall (fun x => x = 61) (List.repeat 61 k)).
  { apply Forall_forall. intros y Hy. apply repeat_spec in Hy. exact Hy. }
  rewrite toUrlSafe_map, !map_app, map_map.
  rewrite (map_fixed _ (fun x => x = 61) (List.repeat 61 k));
    [|intros x ->; reflexivity | exact Hpad].
  rewrite (map_fixed _ (fun x => x = 61) (List.repeat 61 k));
    [|intros x ->; reflexivity | exact Hpad].
  unfold replaceAll. rewrite strip_padding.
  - apply map_ext. intros x.
    destruct (x =? 43) eqn:A; [apply Z.eqb_eq in A; subst x; reflexivity|].
    reflexivity.
  - apply (last_not_padding (fun y => y <> 61)); [auto|].
    apply Forall_forall. intros y Hy. apply in_map_iff in Hy.
    destruct Hy as (x & <- & Hx). rewrite Forall_forall in Hb.
    specialize (Hb x Hx).
    destruct (x =? 43) eqn:A; [cbn; lia|].
    destruct (x =? 47) eqn:B; lia.
Qed.

Lemma urlSafe_round_trip body k :
  Forall (fun c => c <> 45 /\ c <> 95 /\ c <> 61) body ->
  (k < 4)%nat ->
  Z.of_nat (List.length body + k) mod 4 = 0 ->
  fromUrlSafe (toUrlSafe (body ++ List.repeat 61 k)) = body ++ List.repeat 61 k.
Proof.
  intros Hb Hk Hlen.
  rewrite toUrlSafe_padded
    by (apply (Forall_impl _ (fun c (H : c <> 45 /\ c <> 95 /\ c <> 61) =>
                                proj2 (proj2 H)) Hb)).
  set (sw := fun x => if x =? 47 then 95 else if x =? 43 then 45 else x).
  pose proof (fromUrlSafe_map (map sw body)) as E2. cbv zeta in E2.
  rewrite E2, !map_map, length_map. clear E2. f_equal.
  - apply (map_fixed _ (fun c => c <> 45 /\ c <> 95 /\ c <> 61)); [|exact Hb].
    intros x (A & B & _). unfold sw.
    destruct (x =? 47) eqn:E47; [apply Z.eqb_eq in E47; subst x; reflexivity|].
    destruct (x =? 43) eqn:E43; [apply Z.eqb_eq in E43; subst x; reflexivity|].
    replace (x =? 45) with false by lia. replace (x =? 95) with false by lia.
    reflexivity.
  - f_equal. rewrite Nat2Z.inj_add in Hlen.
    destruct (Z.of_nat (List.length body) mod 4 =? 0) eqn:E.
    + apply Z.eqb_eq in E. revert Hlen E. Z.to_euclidean_division_equations. lia.
    + apply Z.eqb_neq in E. revert Hlen E. Z.to_euclidean_division_equations. lia.
Qed.

Lemma toUrlSafe_safe s :
  existsb (Z.eqb 43) (toUrlSafe s) = false
  /\ existsb (Z.eqb 47) (toUrlSafe s) = false
  /\ last (toUrlSafe s) 0 <> 61.
Proof.
  rewrite toUrlSafe_map.
  set (m := map (fun x => if x =? 47 then 95 else x)
                (map (fun x => if x =? 43 then 45 else x) s)).
  assert (Hm : Forall (fun y => y <> 43 /\ y <> 47) m).
  { unfold m. rewrite map_map. apply Forall_forall. intros y Hy.
    apply in_map_iff in Hy. destruct Hy as (x & <- & _).
    destruct (x =? 43) eqn:A; [cbn; lia|]. destruct (x =? 47) eqn:B; lia. }
  destruct (split_padding m) as (w & k & E & Hw).
  assert (R : replaceAll PADDING_RE [] m = w).
  { unfold replaceAll. rewrite E at 2. apply strip_padding, Hw. }
  rewrite R. rewrite E in Hm. apply Forall_app in Hm. destruct Hm as [Hm _].
  split; [|split; [|exact Hw]]; apply forall_existsb_false;
    apply Forall_forall; intros y Hy; rewrite Forall_forall in Hm;
    destruct (Hm y Hy); lia.
Qed.

Lemma fromUrlSafe_length s : Z.of_nat (List.length (fromUrlSafe s)) mod 4 = 0.
Proof.
  pose proof (fromUrlSafe_map s) as E. cbv zeta in E. rewrite E.
  rewrite length_app, !length_map, repeat_length, Nat2Z.inj_add.
  destruct (Z.of_nat (List.length s) mod 4 =? 0) eqn:P.
  - apply Z.eqb_eq in P. cbn [Z.of_nat]. rewrite Z.add_0_r. exact P.
  - apply Z.eqb_neq in P. rewrite Z2Nat.id.
    + revert P. Z.to_euclidean_division_equations. lia.
    + pose proof (Z.mod_pos_bound (Z.of_nat (List.length s)) 4). lia.
Qed.

Lemma urlSafe_round_trip_back u :
  existsb (Z.eqb 43) u = false -> existsb (Z.eqb 47) u = false ->
  last u 0 <> 61 ->
  toUrlSafe (fromUrlSafe u) = u.
Proof.
  intros H43 H47 Hl.
  pose proof (fromUrlSafe_map u) as E. cbv zeta in E. rewrite E. clear E.
  rewrite toUrlSafe_map, !map_app, !map_map.
  rewrite (map_fixed _ (fun x => x = 61) (List.repeat 61 _)).
  - rewrite (map_fixed _ (fun x => x <> 43 /\ x <> 47) u).
    + unfold replaceAll. apply strip_padding. exact Hl.
    + intros x (A & B).
      destruct (x =? 45) eqn:E45; [apply Z.eqb_eq in E45; subst x; reflexivity|].
      destruct (x =? 95) eqn:E95; [apply Z.eqb_eq in E95; subst x; reflexivity|].
      replace (x =? 43) with false by lia. replace (x =? 47) with false by lia.
      reflexivity.
    + apply forall_existsb_false in H43, H47. rewrite Forall_forall in *.
      intros x Hx. specialize (H43 x Hx). specialize (H47 x Hx). lia.
  - intros x ->. reflexivity.
  - apply Forall_forall. intros y Hy. apply repeat_spec in Hy. exact Hy.
Qed.

End UrlSafe.

(** X22. A Base64 text survives the way through its URL-safe form: for
    a body without "-", "_" and "=", followed by fewer than four "="
    that fill its length up to a multiple of 4, [fromUrlSafe] of
    [toUrlSafe] is the text itself. *)
Theorem fromUrlSafe_undoes_toUrlSafe :
  forall (body : list Z) (k : nat),
    Forall (fun c => c <> 45 /\ c <> 95 /\ c <> 61) body ->
    (k < 4)%nat ->
    Z.of_nat (List.length body + k) mod 4 = 0 ->
    Share.fromUrlSafe (Share.toUrlSafe (body ++ List.repeat 61 k))
    = body ++ List.repeat 61 k.
Proof. exact urlSafe_round_trip. Qed.

(** "a+b/cQ==" becomes "a-b_cQ" and comes back. *)
Lemma fromUrlSafe_undoes_toUrlSafe_witness :
  Share.toUrlSafe (JS.lit "a+b/cQ==") = JS.lit "a-b_cQ"
  /\ Share.fromUrlSafe (Share.toUrlSafe (JS.lit "a+b/cQ" ++ List.repeat 61 2))
     = JS.lit "a+b/cQ" ++ List.repeat 61 2.
Proof.
  split; [vm_compute; reflexivity|].
  apply (fromUrlSafe_undoes_toUrlSafe (JS.lit "a+b/cQ") 2).
  - repeat (apply Forall_cons; [cbn; lia|]). apply Forall_nil.
  - lia.
  - reflexivity.
Defined.

(** X23. [toUrlSafe] leaves no "+", no "/" and no "=" at the end,
    whatever it is given; [fromUrlSafe] returns a text whose length is a
    multiple of 4; and a token without "+" and "/" that does not end in
    "=" comes back from [toUrlSafe] of [fromUrlSafe] as it was. *)
Theorem urlSafe_tokens :
  (forall s : list Z,
      existsb (Z.eqb 43) (Share.toUrlSafe s) = false
      /\ existsb (Z.eqb 47) (Share.toUrlSafe s) = false
      /\ last (Share.toUrlSafe s) 0 <> 61)
  /\ (forall s : list Z, Z.of_nat (List.length (Share.fromUrlSafe s)) mod 4 = 0)
  /\ (forall u : list Z,
      existsb (Z.eqb 43) u = false -> existsb (Z.eqb 47) u = false ->
      last u 0 <> 61 ->
      Share.toUrlSafe (Share.fromUrlSafe u) = u).
Proof.
  split; [exact toUrlSafe_safe|]. split; [exact fromUrlSafe_length|].
  exact urlSafe_round_trip_back.
Qed.

(* ================================================================== *)
(** * Diagrams follow the transposition                                *)
(* ================================================================== *)

Section DiagramsFollow.
Import JS Spec Transpose Chords.

Lemma tailChar_notLineTerminator c : tailChar c = true -> notLineTerminator c = true.
Proof.
  unfold tailChar, notLineTerminator. intros H. apply negb_true_iff in H.
  apply orb_false_iff in H. destruct H as [_ H]. apply negb_true_iff.
  destruct (in_ranges lineTerminator c) eqn:E; [|reflexivity].
  rewrite <- H. symmetry. unfold isSpace.
  apply in_ranges_iff in E. apply in_ranges_iff.
  destruct E as (r & Hr & Hc). unfold lineTerminator in Hr. cbn [In] in Hr.
  destruct Hr as [<-|[<-|[<-|[]]]]; cbn [fst snd] in Hc.
  - exists (9, 13). split; [unfold whiteSpace; cbn [In]; tauto | cbn [fst snd]; lia].
  - exists (9, 13). split; [unfold whiteSpace; cbn [In]; tauto | cbn [fst snd]; lia].
  - exists (8232, 8233). split; [unfold whiteSpace; cbn [In]; tauto | cbn [fst snd]; lia].
Qed.

Lemma parseWith_any tc tc' s :
  forallb tc s = true -> forallb tc' s = true -> parseWith tc s = parseWith tc' s.
Proof.
  intros H H'. unfold parseWith. destruct s as [|L s']; [reflexivity|].
  cbn [forallb] in H, H'. apply andb_prop in H, H'.
  destruct H as [_ H], H' as [_ H'].
  destruct (isRootLetterb L); [|reflexivity].
  destruct s' as [|a tl]; [reflexivity|].
  rewrite H, H'. cbn [forallb] in H, H'. apply andb_prop in H, H'.
  destruct H as [_ H], H' as [_ H']. rewrite H, H'. reflexivity.
Qed.

Lemma parseHead_parseRoot s : forallb tailChar s = true -> parseHead s = parseRoot s.
Proof.
  intros H. apply parseWith_any; [|exact H].
  apply forallb_forall. rewrite forallb_forall in H.
  intros c Hc. apply tailChar_notLineTerminator, H, Hc.
Qed.

Lemma parseHead_spell j p t :
  0 <= j <= 11 -> forallb notLineTerminator t = true ->
  match t with a :: _ => isAccidentalb a = false | [] => True end ->
  parseHead (spell j p ++ t) = Some (spell j p, t).
Proof.
  intros Hj Ht Ha. unfold parseHead.
  destruct (spell_shape j p Hj) as (L & HL & [->|(a & Ha' & ->)]);
    cbn [app parseWith];
    replace (isRootLetterb L) with true by (unfold isRootLetterb; lia).
  - destruct t as [|a tl]; [reflexivity|]. rewrite Ha, Ht. reflexivity.
  - replace (isAccidentalb a) with true by (unfold isAccidentalb; lia).
    rewrite Ht. reflexivity.
Qed.

Lemma canonical_root r :
  In r allRoots -> rootIsCanonical r = true ->
  exists idx, 0 <= idx <= 11 /\ pitchClassOf r = Some idx
              /\ toSharp r = Ok (spell idx true).
Proof.
  intros H C.
  assert (E : forallb (fun r =>
                negb (rootIsCanonical r)
                || match pitchClassOf r, toSharp r with
                   | Some idx, Ok n => str_eqb n (spell idx true)
                   | _, _ => false
                   end) allRoots = true) by (vm_compute; reflexivity).
  rewrite forallb_forall in E. apply E in H. rewrite C in H. cbn [negb orb] in H.
  destruct (pitchClassOf r) as [idx|] eqn:P; [|discriminate].
  destruct (toSharp r) as [n|m]; [|discriminate].
  apply str_eqb_eq in H. subst n. exists idx.
  split; [apply (pitchClassOf_range r idx P)|]. split; reflexivity.
Qed.

Lemma toSharp_spell j p : 0 <= j <= 11 -> toSharp (spell j p) = Ok (spell j true).
Proof. intros Hj. enum12 j; destruct p; reflexivity. Qed.

Lemma index_spell j : 0 <= j <= 11 ->
  Capo.arrayIndexOf NOTE_ORDER_SHARPS (spell j true) = j.
Proof. intros Hj. enum12 j; reflexivity. Qed.

Lemma lower_head_accidental a tl :
  isAccidentalb a = true ->
  exists c rest, toLowerCase (a :: tl) = c :: rest /\ (c = 35 \/ c = 98).
Proof.
  unfold isAccidentalb. intros H. unfold toLowerCase. cbn [flat_map].
  assert (A : a = 35 \/ a = 98 \/ a = 66) by lia.
  destruct A as [->|[->| ->]]; cbn [toLowerCase1 app]; eexists; eexists;
    (split; [reflexivity|]); lia.
Qed.

Lemma parseChordSymbol_transposed sym s p p0 :
  exactSteps s ->
  forallb tailChar sym = true ->
  parseChordSymbol sym = Ok (Some p0) ->
  (forall a rest, tail p0 = a :: rest -> a <> 35 /\ a <> 98) ->
  parseChordSymbol (transposeChordSymbol sym s p)
  = Ok (Some {| root := spell ((Capo.arrayIndexOf NOTE_ORDER_SHARPS (root p0) + s) mod 12)
                          true;
                tail := tail p0 |}).
Proof.
  intros Hex Hs Hp Ht.
  pose proof (parseChordSymbol_cases sym) as C.
  destruct (parseHead sym) as [[r t]|] eqn:E; [|congruence].
  destruct (parseWith_root _ _ _ _ E) as [Hr Hsym].
  destruct (rootIsCanonical r) eqn:Rc; [|congruence].
  destruct (canonical_root r Hr Rc) as (idx & Hidx & Pc & Ts).
  clear C.
  assert (P0 : p0 = {| root := spell idx true; tail := toLowerCase t |}).
  { unfold parseChordSymbol in Hp. rewrite exec_PARSE_RE, E in Hp.
    cbn [option_map rootMatch caps group Nat.eqb fst snd] in Hp.
    unfold normalizeEnharmonic in Hp. rewrite Ts in Hp. cbn [bind] in Hp.
    injection Hp as <-. reflexivity. }
  subst p0. cbn [root tail] in *. rewrite (index_spell idx Hidx).
  assert (Htl : forallb tailChar t = true).
  { rewrite Hsym, forallb_app in Hs. apply andb_prop in Hs. apply Hs. }
  assert (Ha : match t with a :: _ => isAccidentalb a = false | [] => True end).
  { destruct t as [|a tl]; [exact I|].
    destruct (isAccidentalb a) eqn:A; [|reflexivity].
    destruct (lower_head_accidental a tl A) as (c & rest & El & Hc).
    destruct (Ht c rest El). lia. }
  rewrite parseHead_parseRoot in E by exact Hs.
  rewrite (transposeChordSymbol_plain sym s p (tailChar_no_slash sym Hs)), E.
  rewrite (transposeNote_spell r s p idx Pc), (movedIndex_exact idx s Hidx Hex).
  set (j := (idx + s) mod 12).
  assert (Hj : 0 <= j <= 11) by (pose proof (Z.mod_pos_bound (idx + s) 12); lia).
  assert (Hn : forallb notLineTerminator t = true).
  { apply forallb_forall. rewrite forallb_forall in Htl.
    intros c Hc. apply tailChar_notLineTerminator, Htl, Hc. }
  unfold parseChordSymbol.
  rewrite exec_PARSE_RE, (parseHead_spell j p t Hj Hn Ha).
  cbn [option_map rootMatch caps group Nat.eqb fst snd].
  unfold normalizeEnharmonic. rewrite (toSharp_spell j p Hj). reflexivity.
Qed.

End DiagramsFollow.

(** X24. The diagrams follow the transposition.  Take a symbol without
    "/" and whitespace that [parseChordSymbol] parses, with a tail that
    does not begin with "#" or "b", and steps of a size up to 2^53 - 11,
    within which the sum of an index and the steps is exact.  Then in
    the transposed symbol [parseChordSymbol] reads the same tail, and
    the root moved by the steps in [NOTE_ORDER_SHARPS], whatever the
    spelling preference: the voicings of the transposed symbol are
    those of the moved root with the same coarse quality. *)
Theorem voicings_follow_the_transposition :
  forall (sym : list Z) (s : Z) (p : bool) (p0 : Chords.Parsed),
    Z.abs s <= 2 ^ 53 - 11 ->
    forallb Spec.tailChar sym = true ->
    Chords.parseChordSymbol sym = Chords.Ok (Some p0) ->
    (forall a rest, Chords.tail p0 = a :: rest -> a <> 35 /\ a <> 98) ->
    let moved :=
      Spec.spell
        ((Capo.arrayIndexOf Chords.NOTE_ORDER_SHARPS (Chords.root p0) + s) mod 12) true in
    Chords.parseChordSymbol (Transpose.transposeChordSymbol sym s p)
    = Chords.Ok (Some {| Chords.root := moved; Chords.tail := Chords.tail p0 |})
    /\ In moved Chords.NOTE_ORDER_SHARPS
    /\ Chords.findVoicingsFor (Transpose.transposeChordSymbol sym s p)
       = Chords.findVoicingsFor
           (Chords.openKeyFor moved (Chords.coarseQuality (Chords.tail p0))).
Proof.
  intros sym s p p0 Hex Hs Hp Ht moved.
  pose proof (parseChordSymbol_transposed sym s p p0 Hex Hs Hp Ht) as E.
  fold moved in E. split; [exact E|]. split.
  - apply (parse_ok_root _ _ E).
  - apply (findVoicingsFor_parsed _ _ E).
Qed.

(** "Ebm7" up three semitones is "F#m7", with the voicings of F#m7. *)
Lemma voicings_follow_the_transposition_witness :
  Transpose.transposeChordSymbol (JS.lit "Ebm7") 3 true = JS.lit "F#m7"
  /\ Chords.parseChordSymbol (JS.lit "Ebm7")
     = Chords.Ok (Some {| Chords.root := JS.lit "D#"; Chords.tail := JS.lit "m7" |})
  /\ Chords.parseChordSymbol (Transpose.transposeChordSymbol (JS.lit "Ebm7") 3 true)
     = Chords.Ok (Some {| Chords.root := JS.lit "F#"; Chords.tail := JS.lit "m7" |}).
Proof.
  split; [vm_compute; reflexivity|]. split; [vm_compute; reflexivity|].
  apply (voicings_follow_the_transposition (JS.lit "Ebm7") 3 true
           {| Chords.root := JS.lit "D#"; Chords.tail := JS.lit "m7" |}).
  - vm_compute. discriminate.
  - reflexivity.
  - reflexivity.
  - cbn [Chords.tail]. intros a rest E. injection E as <- _. lia.
Defined.

(* ================================================================== *)
(** * The coarse quality                                               *)
(* ================================================================== *)

Section CoarseQuality.
Import JS Spec Transpose Chords.

Lemma prev_last pre rst cs :
  isWordAt (prevChar (pre ++ rst) {| pos := List.length pre; rest := rst; caps := cs |})
  = isWordChar (last pre 0).
Proof.
  unfold prevChar. cbn [pos].
  destruct pre as [|x pre] using rev_ind; [reflexivity|].
  rewrite length_app. cbn [List.length]. replace (List.length pre + 1)%nat
    with (S (List.length pre)) by lia.
  rewrite <- app_assoc. rewrite nth_error_app2 by lia.
  rewrite Nat.sub_diag. cbn [app nth_error isWordAt]. rewrite last_last. reflexivity.
Qed.

Lemma matchAt_minor pre rst :
  matchAt MINOR_RE (pre ++ rst) (List.length pre) rst
  = match rst with
    | ch :: tl =>
        if negb (isWordChar (last pre 0)) && (ch =? 109) && negb (prefixb (lit "aj") tl)
        then Some {| pos := S (List.length pre); rest := tl; caps := [] |}
        else None
    | [] => None
    end.
Proof.
  unfold matchAt, MINOR_RE, rword, rchar, rch.
  change (Z.of_N (N_of_ascii "m")) with 109. change (lit "aj") with [97; 106].
  cbn [body ignoreCase rseq map rmatch rest]. rewrite prev_last.
  destruct rst as [|ch tl].
  - cbn [hd_error isWordAt]. rewrite xorb_false_r.
    destruct (isWordChar (last pre 0)); reflexivity.
  - cbn [hd_error isWordAt]. rewrite cmatch_exact.
    cbn [cranges cinvert in_ranges existsb fst snd]. rewrite xorb_false_r, orb_false_r.
    replace ((109 <=? ch) && (ch <=? 109)) with (ch =? 109) by lia.
    destruct (ch =? 109) eqn:E.
    + apply Z.eqb_eq in E. subst ch. change (isWordChar 109) with true.
      rewrite xorb_true_r, andb_true_r.
      destruct (isWordChar (last pre 0)); cbn [negb andb]; [reflexivity|].
      unfold advance. cbn [pos rest caps prefixb].
      destruct tl as [|a tl]; [reflexivity|].
      rewrite cmatch_exact. cbn [cranges cinvert in_ranges existsb fst snd].
      rewrite xorb_false_r, orb_false_r.
      replace ((97 <=? a) && (a <=? 97)) with (97 =? a) by lia.
      destruct (97 =? a); cbn [andb negb]; [|reflexivity].
      destruct tl as [|j tl]; [reflexivity|].
      rewrite cmatch_exact. cbn [cranges cinvert in_ranges existsb fst snd].
      rewrite xorb_false_r, orb_false_r.
      replace ((106 <=? j) && (j <=? 106)) with (106 =? j) by lia.
      destruct (106 =? j); reflexivity.
    + rewrite andb_false_r. cbn [andb].
      destruct (xorb (isWordChar (last pre 0)) (isWordChar ch)); reflexivity.
Qed.

Lemma execFrom_minor : forall rst pre,
  execFrom MINOR_RE (pre ++ rst) (List.length pre) rst <> None
  <-> exists u v, rst = u ++ 109 :: v
                  /\ isWordChar (last (pre ++ u) 0) = false
                  /\ prefixb (lit "aj") v = false.
Proof.
  induction rst as [|ch tl IH]; intros pre.
  - cbn [execFrom]. rewrite matchAt_minor. split; [congruence|].
    intros (u & v & E & _). destruct u; discriminate E.
  - cbn [execFrom]. rewrite matchAt_minor.
    destruct (negb (isWordChar (last pre 0)) && (ch =? 109)
              && negb (prefixb (lit "aj") tl)) eqn:M.
    + split; [|discriminate]. intros _.
      apply andb_prop in M. destruct M as [M M3]. apply andb_prop in M.
      destruct M as [M1 M2]. apply negb_true_iff in M1, M3. apply Z.eqb_eq in M2.
      subst ch. exists [], tl. rewrite app_nil_r. auto.
    + replace (pre ++ ch :: tl) with ((pre ++ [ch]) ++ tl)
        by (rewrite <- app_assoc; reflexivity).
      replace (S (List.length pre)) with (List.length (pre ++ [ch]))
        by (rewrite length_app; cbn [List.length]; lia).
      rewrite IH. split.
      * intros (u & v & -> & Hw & Hp). exists (ch :: u), v.
        rewrite <- app_assoc in Hw. auto.
      * intros (u & v & E & Hw & Hp). destruct u as [|c u].
        -- cbn [app] in E. injection E as -> ->. rewrite app_nil_r in Hw.
           rewrite Hw, Hp in M. discriminate M.
        -- cbn [app] in E. injection E as -> ->. exists u, v.
           rewrite <- app_assoc. auto.
Qed.

Lemma test_minor tail : test MINOR_RE tail = true <-> Props.minorMark tail.
Proof.
  unfold test, exec, Props.minorMark.
  pose proof (execFrom_minor tail []) as H. cbn [app List.length] in H.
  destruct (execFrom MINOR_RE tail 0 tail) as [r|].
  - split; [|reflexivity]. intros _.
    destruct (proj1 H) as (u & v & E & Hw & Hp); [discriminate|].
    exists u, v. split; [exact E|]. split; [right; exact Hw | exact Hp].
  - split; [discriminate|]. intros (u & v & E & Hw & Hp).
    exfalso. apply (proj2 H); [|reflexivity]. exists u, v.
    split; [exact E|]. split; [|exact Hp].
    destruct Hw as [->|Hw]; [reflexivity | exact Hw].
Qed.

End CoarseQuality.

(** X25. What counts as minor.  The pattern of [coarseQuality] finds an
    "m" that starts a word and is not followed by "aj", and nothing
    else; with it a tail is a minor seventh if it holds a "7" and minor
    if not, unless it holds "maj7".  An "m" after a letter or a digit
    does not count: the tails "dim" and "7m" are taken like a major
    chord and a seventh. *)
Theorem coarseQuality_minor_mark :
  (forall tail, JS.test Chords.MINOR_RE tail = true <-> Props.minorMark tail)
  /\ (forall tail,
      Chords.coarseQuality tail = Chords.min
      <-> JS.includes (JS.lit "maj7") tail = false /\ Props.minorMark tail
          /\ JS.includes (JS.lit "7") tail = false)
  /\ (forall tail,
      Chords.coarseQuality tail = Chords.m7
      <-> JS.includes (JS.lit "maj7") tail = false /\ Props.minorMark tail
          /\ JS.includes (JS.lit "7") tail = true)
  /\ Chords.coarseQuality (JS.lit "m7b5") = Chords.m7
  /\ Chords.coarseQuality (JS.lit "sus4/m") = Chords.min
  /\ Chords.coarseQuality (JS.lit "dim") = Chords.majLike
  /\ Chords.coarseQuality (JS.lit "7m") = Chords.dom7
  /\ Chords.coarseQuality (JS.lit "maj9") = Chords.majLike.
Proof.
  split; [exact test_minor|]. split; [|split].
  - intros tail. rewrite <- test_minor. unfold Chords.coarseQuality.
    destruct (JS.includes (JS.lit "maj7") tail); [split; [discriminate | intros [E _]; discriminate E]|].
    destruct (JS.test Chords.MINOR_RE tail); cbn [andb].
    + destruct (JS.includes (JS.lit "7") tail);
        [split; [discriminate | intros (_ & _ & E); discriminate E] | tauto].
    + split; [|intros (_ & E & _); discriminate E].
      destruct (JS.includes (JS.lit "7") tail); [discriminate|].
      destruct (JS.includes (JS.lit "sus4") tail); [discriminate|].
      destruct (JS.includes (JS.lit "add9") tail); discriminate.
  - intros tail. rewrite <- test_minor. unfold Chords.coarseQuality.
    destruct (JS.includes (JS.lit "maj7") tail); [split; [discriminate | intros [E _]; discriminate E]|].
    destruct (JS.test Chords.MINOR_RE tail); cbn [andb].
    + destruct (JS.includes (JS.lit "7") tail);
        [tauto | split; [discriminate | intros (_ & _ & E); discriminate E]].
    + split; [|intros (_ & E & _); discriminate E].
      destruct (JS.includes (JS.lit "7") tail); [discriminate|].
      destruct (JS.includes (JS.lit "sus4") tail); [discriminate|].
      destruct (JS.includes (JS.lit "add9") tail); discriminate.
  - repeat split; vm_compute; reflexivity.
Qed.

Section Layout.
Import JS Spec Transpose.

Lemma filter_join (f : Z -> bool) l :
  filter f (join l) = join (map (filter f) l).
Proof.
  unfold join. induction l as [|x l IH]; [reflexivity|].
  cbn [List.concat map]. rewrite filter_app, IH. reflexivity.
Qed.

Lemma wsFree_filter l : wsFree l -> filter isSpace l = [].
Proof.
  intros H. induction H as [|c l Hc _ IH]; [reflexivity|].
  cbn [filter]. rewrite Hc. exact IH.
Qed.

Lemma image_whitespace s p span :
  filter isSpace (image s p span) = filter isSpace span.
Proof.
  destruct (isChordLike span) eqn:E.
  - pose proof (chordLike_wsFree span E) as W.
    rewrite (wsFree_filter span W).
    apply wsFree_filter. apply image_wsFree. exact W.
  - rewrite (image_not_chord s p span E). reflexivity.
Qed.

Lemma whitespace_kept t s p :
  filter isSpace (transposeChordText t s p) = filter isSpace t.
Proof.
  rewrite transposeChordText_spans. rewrite <- (spans_join t) at 2.
  rewrite !filter_join, map_map. f_equal. apply map_ext. intros span.
  apply image_whitespace.
Qed.

End Layout.

(** X26. The whitespace of a text, code unit for code unit and in its
    order, is the whitespace of the transposed text: no line break and
    no blank is added, dropped or changed, and so the text keeps its
    lines.  Only the width of the chords between them may change. *)
Theorem transposeChordText_keeps_whitespace :
  forall (t : list Z) (s : Z) (p : bool),
    filter JS.isSpace (Transpose.transposeChordText t s p) = filter JS.isSpace t
    /\ List.length (filter (Z.eqb 10) (Transpose.transposeChordText t s p))
       = List.length (filter (Z.eqb 10) t).
Proof.
  intros t s p. pose proof (whitespace_kept t s p) as H. split; [exact H|].
  assert (F : forall l, filter (Z.eqb 10) l = filter (Z.eqb 10) (filter JS.isSpace l)).
  { induction l as [|c l IH]; [reflexivity|]. cbn [filter].
    destruct (JS.isSpace c) eqn:E; cbn [filter].
    - destruct (10 =? c); [rewrite IH; reflexivity | exact IH].
    - destruct (10 =? c) eqn:E10; [|exact IH].
      apply Z.eqb_eq in E10. subst c. discriminate E. }
  rewrite (F (Transpose.transposeChordText t s p)), (F t), H. reflexivity.
Qed.

Section LineByLine.
Import JS Spec Transpose.

Variable s : Z.
Variable p : bool.

Let mt (tok : list Z) : list Z := maybeTransposeToken tok s p.
Let G (inWs : bool) (cur l : list Z) : list Z := join (map mt (wsTokens inWs cur l)).

Lemma mt_nil : mt [] = [].
Proof. reflexivity. Qed.

Lemma mt_ws cur : cur <> [] -> allWs cur -> mt cur = cur.
Proof. apply maybeTransposeToken_ws. Qed.

Lemma allWs_snoc cur c : allWs cur -> isSpace c = true -> allWs (cur ++ [c]).
Proof.
  intros H Hc. unfold allWs. apply Forall_app. split; [exact H|].
  apply Forall_cons; [exact Hc | apply Forall_nil].
Qed.

Lemma run_then_text : forall l cur,
  cur <> [] -> allWs cur -> G true cur l = cur ++ G false [] l.
Proof.
  unfold G, join.
  induction l as [|x tl IH]; intros cur Hne Hws.
  - cbn [wsTokens map List.concat]. rewrite mt_nil, (mt_ws cur Hne Hws).
    rewrite !app_nil_r. reflexivity.
  - cbn [wsTokens]. destruct (isSpace x) eqn:E.
    + rewrite IH; [|destruct cur; discriminate | apply allWs_snoc; assumption].
      cbn [map List.concat]. rewrite mt_nil. cbn [app].
      rewrite (IH [x]); [|discriminate | apply Forall_cons; [exact E | apply Forall_nil]].
      rewrite <- app_assoc. reflexivity.
    + cbn [map List.concat app]. rewrite (mt_ws cur Hne Hws). reflexivity.
Qed.

Lemma text_at_space c t2 : isSpace c = true ->
  forall t1,
    (forall cur, G false cur (t1 ++ c :: t2) = G false cur t1 ++ c :: G false [] t2)
    /\ (forall cur, cur <> [] -> allWs cur ->
          G true cur (t1 ++ c :: t2) = G true cur t1 ++ c :: G false [] t2).
Proof.
  intros Hc.
  assert (One : allWs [c]) by (apply Forall_cons; [exact Hc | apply Forall_nil]).
  induction t1 as [|x t1 [IHf IHt]]; split; intros cur.
  - unfold G at 1 2, join. cbn [app wsTokens]. rewrite Hc.
    cbn [map List.concat]. rewrite app_nil_r. f_equal.
    change (List.concat (map mt (wsTokens true [c] t2))) with (G true [c] t2).
    apply run_then_text; [discriminate | exact One].
  - intros Hne Hws. cbn [app]. unfold G at 1, join. cbn [wsTokens]. rewrite Hc.
    change (List.concat (map mt (wsTokens true (cur ++ [c]) t2)))
      with (G true (cur ++ [c]) t2).
    rewrite run_then_text; [|destruct cur; discriminate | apply allWs_snoc; assumption].
    rewrite (run_then_text [] cur Hne Hws).
    unfold G at 2, join. cbn [wsTokens map List.concat]. rewrite mt_nil.
    cbn [app]. rewrite app_nil_r, <- app_assoc. reflexivity.
  - cbn [app]. unfold G at 1 2, join. cbn [wsTokens]. destruct (isSpace x) eqn:E.
    + cbn [map List.concat]. rewrite <- app_assoc. f_equal.
      apply IHt; [discriminate | apply Forall_cons; [exact E | apply Forall_nil]].
    + apply IHf.
  - intros Hne Hws. cbn [app]. unfold G at 1 2, join. cbn [wsTokens].
    destruct (isSpace x) eqn:E.
    + apply IHt; [destruct cur; discriminate | apply allWs_snoc; assumption].
    + cbn [map List.concat]. rewrite <- app_assoc. f_equal. apply IHf.
Qed.

Lemma transposeChordText_G t : transposeChordText t s p = G false [] t.
Proof.
  unfold transposeChordText, G. cbv zeta. rewrite (proj1 (split_ws t)). reflexivity.
Qed.

Lemma transposeChordText_at_space t1 c t2 :
  isSpace c = true ->
  transposeChordText (t1 ++ c :: t2) s p
  = transposeChordText t1 s p ++ c :: transposeChordText t2 s p.
Proof.
  intros Hc. rewrite !transposeChordText_G.
  apply (proj1 (text_at_space c t2 Hc t1)).
Qed.

End LineByLine.

(** X27. A text is transposed piece by piece: at every whitespace code
    unit the transposed text is the transposed part before it, the code
    unit itself and the transposed part after it.  In particular a text
    is transposed line by line. *)
Theorem transposeChordText_splits_at_whitespace :
  forall (t1 t2 : list Z) (c s : Z) (p : bool),
    JS.isSpace c = true ->
    Transpose.transposeChordText (t1 ++ c :: t2) s p
    = Transpose.transposeChordText t1 s p ++ c :: Transpose.transposeChordText t2 s p.
Proof. intros t1 t2 c s p. apply transposeChordText_at_space. Qed.

(** Two lines: "C  G7" and "(Am)". *)
Lemma transposeChordText_splits_at_whitespace_witness :
  JS.isSpace 10 = true
  /\ Transpose.transposeChordText (JS.lit "C  G7" ++ 10 :: JS.lit "(Am)") 2 true
     = Transpose.transposeChordText (JS.lit "C  G7") 2 true
       ++ 10 :: Transpose.transposeChordText (JS.lit "(Am)") 2 true
  /\ Transpose.transposeChordText (JS.lit "C  G7") 2 true = JS.lit "D  A7"
  /\ Transpose.transposeChordText (JS.lit "(Am)") 2 true = JS.lit "(Bm)".
Proof.
  split; [reflexivity|].
  split; [apply (transposeChordText_splits_at_whitespace _ _ 10 2 true); reflexivity|].
  split; vm_compute; reflexivity.
Defined.

(* ================================================================== *)
(** * The Base64 text of a share token                                 *)
(* ================================================================== *)

Section ShareToken.
Import JS JSMore Spec Share Props.

Lemma utf8Encode_bytes_upto n :
  forall s, (List.length s <= n)%nat ->
            Forall (fun c => 0 <= c <= 65535) s -> Forall isByte (utf8Encode s).
Proof.
  induction n as [|n IH]; intros s Hn Hs.
  - destruct s; [apply Forall_nil | cbn in Hn; lia].
  - destruct s as [|c tl]; [apply Forall_nil|].
    apply Forall_cons_iff in Hs. destruct Hs as [Hc Htl].
    cbn [List.length] in Hn.
    assert (IHtl : Forall isByte (utf8Encode tl)) by (apply IH; [lia | exact Htl]).
    cbn [utf8Encode].
    destruct (c <? 128) eqn:E1.
    { apply Forall_cons; [unfold isByte; lia | exact IHtl]. }
    destruct (c <? 2048) eqn:E2.
    { assert (0 <= c / 64 < 32)
        by (split; [apply Z.div_pos; lia | apply Z.div_lt_upper_bound; lia]).
      pose proof (Z.mod_pos_bound c 64 ltac:(lia)).
      repeat (apply Forall_cons; [unfold isByte; lia|]). exact IHtl. }
    destruct ((55296 <=? c) && (c <=? 56319)) eqn:E3.
    { destruct tl as [|d tl'].
      { repeat (apply Forall_cons; [unfold isByte; lia|]). apply Forall_nil. }
      destruct ((56320 <=? d) && (d <=? 57343)) eqn:E4.
      - apply Forall_cons_iff in Htl. destruct Htl as [Hd Htl'].
        cbn [List.length] in Hn.
        assert (IH' : Forall isByte (utf8Encode tl')) by (apply IH; [lia | exact Htl']).
        cbv zeta.
        set (cp := 65536 + (c - 55296) * 1024 + (d - 56320)).
        assert (Hcp : 65536 <= cp <= 1114111) by (unfold cp; lia).
        assert (0 <= cp / 262144 < 5)
          by (split; [apply Z.div_pos; lia | apply Z.div_lt_upper_bound; lia]).
        pose proof (Z.mod_pos_bound (cp / 4096) 64 ltac:(lia)).
        pose proof (Z.mod_pos_bound (cp / 64) 64 ltac:(lia)).
        pose proof (Z.mod_pos_bound cp 64 ltac:(lia)).
        repeat (apply Forall_cons; [unfold isByte; lia|]). exact IH'.
      - repeat (apply Forall_cons; [unfold isByte; lia|]). exact IHtl. }
    destruct ((56320 <=? c) && (c <=? 57343)) eqn:E5.
    { repeat (apply Forall_cons; [unfold isByte; lia|]). exact IHtl. }
    assert (0 <= c / 4096 < 16)
      by (split; [apply Z.div_pos; lia | apply Z.div_lt_upper_bound; lia]).
    pose proof (Z.mod_pos_bound (c / 64) 64 ltac:(lia)).
    pose proof (Z.mod_pos_bound c 64 ltac:(lia)).
    repeat (apply Forall_cons; [unfold isByte; lia|]). exact IHtl.
Qed.

Lemma utf8Encode_bytes s :
  Forall (fun c => 0 <= c <= 65535) s -> Forall isByte (utf8Encode s).
Proof. apply (utf8Encode_bytes_upto (List.length s)). lia. Qed.

Lemma base64Alphabet_chars : Forall isBase64Char base64Alphabet.
Proof.
  repeat (apply Forall_cons; [unfold isBase64Char; cbn; lia|]). apply Forall_nil.
Qed.

Lemma base64Char_alphabet i : 0 <= i < 64 -> isBase64Char (base64Char i).
Proof.
  intros H. pose proof base64Alphabet_chars as A. rewrite Forall_forall in A.
  apply A. unfold base64Char. apply nth_In.
  change (List.length base64Alphabet) with 64%nat. lia.
Qed.

Lemma btoa_bytes bin : Forall isByte bin -> btoa bin = Some (base64 bin).
Proof.
  intros H. unfold btoa.
  replace (forallb (fun c => c <=? 255) bin) with true; [reflexivity|].
  symmetry. apply forallb_forall. rewrite Forall_forall in H.
  intros x Hx. specialize (H x Hx). unfold isByte in H. lia.
Qed.

Lemma btoa_above bin c :
  In c bin -> 255 < c -> btoa bin = None.
Proof.
  intros Hin Hc. unfold btoa.
  destruct (forallb (fun c => c <=? 255) bin) eqn:E; [|reflexivity].
  rewrite forallb_forall in E. specialize (E c Hin). lia.
Qed.

Ltac sextet :=
  apply base64Char_alphabet;
  repeat match goal with
         | |- context [?a / ?k] =>
             lazymatch goal with
             | _ : 0 <= a / k |- _ => fail
             | _ => assert (0 <= a / k) by (apply Z.div_pos; lia);
                    assert (a / k < 256 / k)
                      by (apply Z.div_lt_upper_bound; [lia | cbn; lia])
             end
         | |- context [?a mod ?k] =>
             lazymatch goal with
             | _ : 0 <= a mod k < k |- _ => fail
             | _ => pose proof (Z.mod_pos_bound a k ltac:(lia))
             end
         end;
  cbn in *; lia.

Lemma base64_shape_upto n :
  forall bin, (List.length bin <= n)%nat -> Forall isByte bin ->
    exists body k,
      base64 bin = body ++ List.repeat 61 k
      /\ Forall isBase64Char body
      /\ (k < 3)%nat
      /\ (List.length body + k = 4 * ((List.length bin + 2) / 3))%nat.
Proof.
  induction n as [|n IH]; intros bin Hn Hb.
  - destruct bin; [|cbn in Hn; lia].
    exists [], 0%nat. repeat split; [apply Forall_nil | lia].
  - destruct bin as [|a [|b [|c tl]]].
    + exists [], 0%nat. repeat split; [apply Forall_nil | lia].
    + apply Forall_cons_iff in Hb. destruct Hb as [Ha _]. unfold isByte in Ha.
      exists [base64Char (a / 4); base64Char (a mod 4 * 16)], 2%nat.
      repeat split; [|lia].
      repeat (apply Forall_cons; [sextet|]). apply Forall_nil.
    + apply Forall_cons_iff in Hb. destruct Hb as [Ha Hb].
      apply Forall_cons_iff in Hb. destruct Hb as [Hb' _].
      unfold isByte in Ha, Hb'.
      exists [base64Char (a / 4); base64Char (a mod 4 * 16 + b / 16);
              base64Char (b mod 16 * 4)], 1%nat.
      repeat split; [|lia].
      repeat (apply Forall_cons; [sextet|]). apply Forall_nil.
    + apply Forall_cons_iff in Hb. destruct Hb as [Ha Hb].
      apply Forall_cons_iff in Hb. destruct Hb as [Hb' Hb].
      apply Forall_cons_iff in Hb. destruct Hb as [Hc Htl].
      unfold isByte in Ha, Hb', Hc. cbn [List.length] in Hn.
      destruct (IH tl ltac:(lia) Htl) as (body & k & E & Hbody & Hk & Hlen).
      exists (base64Char (a / 4) :: base64Char (a mod 4 * 16 + b / 16)
              :: base64Char (b mod 16 * 4 + c / 64) :: base64Char (c mod 64)
              :: body), k.
      split; [cbn [base64]; rewrite E; reflexivity|].
      split; [repeat (apply Forall_cons; [sextet|]); exact Hbody|].
      split; [exact Hk|].
      cbn [List.length].
      replace (S (S (S (List.length tl))) + 2)%nat
        with (List.length tl + 2 + 1 * 3)%nat by lia.
      rewrite Nat.div_add by lia. lia.
Qed.

Lemma base64_shape bin :
  Forall isByte bin ->
  exists body k,
    base64 bin = body ++ List.repeat 61 k
    /\ Forall isBase64Char body
    /\ (k < 3)%nat
    /\ (List.length body + k = 4 * ((List.length bin + 2) / 3))%nat.
Proof. apply (base64_shape_upto (List.length bin)). lia. Qed.

Lemma share_token s :
  Forall (fun c => 0 <= c <= 65535) s ->
  exists b64,
    toBase64Utf8 s = Some b64
    /\ fromUrlSafe (toUrlSafe b64) = b64
    /\ Forall (fun c => Props.urlChar c = true) (toUrlSafe b64).
Proof.
  intros Hs. pose proof (utf8Encode_bytes s Hs) as Hb.
  exists (base64 (utf8Encode s)).
  split; [unfold toBase64Utf8; cbv zeta; apply btoa_bytes; exact Hb|].
  destruct (base64_shape _ Hb) as (body & k & E & Hbody & Hk & Hlen).
  rewrite E. split.
  - apply urlSafe_round_trip.
    + apply (Forall_impl _ (P := isBase64Char)); [|exact Hbody].
      intros c Hc. unfold isBase64Char in Hc. lia.
    + lia.
    + rewrite Hlen, Nat2Z.inj_mul, Z.mul_comm. apply Z.mod_mul. lia.
  - rewrite toUrlSafe_padded.
    + apply Forall_forall. intros y Hy. apply in_map_iff in Hy.
      destruct Hy as (x & <- & Hx). rewrite Forall_forall in Hbody.
      specialize (Hbody x Hx). unfold isBase64Char in Hbody. unfold Props.urlChar.
      destruct (x =? 47) eqn:A; [reflexivity|].
      destruct (x =? 43) eqn:B; [reflexivity|]. lia.
    + apply (Forall_impl _ (P := isBase64Char)); [|exact Hbody].
      intros c Hc. unfold isBase64Char in Hc. lia.
Qed.

End ShareToken.

(** X28. [toBase64Utf8] never throws, although [btoa] does on a text
    with a code unit above 255: it hands [btoa] the UTF-8 bytes.  Its
    Base64 text comes back unchanged from [fromUrlSafe] of [toUrlSafe],
    and the URL-safe form holds letters, digits, "-" and "_" only. *)
Theorem toBase64Utf8_gives_a_url_safe_token :
  forall s : list Z,
    Forall (fun c => 0 <= c <= 65535) s ->
    (forall c, In c s -> 255 < c -> JSMore.btoa s = None)
    /\ exists b64 : list Z,
        Share.toBase64Utf8 s = Some b64
        /\ Share.fromUrlSafe (Share.toUrlSafe b64) = b64
        /\ Forall (fun c => Props.urlChar c = true) (Share.toUrlSafe b64).
Proof.
  intros s Hs. split; [intros c; apply btoa_above|]. apply share_token. exact Hs.
Qed.

(** "C", the sharp sign U+266F (code unit 9839), "?" and ">": [btoa] throws on it, the
    Base64 text of its UTF-8 bytes is "Q+KZrz8+" and the token
    "Q-KZrz8-". *)
Lemma toBase64Utf8_gives_a_url_safe_token_witness :
  Share.toBase64Utf8 [67; 9839; 63; 62] = Some (JS.lit "Q+KZrz8+")
  /\ Share.toUrlSafe (JS.lit "Q+KZrz8+") = JS.lit "Q-KZrz8-"
  /\ ((forall c, In c [67; 9839; 63; 62] -> 255 < c
                 -> JSMore.btoa [67; 9839; 63; 62] = None)
      /\ exists b64 : list Z,
          Share.toBase64Utf8 [67; 9839; 63; 62] = Some b64
          /\ Share.fromUrlSafe (Share.toUrlSafe b64) = b64
          /\ Forall (fun c => Props.urlChar c = true) (Share.toUrlSafe b64)).
Proof.
  split; [vm_compute; reflexivity|]. split; [vm_compute; reflexivity|].
  apply (toBase64Utf8_gives_a_url_safe_token [67; 9839; 63; 62]).
  repeat (apply Forall_cons; [lia|]). apply Forall_nil.
Defined.

(* ================================================================== *)
(** * Keys that are no keys                                            *)
(* ================================================================== *)

Section InheritedNames.
Import JS Spec Transpose.

Lemma own_not_inherited k i :
  lookup k ENHARMONIC_MAP = Some i -> has inheritedNames k = false.
Proof.
  intros H. apply lookup_in in H.
  assert (E : forallb (fun kv => negb (has inheritedNames (fst kv))) ENHARMONIC_MAP = true)
    by (vm_compute; reflexivity).
  rewrite forallb_forall in E. apply E in H. apply negb_true_iff in H. exact H.
Qed.

(** What [stepsFromKeys] reads for one key. *)
Lemma key_index k :
  let key := match normNote k with Some n => n | None => lit "C" end in
  if has inheritedNames k then orElse (get k) (get key) = Inherited
  else exists i, orElse (get k) (get key) = Num i /\ 0 <= i <= 11.
Proof.
  intros key.
  assert (Hkey : exists i, get key = Num i /\ 0 <= i <= 11).
  { unfold key. destruct (normNote k) as [n|] eqn:E.
    - destruct (normNote_own k n E) as (i & Hi). exists i.
      split; [unfold get; unfold indexOf in Hi; rewrite Hi; reflexivity|].
      apply (indexOf_range n i Hi).
    - exists 0. split; [reflexivity | lia]. }
  destruct (lookup k ENHARMONIC_MAP) as [i|] eqn:E.
  - assert (G : get k = Num i) by (unfold get; rewrite E; reflexivity).
    rewrite G, (own_not_inherited k i E). exists i.
    split; [reflexivity | apply (indexOf_range k i E)].
  - assert (G : get k = if has inheritedNames k then Inherited else Undefined)
      by (unfold get; rewrite E; reflexivity).
    rewrite G. destruct (has inheritedNames k); [reflexivity | exact Hkey].
Qed.

Lemma stepsFromKeys_cases fromKey toKey :
  if has inheritedNames fromKey || has inheritedNames toKey
  then stepsFromKeys fromKey toKey = None
  else exists n, stepsFromKeys fromKey toKey = Some n /\ -11 <= n <= 11.
Proof.
  pose proof (key_index fromKey) as Hf. pose proof (key_index toKey) as Ht.
  cbv zeta in Hf, Ht. unfold stepsFromKeys. cbv zeta.
  destruct (has inheritedNames fromKey); cbn [orb].
  - rewrite Hf. reflexivity.
  - destruct Hf as (i & -> & Hi). destruct (has inheritedNames toKey).
    + rewrite Ht. reflexivity.
    + destruct Ht as (j & -> & Hj). exists (j - i). split; [reflexivity | lia].
Qed.

End InheritedNames.

(** X29. [stepsFromKeys] gives a number from -11 to 11 for every two
    strings, with "C" standing in for what is no note, unless one of
    them is a property name that every object inherits, such as
    "constructor" or "toString": the lookup in the table then finds a
    function, the fallback is not used, and the difference is [NaN]. *)
Theorem stepsFromKeys_is_no_number_for_inherited_names :
  (forall fromKey toKey : list Z,
      if Transpose.has Transpose.inheritedNames fromKey
         || Transpose.has Transpose.inheritedNames toKey
      then Transpose.stepsFromKeys fromKey toKey = None
      else exists n, Transpose.stepsFromKeys fromKey toKey = Some n /\ -11 <= n <= 11)
  /\ Transpose.stepsFromKeys (JS.lit "constructor") (JS.lit "G") = None
  /\ Transpose.stepsFromKeys (JS.lit "G") (JS.lit "toString") = None
  /\ Transpose.stepsFromKeys (JS.lit "H") (JS.lit "G") = Some 7
  /\ Transpose.stepsFromKeys (JS.lit "bb minor") (JS.lit "g") = Some (-3).
Proof.
  split; [exact stepsFromKeys_cases|]. repeat split; vm_compute; reflexivity.
Qed.
